(** * Session capture and replay: a shallow embedding

    The definitions follow the repository's three parts:
    - [Ingest]   : the chunk endpoint ([POST] of the chunks route and
                   [generateChunkHash]);
    - [Recorder] : the instrumentation script ([RecordingScript]);
    - [Replay]   : the session page ([handleTimelineChange]), the replay
                   view ([transformCoordinates]) and the DOM renderer
                   ([sanitizeHtml]).
    Their properties are in [IngestFacts], [RecorderFacts] and
    [ReplayFacts].

    Further modules, each with its [..Facts]:
    - [Float64]       : rounding to the nearest double;
    - [RateLimit]     : the in-memory limiter and [withRateLimit];
    - [ChunkReads]    : [GET] of the chunks route;
    - [SessionsRoute] : the sessions route (upsert, listing, delete);
    - [Observer]      : the callback of the script's mutation observer
                        (its properties are in [RecorderFacts] and
                        [AgentFacts]);
    - [Agent]         : the script's input handlers, runs of flushes,
                        and [hashString];
    - [Playback]      : [fetchSessionData], the playback ticks and the
                        play, restart and reset handlers;
    - [PageScale]     : [handleResize] of the session page;
    - [Sanitized]     : what [sanitizeHtml] leaves of a markup;
    - [LocalRecorder] : the in-page [SessionRecorder].

    JavaScript numbers that hold millisecond clocks, counters and pixel
    coordinates are integers ([Z]); the significance score, a sum of
    halves, is an exact rational ([Q]); the scale factors and what is
    computed from them are doubles, written as the rationals they
    denote, with every operation rounded ([Float64.fl]); strings are
    [string].  Methods of an object take the state they read and return
    the state they leave; what a call reads from the page, the clock or
    the store's error channel is an argument, and a call that reads the
    clock more than once gets the readings in their order
    ([Recorder.reads]).  An [async] method is split at its first
    [await] into the part that runs at the call and the part that runs
    when its requests have settled. *)

From Stdlib Require Import List String Ascii ZArith QArith Qround Qminmax Bool Lia Lqa.
From Stdlib Require Import DecimalString Permutation Sorted Qpower.
Import ListNotations.

(** ** Events, as the recorder builds them and the page reads them *)

Module Model.

(** An entry of [canvasElements] (the fields the replay side reads). *)
Record CanvasElement := mkCanvas {
  domId : string;
  dataUrl : option string;
  width : Z;
  height : Z
}.

(** [EventData] of [types.ts]; a field that is [undefined] is [None].
    Only the fields read by the code modelled here are kept. *)
Record EventData := mkData {
  d_timestamp : option string;      (* ISO wall-clock string *)
  d_x : option Z;
  d_y : option Z;
  d_html : option string;
  d_url : option string;
  d_canvasElements : option (list CanvasElement)
}.

(** [{ type, timestamp, data }]; [data] may be missing in a payload
    that did not come from the recorder. *)
Record Event := mkEvent {
  type : string;
  timestamp : Z;
  data : option EventData
}.

Definition noData : EventData := mkData None None None None None None.

(** JavaScript truthiness of an optional string: [undefined] and the
    empty string are falsy. *)
Definition truthy (s : option string) : bool :=
  match s with
  | Some s' => negb (String.eqb s' EmptyString)
  | None => false
  end.

(** [s || ""] for an optional string. *)
Definition orEmpty (s : option string) : string :=
  match s with Some s' => s' | None => EmptyString end.

(** Decimal rendering of an array length inside a template literal. *)
Definition showNat (n : nat) : string :=
  NilEmpty.string_of_uint (Nat.to_uint n).

End Model.

(** ** The chunk endpoint *)

Module Ingest.
Import Model.

Local Open Scope string_scope.

(** *** The store: the three tables of the schema *)

Record ApiKeyRow := mkKey { key : string; allowed_url : string }.

Record SessionRow := mkSession {
  id : string;
  s_url : string;
  s_created_at : string
}.

(** A JSON array element: [None] is [null], [Some e] an event object. *)
Definition JsonEvent := option Event.

Record ChunkRow := mkChunk {
  session_id : string;
  c_events : list JsonEvent;
  hash : string;
  created_at : string
}.

Record Db := mkDb {
  api_keys : list ApiKeyRow;
  sessions : list SessionRow;
  session_chunks : list ChunkRow
}.

(** [.select(..).eq(col, v).single()]: the row when exactly one row
    matches; otherwise the client reports an error and [data] is null. *)
Definition single {A : Type} (rows : list A) : option A :=
  match rows with
  | [r] => Some r
  | _ => None
  end.

Definition keyRows (db : Db) (k : string) : list ApiKeyRow :=
  filter (fun r => String.eqb (key r) k) (api_keys db).

Definition sessionRows (db : Db) (sid : string) : list SessionRow :=
  filter (fun r => String.eqb (id r) sid) (sessions db).

Definition chunkRows (db : Db) (h : string) : list ChunkRow :=
  filter (fun r => String.eqb (hash r) h) (session_chunks db).

(** *** Requests, responses and the handler's surroundings *)

(** The destructured request body: a missing or empty [sessionId] is
    [""], [events] is [None] when it is missing or not an array. *)
Record Body := mkBody {
  sessionId : string;
  events : option (list JsonEvent);
  url : string
}.

(** [apiKey] is the [x-api-key] header; [body] is [None] when
    [request.json()] rejects. *)
Record Request := mkRequest {
  apiKey : option string;
  body : option Body
}.

Inductive Payload :=
| P_error (e : string)                (* { error } *)
| P_message (m : string)              (* { message } *)
| P_success (m : option string).      (* { success: true, message? } *)

Record Response := mkResponse { status : Z; payload : Payload }.

(** What the handler reads from its surroundings during one call.  The
    three lookups are answered from the tables; the two inserts can be
    refused. *)
Record Env := mkEnv {
  now : string;                 (* new Date().toISOString() *)
  random : string;              (* Math.random().toString(36).substring(2) *)
  createSessionError : bool;    (* the store refuses the session insert *)
  insertError : bool            (* the store refuses the chunk insert *)
}.

(** [generateChunkHash].  Reading [.type] of a [null] element throws,
    and the [catch] answers with a random string. *)
Definition generateChunkHash (rand : string) (sid : string)
           (evs : list JsonEvent) : string :=
  match evs with
  | [] => ""
  | first :: _ =>
      match first, last evs None with
      | Some f, Some l =>
          let firstEvent := type f in
          let lastEvent := type l in
          let eventCount := showNat (List.length evs) in
          let firstTimestamp :=
            match data f with
            | Some d => orEmpty (d_timestamp d)
            | None => ""
            end in
          sid ++ "-" ++ eventCount ++ "-" ++ firstEvent ++ "-"
              ++ lastEvent ++ "-" ++ firstTimestamp
      | _, _ => rand
      end
  end.

(** A host-and-port reader for plain URLs of the shape
    [scheme://host[:port]/path], to run the handler on concrete
    requests: the text between [://] and the next [/]. *)
Fixpoint afterScheme (s : string) : option string :=
  match s with
  | EmptyString => None
  | String _ tl =>
      if String.prefix "://" s
      then Some (String.substring 3 (String.length s - 3) s)
      else afterScheme tl
  end.

Fixpoint upToSlash (s : string) : string :=
  match s with
  | EmptyString => EmptyString
  | String c tl =>
      if Ascii.eqb c "/"%char then EmptyString else String c (upToSlash tl)
  end.

Definition plainHostAndPort (u : string) : option string :=
  match afterScheme u with
  | Some rest => Some (upToSlash rest)
  | None => None
  end.

(** The responses that carry [success: true]. *)
Definition accepted (r : Response) : Prop :=
  exists m, payload r = P_success m.

(** No two stored chunks share a fingerprint. *)
Definition hashesUnique (db : Db) : Prop :=
  NoDup (map hash (session_chunks db)).

(** Every stored chunk of event objects carries the fingerprint of its
    session id and events. *)
Definition fingerprinted (db : Db) : Prop :=
  forall (row : ChunkRow) (evs : list Event),
    In row (session_chunks db) ->
    c_events row = map Some evs ->
    hash row = generateChunkHash "" (session_id row) (map Some evs).


(** A chunk request as the recorder sends it: a key, a session id, a
    list of event objects and the page URL. *)
Definition chunkRequest (k sid u : string) (evs : list Event) : Request :=
  mkRequest (Some k) (Some (mkBody sid (Some (map Some evs)) u)).

(** Concrete data for running the handler: a store with one key bound
    to [shop.test], two surroundings, and two different chunks of
    session [s1] that agree in length, first and last type and first
    wall-clock timestamp. *)
Definition shopDb : Db := mkDb [mkKey "k-live" "http://shop.test/"] [] [].

Definition envA : Env := mkEnv "2024-01-01T00:00:05.000Z" "q1w2e3" false false.

Definition envB : Env := mkEnv "2024-01-01T00:00:09.000Z" "z9x8c7" false false.

Definition pointerAt (ty : string) (t : Z) (iso : string) (x y : Z) : Event :=
  mkEvent ty t (Some (mkData (Some iso) (Some x) (Some y) None None None)).

Definition collidingA : list Event :=
  [pointerAt "click" 10 "2024-01-01T00:00:01.000Z" 1 1;
   pointerAt "mousemove" 20 "2024-01-01T00:00:01.010Z" 5 5;
   pointerAt "click" 30 "2024-01-01T00:00:01.020Z" 9 9].

Definition collidingB : list Event :=
  [pointerAt "click" 10 "2024-01-01T00:00:01.000Z" 640 480;
   pointerAt "scroll" 700 "2024-01-01T00:00:01.690Z" 0 900;
   pointerAt "click" 950 "2024-01-01T00:00:01.940Z" 12 34].

Section Handler.

(** The platform's URL parser: [hostname] followed by [":" ++ port]
    when a port is present; [None] when [new URL] throws. *)
Variable hostAndPort : string -> option string.

(** [normalizeUrl] *)
Definition normalizeUrl (u : string) : string :=
  match hostAndPort u with
  | Some h => h
  | None => u
  end.

Definition insertSession (db : Db) (r : SessionRow) : Db :=
  mkDb (api_keys db) (sessions db ++ [r]) (session_chunks db).

Definition insertChunk (db : Db) (r : ChunkRow) : Db :=
  mkDb (api_keys db) (sessions db) (session_chunks db ++ [r]).

(** The tail of [POST], from the duplicate check on. *)
Definition storeChunk (env : Env) (sid : string) (evs : list JsonEvent)
           (db : Db) : Response * Db :=
  let chunkHash := generateChunkHash (random env) sid evs in
  match single (chunkRows db chunkHash) with
  | Some _ =>
      (mkResponse 200 (P_success (Some "Duplicate chunk skipped")), db)
  | None =>
      if insertError env
      then (mkResponse 500 (P_error "Failed to save chunk"), db)
      else (mkResponse 200 (P_success None),
            insertChunk db (mkChunk sid evs chunkHash (now env)))
  end.

(** [POST].  The session insert is refused by the primary key when
    the id is already present, or by the store itself. *)
Definition POST (env : Env) (req : Request) (db : Db) : Response * Db :=
  match apiKey req with
  | None => (mkResponse 401 (P_error "API key is required"), db)
  | Some k =>
      if String.eqb k ""
      then (mkResponse 401 (P_error "API key is required"), db)
      else
        match body req with
        | None => (mkResponse 500 (P_error "Internal server error"), db)
        | Some b =>
            match events b with
            | None =>
                (mkResponse 400 (P_error "Invalid session data format"), db)
            | Some evs =>
                if String.eqb (sessionId b) ""
                then (mkResponse 400
                        (P_error "Invalid session data format"), db)
                else if Nat.eqb (List.length evs) 0
                then (mkResponse 200 (P_message "No events to save"), db)
                else
                  match single (keyRows db k) with
                  | None =>
                      (mkResponse 401 (P_error "Invalid API key"), db)
                  | Some apiKeyData =>
                      if negb (String.eqb
                                 (normalizeUrl (allowed_url apiKeyData))
                                 (normalizeUrl (url b)))
                      then (mkResponse 401
                              (P_error "URL not allowed for this API key"),
                            db)
                      else
                        match single (sessionRows db (sessionId b)) with
                        | Some _ => storeChunk env (sessionId b) evs db
                        | None =>
                            if createSessionError env
                               || existsb
                                    (fun r => String.eqb (id r) (sessionId b))
                                    (sessions db)
                            then (mkResponse 500
                                    (P_error "Failed to create session"), db)
                            else
                              storeChunk env (sessionId b) evs
                                (insertSession db
                                   (mkSession (sessionId b) (url b)
                                              (now env)))
                        end
                  end
            end
        end
  end.

(** The stores the endpoint can build: a key table with no sessions
    and no chunks, and whatever a call of [POST] leaves. *)
Inductive reachable : Db -> Prop :=
| reach_fresh : forall keys, reachable (mkDb keys [] [])
| reach_POST : forall env req db,
    reachable db -> reachable (snd (POST env req db)).

End Handler.

End Ingest.

(** ** The instrumentation script *)

Module Recorder.
Import Model.

Local Open Scope string_scope.
Local Open Scope list_scope.
Local Open Scope Z_scope.

(** What one synchronous call of the script reads from the page:
    [Date.now()], [new Date().toISOString()], [window.location.href],
    [document.documentElement.outerHTML] and the canvases found by
    [querySelectorAll("canvas")].  [clock] is the first reading of
    [Date.now()] in the call and [reads] are the later ones, in the
    order in which they are made; [inventoryThrows] says that walking
    the interactive elements of the page throws (which [getXPath] and
    [getOrCreateElementId] do on an element that has no [id] and is
    not inside [body], or whose [className] is not a string). *)
Record Host := mkHost {
  clock : Z;
  isoTime : string;
  href : string;
  outerHTML : string;
  canvases : list CanvasElement;
  reads : list Z;
  inventoryThrows : bool
}.

(** The page as a call finds it at its next reading of the clock; when
    no later reading is listed the clock reads the same again. *)
Definition next (h : Host) : Host :=
  match reads h with
  | [] => h
  | t :: rest =>
      mkHost t (isoTime h) (href h) (outerHTML h) (canvases h) rest
             (inventoryThrows h)
  end.

(** The page at the [k]-th reading of the clock after the first. *)
Definition later (k : nat) (h : Host) : Host := Nat.iter k next h.

(** The fields of a [RecordingScript] instance that the modelled
    methods touch.  [inflight] holds the [chunk] arrays owned by the
    [saveChunk] calls that are suspended at an [await]; [listening],
    [snapshotInterval] and [observing] say whether the document
    listeners, the 10 s snapshot timer and the mutation observer are
    installed. *)
Record State := mkState {
  events : list Event;
  startTime : Z;
  isRecording : bool;
  lastDomSnapshotTime : Z;
  snapshotInterval : bool;
  listening : bool;
  observing : bool;
  inflight : list (list Event)
}.

(** The instance the constructor builds at time [t0]. *)
Definition create (t0 : Z) : State :=
  mkState [] t0 false 0 false false false [].

Definition setEvents (st : State) (evs : list Event) : State :=
  mkState evs (startTime st) (isRecording st) (lastDomSnapshotTime st)
          (snapshotInterval st) (listening st) (observing st) (inflight st).

Definition setRecording (st : State) (b : bool) : State :=
  mkState (events st) (startTime st) b (lastDomSnapshotTime st)
          (snapshotInterval st) (listening st) (observing st) (inflight st).

Definition setLastSnapshot (st : State) (t : Z) : State :=
  mkState (events st) (startTime st) (isRecording st) t
          (snapshotInterval st) (listening st) (observing st) (inflight st).

Definition setInflight (st : State) (cs : list (list Event)) : State :=
  mkState (events st) (startTime st) (isRecording st)
          (lastDomSnapshotTime st) (snapshotInterval st) (listening st)
          (observing st) cs.

(** [saveChunk] up to its first [await]: nothing on an empty buffer;
    otherwise [splice] empties [this.events] and the removed events
    become the call's own [chunk]. *)
Definition saveChunk (st : State) : State :=
  match events st with
  | [] => st
  | _ :: _ => setInflight (setEvents st []) (inflight st ++ [events st])
  end.

(** [recordEvent] *)
Definition recordEvent (ty : string) (d : EventData) (h : Host)
           (st : State) : State :=
  if negb (isRecording st) then st
  else
    let st1 :=
      setEvents st
        (events st ++ [mkEvent ty (clock h - startTime st) (Some d)]) in
    if (10 <? Z.of_nat (List.length (events st1))) then saveChunk st1
    else st1.

(** *** The rest of [saveChunk]: what happens when its requests settle *)

Inductive FetchResult :=
| Rejects                       (* fetch throws *)
| Resolves (status : Z).        (* a response with this status *)

(** [response.ok] *)
Definition ok (status : Z) : bool := (200 <=? status) && (status <=? 299).

(** The answers to the session upsert and to the chunk submission, and
    whether [chunkResponse.json()] parses.  The second and third are
    only consulted when the call gets that far. *)
Record Outcome := mkOutcome {
  sessionResponse : FetchResult;
  chunkResponse : FetchResult;
  jsonParses : bool
}.

(** The [catch] block: [this.events.unshift(...chunk)]. *)
Definition requeue (chunk : list Event) (st : State) : State :=
  setEvents st (chunk ++ events st).

(** The two [401] branches: [this.isRecording = false; return]. *)
Definition disable (st : State) : State := setRecording st false.

(** The effect of a suspended [saveChunk] holding [chunk] on the state
    it finds when it resumes. *)
Definition saveChunk_settle (o : Outcome) (chunk : list Event)
           (st : State) : State :=
  match sessionResponse o with
  | Rejects => requeue chunk st
  | Resolves s =>
      if s =? 401 then disable st
      else if negb (ok s) then requeue chunk st
      else
        match chunkResponse o with
        | Rejects => requeue chunk st
        | Resolves c =>
            if c =? 401 then disable st
            else if negb (ok c) then requeue chunk st
            else if jsonParses o then st
            else requeue chunk st
        end
  end.

(** Removing the [i]-th pending call. *)
Fixpoint dropNth {A : Type} (i : nat) (l : list A) : list A :=
  match l, i with
  | [], _ => []
  | _ :: tl, O => tl
  | x :: tl, S j => x :: dropNth j tl
  end.

(** The [i]-th suspended [saveChunk] resumes with outcome [o]. *)
Definition settle (i : nat) (o : Outcome) (st : State) : State :=
  match nth_error (inflight st) i with
  | None => st
  | Some chunk =>
      saveChunk_settle o chunk (setInflight st (dropNth i (inflight st)))
  end.

(** *** Snapshots *)

Definition snapshotData (h : Host) : EventData :=
  mkData (Some (isoTime h)) None None (Some (outerHTML h))
         (Some (href h)) (Some (canvases h)).

(** [captureFullDomSnapshot]: the event is stamped by the reading of
    the clock inside [recordEvent], [lastDomSnapshotTime] by the
    reading after it. *)
Definition captureFullDomSnapshot (h : Host) (st : State) : State :=
  if negb (isRecording st) then st
  else
    setLastSnapshot (recordEvent "dom_snapshot" (snapshotData h) h st)
                    (clock (next h)).

(** [captureInitialDomState]: the inventory event, the first snapshot,
    each with its own reading of the clock, and [scheduleDomSnapshots]
    (which installs the interval).  This first snapshot leaves
    [lastDomSnapshotTime] as it is.  When walking the interactive
    elements throws, the [catch] is reached before anything is
    recorded or scheduled. *)
Definition captureInitialDomState (h : Host) (st : State) : State :=
  if inventoryThrows h then st
  else
    let st1 :=
      recordEvent "initial_dom_state"
        (mkData (Some (isoTime h)) None None None (Some (href h))
                (Some (canvases h))) h st in
    let st2 := recordEvent "dom_snapshot" (snapshotData h) (next h) st1 in
    mkState (events st2) (startTime st2) (isRecording st2)
            (lastDomSnapshotTime st2) true (listening st2) (observing st2)
            (inflight st2).

Definition sessionData (h : Host) : EventData :=
  mkData (Some (isoTime h)) None None None (Some (href h)) None.

(** [start]: the origin is the first reading of the clock; the
    events that follow are stamped by the readings after it, two of
    which are taken by [captureInitialDomState] unless it throws. *)
Definition start (h : Host) (st : State) : State :=
  if isRecording st then st
  else
    let st1 :=
      mkState (events st) (clock h) true (lastDomSnapshotTime st)
              (snapshotInterval st) true (observing st) (inflight st) in
    let st2 := captureInitialDomState (next h) st1 in
    let h3 := if inventoryThrows h then next h else next (next (next h)) in
    let st3 := recordEvent "session_start" (sessionData h) h3 st2 in
    let st4 := saveChunk st3 in
    mkState (events st4) (startTime st4) (isRecording st4)
            (lastDomSnapshotTime st4) (snapshotInterval st4)
            (listening st4) true (inflight st4).

(** [stop].  Its result, the promise of [saveSession], posts the session
    row only and leaves the instance's fields alone. *)
Definition stop (h : Host) (st : State) : State :=
  if negb (isRecording st) then st
  else
    let st1 :=
      mkState (events st) (startTime st) false (lastDomSnapshotTime st)
              false false (observing st) (inflight st) in
    let st2 :=
      recordEvent "session_end"
        (mkData (Some (isoTime h)) None None None None None) h st1 in
    captureFullDomSnapshot h st2.

(** Every event the instance still holds: those owned by suspended
    flushes, then the live buffer. *)
Definition pending (st : State) : list Event :=
  List.concat (inflight st) ++ events st.

Definition hasType (ty : string) (e : Event) : bool :=
  String.eqb (type e) ty.

(** *** Significance scoring *)

Inductive MutationType := childList | attributes | characterData.

(** A [MutationRecord]; nodes are kept by name. *)
Record MutationRecord := mkMutation {
  m_type : MutationType;
  addedNodes : list string;
  removedNodes : list string;
  attributeName : option string
}.

Definition significantAttrs : list string :=
  ["class"; "style"; "src"; "href"; "display"].

(** [significantAttrs.includes(mutation.attributeName)] *)
Definition includesAttr (a : option string) : bool :=
  match a with
  | Some n => existsb (String.eqb n) significantAttrs
  | None => false
  end.

(** The body of the [forEach]: the score after one more mutation. *)
Definition addScore (score : Q) (m : MutationRecord) : Q :=
  match m_type m with
  | childList =>
      (score + inject_Z (Z.of_nat (List.length (addedNodes m))) * 2
             + inject_Z (Z.of_nat (List.length (removedNodes m))) * 2)%Q
  | attributes =>
      if includesAttr (attributeName m) then (score + 1)%Q else score
  | characterData => (score + (1 # 2))%Q
  end.

Definition significanceScore (ms : list MutationRecord) : Q :=
  fold_left addScore ms 0%Q.

(** Whether [checkForSignificantChanges] reaches its call of
    [captureFullDomSnapshot]. *)
Definition snapshotDue (h : Host) (st : State)
           (ms : list MutationRecord) : bool :=
  if clock h - lastDomSnapshotTime st <? 5000 then false
  else Qle_bool 5 (significanceScore ms).

(** [checkForSignificantChanges]: the gate compares the first reading
    of the clock; the snapshot reads it again. *)
Definition checkForSignificantChanges (h : Host) (st : State)
           (ms : list MutationRecord) : State :=
  if snapshotDue h st ms then captureFullDomSnapshot (next h) st else st.



(** *** Outcomes of a flush, in the words of the transport contract *)

(** The transport throws or answers outside 200..299 with something
    other than 401, on either request, or the chunk answer cannot be
    read. *)
Definition failed (o : Outcome) : Prop :=
  sessionResponse o = Rejects
  \/ (exists s, sessionResponse o = Resolves s /\ ok s = false /\ s <> 401)
  \/ (exists s, sessionResponse o = Resolves s /\ ok s = true
                /\ (chunkResponse o = Rejects
                    \/ (exists c, chunkResponse o = Resolves c
                                  /\ ok c = false /\ c <> 401)
                    \/ (exists c, chunkResponse o = Resolves c
                                  /\ ok c = true /\ jsonParses o = false))).

(** One of the two requests is answered with 401. *)
Definition rejected (o : Outcome) : Prop :=
  sessionResponse o = Resolves 401
  \/ (exists s, sessionResponse o = Resolves s /\ ok s = true
                /\ chunkResponse o = Resolves 401).

(** Both requests are answered inside 200..299 and the chunk answer can
    be read. *)
Definition delivered (o : Outcome) : Prop :=
  exists s c, sessionResponse o = Resolves s /\ ok s = true
              /\ chunkResponse o = Resolves c /\ ok c = true
              /\ jsonParses o = true.

(** *** Concrete data for running the script *)

Definition pageA : Host :=
  mkHost 1000 "2024-01-01T00:00:01.000Z" "http://shop.test/cart"
         "<html><body><p>cart</p></body></html>" [] [] false.

Definition pageB : Host :=
  mkHost 9000 "2024-01-01T00:00:09.000Z" "http://shop.test/cart"
         "<html><body><p>paid</p></body></html>" [] [] false.

(** A recording instance with [n] moves in its buffer. *)
Definition moveAt (t : Z) : Event :=
  mkEvent "mousemove" t (Some (mkData None (Some t) (Some t) None None None)).

Definition buffered (n : nat) : State :=
  mkState (map (fun i => moveAt (Z.of_nat i)) (seq 0 n)) 0 true 0
          true true true [].

Definition added (n : nat) : MutationRecord :=
  mkMutation childList (repeat "DIV" n) [] None.

Definition attrChange (name : string) : MutationRecord :=
  mkMutation attributes [] [] (Some name).

Definition textChange : MutationRecord :=
  mkMutation characterData [] [] None.

End Recorder.

(** ** Double arithmetic *)

Module Float64.

Local Open Scope Z_scope.

(** A JavaScript number that is finite is a rational; an arithmetic
    operation gives the double nearest to the exact result, ties going
    to the even significand.  The doubles here have 53 significant bits
    and an exponent without bounds: overflow to [Infinity] and the
    subnormal numbers, which take magnitudes beyond [1e308] and below
    [1e-307], are not modelled. *)

(** [floor (log2 x)] for a positive [x]. *)
Definition ilog2 (x : Q) : Z :=
  if Qle_bool 1 x then Z.log2 (Qfloor x)
  else - Z.log2_up (Qceiling (/ x)).

(** The nearest integer, ties to the even one. *)
Definition rne (m : Q) : Z :=
  match Qcompare (m - inject_Z (Qfloor m)) (1 # 2) with
  | Lt => Qfloor m
  | Gt => Qfloor m + 1
  | Eq => if Z.even (Qfloor m) then Qfloor m else Qfloor m + 1
  end.

(** The distance between neighbouring doubles at a positive [x]: 53
    significant bits. *)
Definition ulp (x : Q) : Q := (2 ^ (ilog2 x - 52))%Q.

Definition flPos (x : Q) : Q := (inject_Z (rne (x / ulp x)) * ulp x)%Q.

(** The double nearest to [x]. *)
Definition fl (x : Q) : Q :=
  match Qcompare x 0 with
  | Eq => 0%Q
  | Gt => flPos x
  | Lt => (- flPos (- x))%Q
  end.

End Float64.

(** ** The replay page, the replay view and the DOM renderer *)

Module Replay.
Import Model.

Local Open Scope string_scope.
Local Open Scope list_scope.
Local Open Scope Z_scope.

(** *** Seeking ([handleTimelineChange]) *)

(** The React state of the session page that seeking writes. *)
Record PageState := mkPage {
  currentTime : Z;
  isPlaying : bool;
  cursorPosition : Z * Z;
  reconstructedDom : string;
  canvasSnapshots : list CanvasElement;
  currentUrl : option string
}.

(** [getTotalDuration] *)
Definition getTotalDuration (events : list Event) : Z :=
  match events with
  | [] => 0
  | e :: tl => timestamp (last tl e)
  end.

(** [Array.prototype.sort] with the comparator
    [(a, b) => b.timestamp - a.timestamp]: a stable sort into
    descending timestamps.  [insertDesc] puts an element in front of
    the first one whose timestamp is not greater. *)
Fixpoint insertDesc (e : Event) (l : list Event) : list Event :=
  match l with
  | [] => [e]
  | x :: tl =>
      if timestamp x <=? timestamp e then e :: l
      else x :: insertDesc e tl
  end.

Fixpoint sortDesc (l : list Event) : list Event :=
  match l with
  | [] => []
  | e :: tl => insertDesc e (sortDesc tl)
  end.

Definition isPointer (e : Event) : bool :=
  String.eqb (type e) "mousemove" || String.eqb (type e) "click".

Definition isSnapshot (e : Event) : bool :=
  String.eqb (type e) "dom_snapshot".

Definition htmlOf (e : Event) : option string :=
  match data e with
  | Some d => d_html d
  | None => None
  end.

Definition urlOf (e : Event) : option string :=
  match data e with
  | Some d => d_url d
  | None => None
  end.

(** [[...events].reverse().find(..)] of the cursor update. *)
Definition lastEventBeforeTime (events : list Event) (newTime : Z)
  : option Event :=
  find (fun e => isPointer e && (timestamp e <=? newTime)) (rev events).

(** [[...events].filter(..).sort(..)[0]] of the DOM update. *)
Definition lastDomSnapshot (events : list Event) (newTime : Z)
  : option Event :=
  hd_error
    (sortDesc
       (filter (fun e => isSnapshot e && (timestamp e <=? newTime)) events)).

(** [[...events].filter(..).sort(..)[0]] of the URL update. *)
Definition lastUrlChange (events : list Event) (newTime : Z)
  : option Event :=
  hd_error
    (sortDesc
       (filter (fun e => String.eqb (type e) "session_start"
                         && truthy (urlOf e)
                         && (timestamp e <=? newTime)) events)).

Definition updateCursor (events : list Event) (newTime : Z)
           (st : PageState) : PageState :=
  match lastEventBeforeTime events newTime with
  | Some e =>
      match data e with
      | Some d =>
          match d_x d, d_y d with
          | Some x, Some y =>
              mkPage (currentTime st) (isPlaying st) (x, y)
                     (reconstructedDom st) (canvasSnapshots st)
                     (currentUrl st)
          | _, _ => st
          end
      | None => st
      end
  | None => st
  end.

Definition updateDom (events : list Event) (newTime : Z)
           (st : PageState) : PageState :=
  match lastDomSnapshot events newTime with
  | Some e =>
      if truthy (htmlOf e)
      then
        mkPage (currentTime st) (isPlaying st) (cursorPosition st)
               (orEmpty (htmlOf e))
               (match data e with
                | Some d =>
                    match d_canvasElements d with
                    | Some cs => cs
                    | None => canvasSnapshots st
                    end
                | None => canvasSnapshots st
                end)
               (currentUrl st)
      else st
  | None => st
  end.

Definition updateUrl (events : list Event) (newTime : Z)
           (st : PageState) : PageState :=
  match lastUrlChange events newTime with
  | Some e =>
      if truthy (urlOf e)
      then mkPage (currentTime st) (isPlaying st) (cursorPosition st)
                  (reconstructedDom st) (canvasSnapshots st) (urlOf e)
      else st
  | None => st
  end.

(** [handleTimelineChange] *)
Definition handleTimelineChange (events : list Event) (newTime : Z)
           (st : PageState) : PageState :=
  let st1 :=
    mkPage newTime
           (if isPlaying st && (getTotalDuration events <=? newTime)
            then false else isPlaying st)
           (cursorPosition st) (reconstructedDom st) (canvasSnapshots st)
           (currentUrl st) in
  updateUrl events newTime
    (updateDom events newTime (updateCursor events newTime st1)).

(** [events.find(e => e.type === "dom_snapshot" && e.data.html)], the
    snapshot the page shows after loading. *)
Definition initialDomSnapshot (events : list Event) : option Event :=
  find (fun e => isSnapshot e && truthy (htmlOf e)) events.

(** The page state right after [fetchSessionData] stored [events]:
    the first snapshot with markup is on display, and the URL is the one
    of the session row. *)
Definition loaded (sessionUrl : option string) (events : list Event)
  : PageState :=
  match initialDomSnapshot events with
  | Some e =>
      mkPage 0 false (0, 0) (orEmpty (htmlOf e))
             (match data e with
              | Some d =>
                  match d_canvasElements d with
                  | Some cs => cs
                  | None => []
                  end
              | None => []
              end)
             sessionUrl
  | None => mkPage 0 false (0, 0) "" [] sessionUrl
  end.

(** *** The coordinate transform ([ReplayView]) *)

(** [computedScale] and [contentPosition]. *)
Record Layout := mkLayout {
  computedScale : Q;
  contentPosition : Z * Z
}.


(** [updateScaleAndPosition] for a container of [containerWidth] by
    [containerHeight] pixels ([clientWidth], [clientHeight]), the
    recorded viewport and the scale handed down by the page, in double
    arithmetic: every quotient, product and difference is rounded;
    [Math.min], [Math.max] and [Math.floor] are exact.  With a zero
    side of the recorded viewport a quotient is [Infinity] or [NaN],
    and the model gives no layout. *)
Definition updateScaleAndPosition (containerWidth containerHeight : Z)
           (sessionWidth sessionHeight scale : Q) : option Layout :=
  if Qeq_bool sessionWidth 0 || Qeq_bool sessionHeight 0 then None
  else
    let scaleX := Float64.fl (inject_Z containerWidth / sessionWidth)%Q in
    let scaleY := Float64.fl (inject_Z containerHeight / sessionHeight)%Q in
    let bestScale := Qmin (Qmin scaleX scaleY) scale in
    let scaledWidth := Float64.fl (sessionWidth * bestScale)%Q in
    let scaledHeight := Float64.fl (sessionHeight * bestScale)%Q in
    let leftOffset :=
      Z.max 0 (Qfloor (Float64.fl
                         (Float64.fl (inject_Z containerWidth - scaledWidth)
                          / 2)%Q)) in
    let topOffset :=
      Z.max 0 (Qfloor (Float64.fl
                         (Float64.fl (inject_Z containerHeight - scaledHeight)
                          / 2)%Q)) in
    Some (mkLayout bestScale (leftOffset, topOffset)).


(** *** Sanitizing ([sanitizeHtml]) *)

Local Open Scope char_scope.

Definition between (lo hi c : ascii) : bool :=
  (nat_of_ascii lo <=? nat_of_ascii c)%nat
  && (nat_of_ascii c <=? nat_of_ascii hi)%nat.

(** The class [\w]. *)
Definition isWord (c : ascii) : bool :=
  between "a" "z" c || between "A" "Z" c || between "0" "9" c
  || Ascii.eqb c "_".

Definition lower (c : ascii) : ascii :=
  if between "A" "Z" c then ascii_of_nat (nat_of_ascii c + 32) else c.

(** The double-quote character. *)
Definition dquote : ascii := ascii_of_nat 34.

(** A literal under the [i] flag: what is left of [s] after the
    (lower-case) literal [p], if [s] starts with it. *)
Fixpoint literal (p s : list ascii) : option (list ascii) :=
  match p, s with
  | [], _ => Some s
  | _ :: _, [] => None
  | a :: p', c :: s' =>
      if Ascii.eqb a (lower c) then literal p' s' else None
  end.

(** The text behind the first occurrence of the literal [p]. *)
Fixpoint behindFirst (p s : list ascii) : option (list ascii) :=
  match literal p s with
  | Some rest => Some rest
  | None =>
      match s with
      | [] => None
      | _ :: tl => behindFirst p tl
      end
  end.

Definition chars (s : string) : list ascii := list_ascii_of_string s.

(** The first pattern of [sanitizeHtml] tried at the start of [s].
    The pattern is the opening literal [<script] with a word boundary
    behind it, a run of characters other than [<], any number of
    groups made of a [<] that does not start the closing literal
    followed by such a run, and the closing literal [</script>].  The
    groups step from one [<] to the next and cannot step over a closing
    literal, so a match ends behind the first closing literal. *)
Definition matchScript (s : list ascii) : option (list ascii) :=
  match literal (chars "<script") s with
  | None => None
  | Some rest =>
      match rest with
      | c :: _ => if isWord c then None else behindFirst (chars "</script>") rest
      | [] => None
      end
  end.

(** [\w+]: at least one word character, as many as there are. *)
Fixpoint skipWord (s : list ascii) : list ascii :=
  match s with
  | c :: tl => if isWord c then skipWord tl else s
  | [] => []
  end.

(** [[^q]*q]: up to and including the next [q]. *)
Fixpoint behindQuote (q : ascii) (s : list ascii) : option (list ascii) :=
  match s with
  | [] => None
  | c :: tl => if Ascii.eqb c q then Some tl else behindQuote q tl
  end.

(** The second and third pattern tried at the start of [s]: "on", one
    or more word characters, "=", the quote [q], anything but [q], and
    [q] again; [q] is the double quote in the second pattern and the
    single quote in the third. *)
Definition matchHandler (q : ascii) (s : list ascii)
  : option (list ascii) :=
  match literal (chars "on") s with
  | Some (c :: tl) =>
      if isWord c then
        match skipWord tl with
        | e :: q' :: rest =>
            if Ascii.eqb e "=" && Ascii.eqb q' q
            then behindQuote q rest else None
        | _ => None
        end
      else None
  | _ => None
  end.

(** [String.prototype.replace(re, "")] with the [g] flag: matches are
    looked for from left to right and cut out; [skip] counts the
    characters of the current match still to be dropped. *)
Fixpoint cut (m : list ascii -> option (list ascii)) (skip : nat)
         (s : list ascii) : list ascii :=
  match s with
  | [] => []
  | c :: tl =>
      match skip with
      | S k => cut m k tl
      | O =>
          match m s with
          | Some rest =>
              cut m (List.length tl - List.length rest)%nat tl
          | None => c :: cut m 0 tl
          end
      end
  end.

Definition replaceAll (m : list ascii -> option (list ascii))
           (s : list ascii) : list ascii := cut m 0 s.

(** [sanitizeHtml] *)
Definition sanitizeHtml (html : string) : string :=
  if String.eqb html "" then ""%string
  else
    string_of_list_ascii
      (replaceAll (matchHandler "'")
         (replaceAll (matchHandler dquote)
            (replaceAll matchScript (chars html)))).

(** Whether [needle] occurs in [s] (compared without case). *)
Definition mentions (needle s : string) : bool :=
  match behindFirst (chars needle) (chars s) with
  | Some _ => true
  | None => false
  end.

(** *** Concrete markup *)

(** A snapshot with an event handler whose value is not quoted. *)
Definition unquotedHandler : string :=
  "<div><button onclick=alert(1)>Buy now</button><p>Thanks for your order</p></div>".

(** The same handler with its value in single quotes. *)
Definition quotedHandler : string :=
  "<div><button onclick='alert(1)'>Buy now</button><p>Thanks for your order</p></div>".

(** A script element whose end tag has a space before [>]. *)
Definition spacedEndTag : string :=
  "<div><script>alert(1)</script ><p>Thanks for your order</p></div>".

(** *** Concrete sessions *)

Definition plain (ty : string) (t : Z) : Event :=
  mkEvent ty t (Some noData).

Definition snapshotAt (t : Z) (html : string) : Event :=
  mkEvent "dom_snapshot" t
          (Some (mkData None None None (Some html) None None)).

Definition clickAt (t x y : Z) : Event :=
  mkEvent "click" t (Some (mkData None (Some x) (Some y) None None None)).

(** The session of the end-to-end example, for the markups [A], [B]. *)
Definition endToEnd (A B : string) : list Event :=
  [plain "session_start" 0; snapshotAt 0 A; clickAt 1200 50 80;
   snapshotAt 3000 B].

(** A session as the recorder starts it: the inventory event comes
    first and the first snapshot a few milliseconds later. *)
Definition lateSnapshot : list Event :=
  [plain "initial_dom_state" 0; snapshotAt 4 "<html>A</html>";
   plain "session_start" 5; clickAt 1200 50 80;
   snapshotAt 3000 "<html>B</html>"].

(** A session whose latest snapshot carries no markup. *)
Definition bareSnapshot : list Event :=
  [snapshotAt 0 "<html>A</html>"; snapshotAt 1000 "<html>B</html>";
   plain "dom_snapshot" 2000].

Definition shopUrl : option string := Some "http://shop.test/cart"%string.

End Replay.

(** ** The rate limiter *)

Module RateLimit.

Local Open Scope string_scope.
Local Open Scope list_scope.
Local Open Scope Z_scope.

(** An entry of the limiter's table. *)
Record Entry := mkEntry { count : Z; resetTime : Z }.

(** [RateLimitStore]: the entries the object holds as properties of
    its own, by identity. *)
Definition Store := string -> option Entry.

(** The store is a plain object ([{}]), so an index by one of the
    names of [Object.prototype] finds the inherited member, a function
    (for [__proto__] the prototype itself), and not an entry. *)
Definition prototypeNames : list string :=
  ["constructor"; "__defineGetter__"; "__defineSetter__"; "hasOwnProperty";
   "__lookupGetter__"; "__lookupSetter__"; "isPrototypeOf";
   "propertyIsEnumerable"; "toString"; "valueOf"; "__proto__";
   "toLocaleString"].

Definition inherited (key : string) : bool :=
  existsb (String.eqb key) prototypeNames.

Definition emptyStore : Store := fun _ => None.

(** [this.store[key] = e] *)
Definition put (s : Store) (key : string) (e : Entry) : Store :=
  fun k => if String.eqb k key then Some e else s k.

(** [cleanup]: every entry whose window ended before [now] is deleted. *)
Definition cleanup (now : Z) (s : Store) : Store :=
  fun k =>
    match s k with
    | Some e => if resetTime e <? now then None else Some e
    | None => None
    end.

(** The object [rateLimit] returns; [remaining] is [None] for [NaN]
    and [reset] is [None] for [undefined]. *)
Record Result := mkResult {
  success : bool;
  limit : Z;
  remaining : option Z;
  reset : option Z
}.

(** [rateLimit] for the identity [key] (the value of [getIdentity]) at
    the clock reading [now].  Under a name of [Object.prototype] the
    lookup finds the inherited member, which is truthy and whose
    [resetTime] is [undefined], so no entry is made; the increment
    leaves [NaN] in the member's [count], which is greater than no
    limit, and the store holds what it held. *)
Definition rateLimit (key : string) (limit windowMs now : Z) (s : Store)
  : Result * Store :=
  if inherited key then (mkResult true limit None None, s)
  else
    let s1 :=
      match s key with
      | Some e =>
          if resetTime e <? now then put s key (mkEntry 0 (now + windowMs))
          else s
      | None => put s key (mkEntry 0 (now + windowMs))
      end in
    match s1 key with
    | Some e =>
        let e' := mkEntry (count e + 1) (resetTime e) in
        let isRateLimited := limit <? count e' in
        (mkResult (negb isRateLimited) limit
                  (Some (Z.max 0 (limit - count e'))) (Some (resetTime e')),
         put s1 key e')
    | None => (mkResult true limit (Some limit) (Some now), s1)
              (* not reached *)
    end.

(** [Math.ceil(x / 1000)] for an integer [x]. *)
Definition ceilSeconds (x : Z) : Z := (x + 999) / 1000.

(** What [rateLimitedHandler] answers: status 429 with [Retry-After], or
    the handler's own response; both carry the three rate-limit headers
    ([X-RateLimit-Limit], [-Remaining], [-Reset]), the last two printed
    as [NaN] and [undefined] when they are [None]. *)
Inductive Answer (A : Type) :=
| TooMany (errorMessage : string) (retryAfter : option Z)
          (headers : Z * option Z * option Z)
| Handled (response : A) (headers : Z * option Z * option Z).

Arguments TooMany {A} errorMessage retryAfter headers.
Arguments Handled {A} response headers.

(** [withRateLimit]: the handler works on a world [W] (the store behind
    the route) and is only run when the request is let through.  [now]
    is the clock reading inside [rateLimit], [later] the one taken for
    [Retry-After]. *)
Definition withRateLimit {A W : Type} (limit windowMs : Z)
           (errorMessage : string) (handler : W -> A * W)
           (key : string) (now later : Z) (s : Store) (w : W)
  : Answer A * Store * W :=
  let (result, s') := rateLimit key limit windowMs now s in
  let headers := (RateLimit.limit result, remaining result, reset result) in
  if negb (success result)
  then (TooMany errorMessage
                (option_map (fun r => ceilSeconds (r - later)) (reset result))
                headers,
        s', w)
  else
    let (response, w') := handler w in
    (Handled response headers, s', w').

(** A run of calls of one identity on the shared limiter: each call
    comes with the limit of its route and its clock reading. *)
Fixpoint calls (key : string) (windowMs : Z) (reqs : list (Z * Z))
         (s : Store) : list Result * Store :=
  match reqs with
  | [] => ([], s)
  | (lim, t) :: rest =>
      let (r, s1) := rateLimit key lim windowMs t s in
      let (rs, s2) := calls key windowMs rest s1 in
      (r :: rs, s2)
  end.

(** The entry [rateLimit] works on: a fresh one when there is none or
    the old window is over, the stored one otherwise. *)
Definition current (s : Store) (key : string) (windowMs now : Z) : Entry :=
  match s key with
  | Some e => if resetTime e <? now then mkEntry 0 (now + windowMs) else e
  | None => mkEntry 0 (now + windowMs)
  end.

(** Whether [key] has a window that is still open at [now]. *)
Definition openWindow (s : Store) (key : string) (now : Z) : bool :=
  match s key with
  | Some e => negb (resetTime e <? now)
  | None => false
  end.

End RateLimit.

(** ** Reading chunks back *)

Module ChunkReads.
Import Model Ingest.

Local Open Scope string_scope.
Local Open Scope list_scope.

(** [.order("created_at", { ascending: true })]: rows by ascending
    time of creation.  The times are the strings [toISOString] writes,
    which order as the instants do; rows of equal time keep their order. *)
Fixpoint insertByCreated (r : ChunkRow) (l : list ChunkRow) : list ChunkRow :=
  match l with
  | [] => [r]
  | x :: tl =>
      if String.leb (created_at r) (created_at x) then r :: l
      else x :: insertByCreated r tl
  end.

Fixpoint orderByCreated (l : list ChunkRow) : list ChunkRow :=
  match l with
  | [] => []
  | r :: tl => insertByCreated r (orderByCreated tl)
  end.

Inductive GetResponse :=
| G_error (status : Z) (e : string)
| G_rows (rows : list ChunkRow).

(** [GET] of the chunks route: [sessionId] is the query parameter
    ([None] when absent), [selectError] says that the store reports an
    error for the query. *)
Definition GET (selectError : bool) (sessionId : option string) (db : Db)
  : GetResponse :=
  match sessionId with
  | None => G_error 400 "Session ID is required"
  | Some sid =>
      if String.eqb sid "" then G_error 400 "Session ID is required"
      else if selectError then G_error 500 "Failed to fetch chunks"
      else
        G_rows
          (orderByCreated
             (filter (fun r => String.eqb (session_id r) sid)
                     (session_chunks db)))
  end.

(** The rows a successful [GET] lists. *)
Definition listed (sid : string) (db : Db) : list ChunkRow :=
  match GET false (Some sid) db with
  | G_rows rows => rows
  | G_error _ _ => []
  end.

(** Rows in ascending order of creation. *)
Definition ascending (rows : list ChunkRow) : Prop :=
  StronglySorted
    (fun a b => String.leb (created_at a) (created_at b) = true) rows.

(** Every chunk belongs to a stored session, and no two sessions share
    an id. *)
Definition wellKeyed (db : Db) : Prop :=
  NoDup (map id (sessions db))
  /\ forall c, In c (session_chunks db) ->
               exists s, In s (sessions db) /\ id s = session_id c.

End ChunkReads.

(** ** The sessions route *)

Module SessionsRoute.
Import Model.

Local Open Scope string_scope.
Local Open Scope list_scope.

(** A row of [sessions]; a column that is null is [None]. *)
Record SessionRow := mkRow {
  id : string;
  url : option string;
  viewport_size : option string;
  user_agent : option string;
  screen_resolution : option string;
  referrer : option string;
  start_time : option string;
  end_time : option string;
  created_at : string
}.

(** The store behind the route.  By the schema a chunk refers to its
    session with [on delete cascade]. *)
Record Store := mkStore {
  api_keys : list Ingest.ApiKeyRow;
  sessions : list SessionRow;
  session_chunks : list Ingest.ChunkRow
}.

(** The destructured body of a session upsert: [b_id] and [b_url] are
    [""] when missing, the other fields [None] when undefined. *)
Record Body := mkBody {
  b_id : string;
  b_url : string;
  b_viewport_size : option string;
  b_user_agent : option string;
  b_screen_resolution : option string;
  b_referrer : option string;
  b_start_time : option string;
  b_end_time : option string
}.

(** The request headers the handlers read, [""] when absent. *)
Record Headers := mkHeaders {
  referer : string;
  origin : string;
  host : string
}.

Inductive Payload :=
| R_error (e : string)
| R_row (r : SessionRow)
| R_rows (rs : list SessionRow)
| R_success.

Record Response := mkResponse { status : Z; payload : Payload }.

(** The clock and the store's error channel for one call. *)
Record Env := mkEnv {
  now : string;
  storeError : bool
}.

(** [String.prototype.includes] *)
Fixpoint includes (s sub : string) : bool :=
  String.prefix sub s
  || match s with
     | EmptyString => false
     | String _ tl => includes tl sub
     end.

(** [getAllowedDomains] *)
Definition getAllowedDomains (host : string) : list string :=
  [host; "localhost:3000"; "localhost:4000"].

(** [isRequestFromAllowedDomain] *)
Definition isRequestFromAllowedDomain (h : Headers) : bool :=
  let allowedDomains := getAllowedDomains (host h) in
  (negb (String.eqb (referer h) "")
   && existsb (fun domain => includes (referer h) domain) allowedDomains)
  || (negb (String.eqb (origin h) "")
      && existsb (fun domain => includes (origin h) domain) allowedDomains).

Definition idRows (db : Store) (i : string) : list SessionRow :=
  filter (fun r => String.eqb (id r) i) (sessions db).

Definition keyRows (db : Store) (k : string) : list Ingest.ApiKeyRow :=
  filter (fun r => String.eqb (Ingest.key r) k) (api_keys db).

(** Rows by descending time of creation (see [orderByCreated]). *)
Fixpoint insertNewest (r : SessionRow) (l : list SessionRow)
  : list SessionRow :=
  match l with
  | [] => [r]
  | x :: tl =>
      if String.leb (created_at x) (created_at r) then r :: l
      else x :: insertNewest r tl
  end.

Fixpoint newestFirst (l : list SessionRow) : list SessionRow :=
  match l with
  | [] => []
  | r :: tl => insertNewest r (newestFirst tl)
  end.

(** The update of an existing row: [end_time] from the request (an
    undefined field is not sent), [url] and [viewport_size] only when
    the stored value is unset. *)
Definition refresh (b : Body) (existing r : SessionRow) : SessionRow :=
  mkRow (id r)
        (if truthy (url existing) then url r else Some (b_url b))
        (if truthy (viewport_size existing) then viewport_size r
         else match b_viewport_size b with
              | Some v => Some v
              | None => viewport_size r
              end)
        (user_agent r) (screen_resolution r) (referrer r) (start_time r)
        (match b_end_time b with
         | Some t => Some t
         | None => end_time r
         end)
        (created_at r).

Definition created (b : Body) (t : string) : SessionRow :=
  mkRow (b_id b) (Some (b_url b)) (b_viewport_size b) (b_user_agent b)
        (b_screen_resolution b) (b_referrer b) (b_start_time b)
        (b_end_time b) t.

Section Handlers.

(** [new URL(u).hostname]; [None] when the constructor throws. *)
Variable hostname : string -> option string.

(** [createSessionHandler] *)
Definition createSessionHandler (env : Env) (apiKey : option string)
           (body : option Body) (db : Store) : Response * Store :=
  match apiKey with
  | None => (mkResponse 401 (R_error "API key is required"), db)
  | Some k =>
      if String.eqb k ""
      then (mkResponse 401 (R_error "API key is required"), db)
      else
        match body with
        | None => (mkResponse 500 (R_error "Failed to create session"), db)
        | Some b =>
            if String.eqb (b_id b) "" || String.eqb (b_url b) ""
            then (mkResponse 400
                    (R_error "Session ID and URL are required"), db)
            else
              match Ingest.single (keyRows db k) with
              | None => (mkResponse 401 (R_error "Invalid API key"), db)
              | Some apiKeyData =>
                  match hostname (Ingest.allowed_url apiKeyData),
                        hostname (b_url b) with
                  | Some allowedUrl, Some requestUrl =>
                      if negb (String.eqb allowedUrl requestUrl)
                      then (mkResponse 401
                              (R_error "URL not allowed for this API key"),
                            db)
                      else
                        match Ingest.single (idRows db (b_id b)) with
                        | Some existingSession =>
                            if storeError env
                            then (mkResponse 500
                                    (R_error "Failed to create session"), db)
                            else
                              (mkResponse 200
                                 (R_row (refresh b existingSession
                                                 existingSession)),
                               mkStore (api_keys db)
                                 (map (fun r =>
                                         if String.eqb (id r) (b_id b)
                                         then refresh b existingSession r
                                         else r) (sessions db))
                                 (session_chunks db))
                        | None =>
                            if storeError env
                               || existsb
                                    (fun r => String.eqb (id r) (b_id b))
                                    (sessions db)
                            then (mkResponse 500
                                    (R_error "Failed to create session"), db)
                            else
                              (mkResponse 200 (R_row (created b (now env))),
                               mkStore (api_keys db)
                                 (sessions db ++ [created b (now env)])
                                 (session_chunks db))
                        end
                  | _, _ =>
                      (mkResponse 500 (R_error "Failed to create session"),
                       db)
                  end
              end
        end
  end.

End Handlers.

(** [getSessionsHandler]; [idParam] is the [id] query parameter. *)
Definition getSessionsHandler (env : Env) (h : Headers)
           (idParam : option string) (db : Store) : Response :=
  if negb (isRequestFromAllowedDomain h)
  then mkResponse 403 (R_error "Unauthorized: Access denied")
  else
    match idParam with
    | Some i =>
        if String.eqb i ""
        then
          if storeError env
          then mkResponse 500 (R_error "Failed to fetch sessions")
          else mkResponse 200 (R_rows (newestFirst (sessions db)))
        else
          match Ingest.single (idRows db i) with
          | Some r =>
              if storeError env
              then mkResponse 500 (R_error "Failed to fetch sessions")
              else mkResponse 200 (R_row r)
          | None => mkResponse 500 (R_error "Failed to fetch sessions")
          end
    | None =>
        if storeError env
        then mkResponse 500 (R_error "Failed to fetch sessions")
        else mkResponse 200 (R_rows (newestFirst (sessions db)))
    end.

(** [deleteSessionHandler]; the chunks of the session go with it. *)
Definition deleteSessionHandler (env : Env) (h : Headers)
           (idParam : option string) (db : Store) : Response * Store :=
  if negb (isRequestFromAllowedDomain h)
  then (mkResponse 403
          (R_error "Unauthorized: Only the HotClone app can delete sessions"),
        db)
  else
    match idParam with
    | None => (mkResponse 400 (R_error "Session ID is required"), db)
    | Some i =>
        if String.eqb i ""
        then (mkResponse 400 (R_error "Session ID is required"), db)
        else if storeError env
        then (mkResponse 500 (R_error "Failed to delete session"), db)
        else
          (mkResponse 200 R_success,
           mkStore (api_keys db)
             (filter (fun r => negb (String.eqb (id r) i)) (sessions db))
             (filter (fun c => negb (String.eqb (Ingest.session_id c) i))
                     (session_chunks db)))
    end.

(** Rows by descending time of creation. *)
Definition descending (rows : list SessionRow) : Prop :=
  StronglySorted
    (fun a b => String.leb (created_at b) (created_at a) = true) rows.

(** Concrete data: a store with one key and one session, the headers of
    a request sent by the application itself, and an upsert for the
    stored session. *)
Definition cartRow : SessionRow :=
  mkRow "s1" (Some "http://shop.test/cart") (Some "1280x720")
        (Some "Mozilla/5.0") (Some "1920x1080") None
        (Some "2024-01-01T00:00:01.000Z") (Some "2024-01-01T00:00:05.000Z")
        "2024-01-01T00:00:05.100Z".

Definition cartStore : Store :=
  mkStore [Ingest.mkKey "k-live" "http://shop.test/"] [cartRow]
          [Ingest.mkChunk "s1" [] "s1-0" "2024-01-01T00:00:05.200Z"].

Definition appHeaders : Headers :=
  mkHeaders "https://replay.example/sessions/s1" "" "replay.example".

Definition laterUpsert : Body :=
  mkBody "s1" "http://shop.test/checkout" (Some "800x600")
         (Some "curl/8") None None (Some "2024-01-01T00:00:30.000Z")
         (Some "2024-01-01T00:00:40.000Z").

Definition calm : Env := mkEnv "2024-01-01T00:00:40.100Z" false.

(** The exported [DELETE]: the handler behind the limiter, 20 calls a
    minute for an identity. *)
Definition DELETE (env : Env) (h : Headers) (idParam : option string)
           (identity : string) (clock later : Z) (s : RateLimit.Store)
           (db : Store)
  : RateLimit.Answer Response * RateLimit.Store * Store :=
  RateLimit.withRateLimit 20 60000
    "Rate limit exceeded for session deletion. Please try again later."
    (deleteSessionHandler env h idParam) identity clock later s db.

End SessionsRoute.

(** ** The mutation observer *)

Module Observer.
Import Model Recorder.

Local Open Scope string_scope.
Local Open Scope list_scope.
Local Open Scope Z_scope.

(** What the walk of [processMutationQueue] over the drained mutations
    comes to: it throws (it calls [getXPath] and [getOrCreateElementId]
    on the targets), or it ends with nothing to record, or it ends with
    changes to record ([hasSignificantChanges]).  An attribute change,
    a removed element and a text change inside an element are always
    changes to record; an added element is one only if it or one of
    its descendants is a canvas, a form control, a button, draggable or
    editable and has not been captured before. *)
Inductive Pass := Throws | Quiet | Changed.

(** A recording instance with the fields of the mutation queue;
    [queueTimers] holds the delays of the timers set to call
    [processMutationQueue] again. *)
Record Watcher := mkWatcher {
  core : State;
  pendingMutations : list MutationRecord;
  processingMutations : bool;
  queueTimers : list Z
}.

Definition watching (st : State) : Watcher := mkWatcher st [] false [].

(** The page after a call of [recordEvent] on [st]: the clock is read
    only when the instance is recording. *)
Definition afterRecord (st : State) (h : Host) : Host :=
  if isRecording st then next h else h.

(** [captureChangedCanvases], and the page after it. *)
Definition captureChangedCanvases (h : Host) (st : State) : State * Host :=
  match canvases h with
  | [] => (st, h)
  | _ :: _ =>
      (recordEvent "canvas_update"
         (mkData (Some (isoTime h)) None None None None (Some (canvases h)))
         h st,
       afterRecord st h)
  end.

(** [processMutationQueue]: the instance after it, whether it throws,
    and the page after it.  The throttle reads the clock first; the
    mutation event, the canvas event and the renewal of
    [lastDomSnapshotTime] read it again, in this order. *)
Definition processMutationQueue (h : Host) (pass : Pass) (w : Watcher)
  : Watcher * bool * Host :=
  match pendingMutations w with
  | [] => (mkWatcher (core w) [] false (queueTimers w), false, h)
  | _ :: _ =>
      if clock h - lastDomSnapshotTime (core w) <? 500
      then
        (mkWatcher (core w) (pendingMutations w) true
           (queueTimers w
            ++ [500 - (clock h - lastDomSnapshotTime (core w))]),
         false, next h)
      else
        match pass with
        | Throws => (mkWatcher (core w) [] true (queueTimers w), true, next h)
        | Quiet => (mkWatcher (core w) [] false (queueTimers w), false, next h)
        | Changed =>
            let st1 :=
              recordEvent "dom_mutation"
                (mkData (Some (isoTime h)) None None None None None)
                (next h) (core w) in
            let h1 := afterRecord (core w) (next h) in
            let (st2, h2) := captureChangedCanvases h1 st1 in
            (mkWatcher (setLastSnapshot st2 (clock h2)) [] false
                       (queueTimers w),
             false, next h2)
        end
  end.

(** The callback of the [MutationObserver] for the batch [ms]: the
    batch joins the queue, the queue is processed unless that is under
    way, and the batch is scored.  An exception from the queue ends the
    callback before the scoring. *)
Definition onMutations (h : Host) (pass : Pass) (ms : list MutationRecord)
           (w : Watcher) : Watcher :=
  let w1 :=
    mkWatcher (core w) (pendingMutations w ++ ms) (processingMutations w)
              (queueTimers w) in
  let '(w2, threw, h2) :=
    if processingMutations w1 then (w1, false, h)
    else processMutationQueue h pass w1 in
  if threw then w2
  else
    mkWatcher (checkForSignificantChanges h2 (core w2) ms)
              (pendingMutations w2) (processingMutations w2)
              (queueTimers w2).


(** *** Concrete pages *)

(** A page whose clock advances by one millisecond per reading. *)
Definition ticking (t : Z) (readings : nat) : Host :=
  mkHost t "2024-01-01T00:00:10.000Z" "http://shop.test/cart"
         "<html><body><p>cart</p></body></html>" []
         (map (fun k => t + Z.of_nat k) (seq 1 readings)) false.

(** A page whose clock reads the same throughout a call. *)
Definition still (t : Z) : Host := ticking t 0.


(** A recording started at 10000 and watched by the observer. *)
Definition opened : Watcher := watching (start (ticking 10000 3) (create 9000)).

End Observer.

(** ** The script's input handlers *)

Module Agent.
Import Model Recorder.

Local Open Scope string_scope.
Local Open Scope list_scope.
Local Open Scope Z_scope.

(** A [RecordingScript] instance with the fields of the input handlers:
    the throttle stamp shared by [handleMouseMove] and [handleDrag], the
    drag flag, and the URL last seen. *)
Record Agent := mkAgent {
  core : State;
  lastMouseMoveTime : Z;
  isDragging : bool;
  currentUrl : string
}.

(** The instance the constructor builds at time [t0] on the page [url]. *)
Definition newAgent (t0 : Z) (url : string) : Agent :=
  mkAgent (create t0) 0 false url.

(** The coordinates of a pointer event.  Of the data an input handler
    attaches to its event, the model's [EventData] keeps the coordinates
    and the wall-clock string; the description of the target and the
    page coordinates have no field there. *)
Record Pointer := mkPointer { clientX : Z; clientY : Z }.

(** Whether [getXPath] returns for the target of an event.  It throws
    for a target that has no [id] and is not inside [body], and the
    handler that called it then ends before it records anything. *)
Definition Located := bool.












(** [handleUrlChange], and the body of the 500 ms poll of
    [setupUrlChangeDetection], which is the same. *)
Definition handleUrlChange (h : Host) (a : Agent) : Agent :=
  if String.eqb (currentUrl a) (href h) then a
  else
    mkAgent (saveChunk (recordEvent "session_start" (sessionData h) h (core a)))
            (lastMouseMoveTime a) (isDragging a) (href h).

(** What the page sends to the script.  The two handlers that also set
    a timer ([handleMouseUp], [handleDragEnd]) are not among them. *)
Inductive Input :=
| MouseMove (p : Pointer)
| Drag (p : Pointer) (located : Located)
| Click (p : Pointer) (located : Located)
| MouseDown (p : Pointer) (located : Located)
| DragStart (p : Pointer) (located : Located)
| Scroll (x y : Z)
| InputChange (located : Located)
| VisibilityChange
| UrlChange.








(** *** Flushes and their outcomes, as a run *)

Inductive Step :=
| Rec (ty : string) (d : EventData) (h : Host)     (* recordEvent *)
| Flush                                            (* saveChunk *)
| Settle (i : nat) (o : Outcome).                  (* a flush resumes *)

Definition step (s : Step) (st : State) : State :=
  match s with
  | Rec ty d h => recordEvent ty d h st
  | Flush => saveChunk st
  | Settle i o => settle i o st
  end.

Fixpoint run (steps : list Step) (st : State) : State :=
  match steps with
  | [] => st
  | s :: rest => run rest (step s st)
  end.

(** The events the [Rec] steps of a run record on an instance that was
    started at [t0] and keeps recording. *)
Fixpoint recorded (t0 : Z) (steps : list Step) : list Event :=
  match steps with
  | [] => []
  | Rec ty d h :: rest => mkEvent ty (clock h - t0) (Some d) :: recorded t0 rest
  | _ :: rest => recorded t0 rest
  end.

(** Every flush of the run that resumes has failed. *)
Fixpoint allFailed (steps : list Step) : Prop :=
  match steps with
  | [] => True
  | Settle _ o :: rest => failed o /\ allFailed rest
  | _ :: rest => allFailed rest
  end.

(** *** [hashString] *)

(** [ToInt32]: the value in the signed 32-bit range that agrees with
    [x] modulo [2^32]. *)
Definition toInt32 (x : Z) : Z := (x + 2 ^ 31) mod 2 ^ 32 - 2 ^ 31.

(** One round of the loop:
    [hash = (hash << 5) - hash + code; hash |= 0]. *)
Definition hashRound (hash code : Z) : Z :=
  toInt32 (toInt32 (Z.shiftl (toInt32 hash) 5) - hash + code).

(** The loop of [hashString]; a string is the list of its UTF-16 code
    units, as [charCodeAt] reads them. *)
Definition hashCode (codes : list Z) : Z := fold_left hashRound codes 0.

(** The digit of [Number.prototype.toString(36)]. *)
Definition digit36 (d : Z) : ascii :=
  if d <? 10 then ascii_of_nat (Z.to_nat (48 + d))
  else ascii_of_nat (Z.to_nat (87 + d)).

(** The digits of a positive number, most significant first; [fuel]
    bounds the number of digits. *)
Fixpoint digits36 (fuel : nat) (n : Z) (acc : string) : string :=
  match fuel with
  | O => acc
  | S f =>
      if n <? 36 then String (digit36 n) acc
      else digits36 f (n / 36) (String (digit36 (n mod 36)) acc)
  end.

(** [n.toString(36)] for an integer [n >= 0]. *)
Definition toString36 (n : Z) : string :=
  digits36 (S (Z.to_nat (Z.log2 n))) n EmptyString.

(** [hashString] *)
Definition hashString (str : list Z) : string :=
  toString36 (Z.abs (hashCode str)).

(** The polynomial hash with multiplier 31, over the integers. *)
Definition poly31 (codes : list Z) : Z :=
  fold_left (fun acc c => 31 * acc + c) codes 0.

(** *** Concrete data *)

(** An instance that has been started on [pageA] while the address bar
    still showed the landing page. *)
Definition landed : Agent :=
  mkAgent (start pageA (create 900)) 0 false "http://shop.test/".

(** The code units of [Aa] and of [BB]. *)
Definition unitsAa : list Z := [65; 97].
Definition unitsBB : list Z := [66; 66].

End Agent.

(** ** Loading and playing a session (the session page) *)

Module Playback.
Import Model Replay.

Local Open Scope string_scope.
Local Open Scope list_scope.
Local Open Scope Z_scope.

(** *** What [fetchSessionData] makes of the chunk rows *)

Section Loading.

(** [new Date(s).getTime()] for a wall-clock string: [None] is [NaN],
    the answer for a string that does not parse as a date. *)
Variable getTime : string -> option Z.

(** [new Date(e.data?.timestamp || 0).getTime()] *)
Definition timeOf (e : Event) : option Z :=
  match data e with
  | Some d =>
      if truthy (d_timestamp d) then getTime (orEmpty (d_timestamp d))
      else Some 0
  | None => Some 0
  end.

(** [filter(event => event && event.data)] on one array element. *)
Definition kept (j : Ingest.JsonEvent) : list Event :=
  match j with
  | Some e => match data e with Some _ => [e] | None => [] end
  | None => []
  end.

(** [chunksData.flatMap(chunk => chunk.events || []).filter(..)] *)
Definition extracted (chunks : list Ingest.ChunkRow) : list Event :=
  flat_map (fun c => flat_map kept (Ingest.c_events c)) chunks.

(** Whether the comparator of the sort gets a number for every pair. *)
Definition parsed (l : list Event) : bool :=
  forallb (fun e => match timeOf e with Some _ => true | None => false end)
          l.

(** The time of an event of a list that is [parsed]. *)
Definition wallClock (e : Event) : Z :=
  match timeOf e with Some t => t | None => 0 end.

(** [sort((a, b) => timeA - timeB)] on times that are numbers: a stable
    sort into ascending wall clock times.  [insertAsc] puts an element
    in front of the first one whose time is not smaller. *)
Fixpoint insertAsc (e : Event) (l : list Event) : list Event :=
  match l with
  | [] => [e]
  | x :: tl =>
      if wallClock e <=? wallClock x then e :: l
      else x :: insertAsc e tl
  end.

Fixpoint sortAsc (l : list Event) : list Event :=
  match l with
  | [] => []
  | e :: tl => insertAsc e (sortAsc tl)
  end.

(** [allEvents].  When the time of a kept event is [NaN] the comparator
    answers [NaN] for it, the order of the result is left to the
    implementation of [sort], and the timestamps computed from it are
    [NaN]: the model gives no list then. *)
Definition allEvents (chunks : list Ingest.ChunkRow)
  : option (list Event) :=
  if parsed (extracted chunks) then Some (sortAsc (extracted chunks))
  else None.

(** The [events] state after [fetchSessionData]: [normalizedEvents]
    when there are events, and the initial empty array otherwise. *)
Definition normalizedEvents (chunks : list Ingest.ChunkRow)
  : option (list Event) :=
  match allEvents chunks with
  | None => None
  | Some [] => Some []
  | Some (firstEvent :: rest) =>
      Some (map (fun e => mkEvent (type e)
                                  (wallClock e - wallClock firstEvent)
                                  (data e))
                (firstEvent :: rest))
  end.

End Loading.

(** An event without its time: what [{...event, timestamp}] copies. *)
Definition payload (e : Event) : string * option EventData :=
  (type e, data e).

(** Timestamps in ascending order. *)
Definition ascending (events : list Event) : Prop :=
  StronglySorted (fun a b => timestamp a <= timestamp b) events.

(** *** Playing *)

(** The speeds the controls offer: 0.5x, 1x, 2x and 4x. *)
Inductive Speed := Half | Normal | Double | Fourfold.

(** [50 * playbackSpeed], the milliseconds one tick advances. *)
Definition advance (s : Speed) : Z :=
  match s with
  | Half => 25
  | Normal => 50
  | Double => 100
  | Fourfold => 200
  end.

(** The page state that playing writes: the state seeking writes,
    [clickEffect], and the number of timers set to hide the click
    effect that have not fired yet. *)
Record Player := mkPlayer {
  page : PageState;
  clickEffect : Z * Z * bool;
  hideTimers : nat
}.

(** The page as it is mounted, showing [st]. *)
Definition mounted (st : PageState) : Player := mkPlayer st (0, 0, false) 0.

Definition setTime (p : Player) (t : Z) : Player :=
  mkPlayer (mkPage t (isPlaying (page p)) (cursorPosition (page p))
                   (reconstructedDom (page p)) (canvasSnapshots (page p))
                   (currentUrl (page p)))
           (clickEffect p) (hideTimers p).

Definition setPlaying (p : Player) (b : bool) : Player :=
  mkPlayer (mkPage (currentTime (page p)) b (cursorPosition (page p))
                   (reconstructedDom (page p)) (canvasSnapshots (page p))
                   (currentUrl (page p)))
           (clickEffect p) (hideTimers p).

Definition setCursor (p : Player) (c : Z * Z) : Player :=
  mkPlayer (mkPage (currentTime (page p)) (isPlaying (page p)) c
                   (reconstructedDom (page p)) (canvasSnapshots (page p))
                   (currentUrl (page p)))
           (clickEffect p) (hideTimers p).

Definition setClick (p : Player) (c : Z * Z * bool) : Player :=
  mkPlayer (page p) c (hideTimers p).

(** [setTimeout(() => setClickEffect(prev => ({...prev, show: false})), 500)] *)
Definition setHideTimer (p : Player) : Player :=
  mkPlayer (page p) (clickEffect p) (S (hideTimers p)).

Definition setDom (p : Player) (html : string)
           (canvas : option (list CanvasElement)) : Player :=
  mkPlayer (mkPage (currentTime (page p)) (isPlaying (page p))
                   (cursorPosition (page p)) html
                   (match canvas with
                    | Some cs => cs
                    | None => canvasSnapshots (page p)
                    end)
                   (currentUrl (page p)))
           (clickEffect p) (hideTimers p).

Definition setUrl (p : Player) (u : option string) : Player :=
  mkPlayer (mkPage (currentTime (page p)) (isPlaying (page p))
                   (cursorPosition (page p)) (reconstructedDom (page p))
                   (canvasSnapshots (page p)) u)
           (clickEffect p) (hideTimers p).

(** The body of [currentEvents.forEach]: the four [if]s in their order.
    (The events of the page all carry [data].) *)
Definition applyEvent (p : Player) (e : Event) : Player :=
  match data e with
  | None => p
  | Some d =>
      let p1 :=
        if String.eqb (type e) "mousemove" then
          match d_x d, d_y d with
          | Some x, Some y => setCursor p (x, y)
          | _, _ => p
          end
        else p in
      let p2 :=
        if String.eqb (type e) "click" then
          match d_x d, d_y d with
          | Some x, Some y =>
              setHideTimer (setClick (setCursor p1 (x, y)) (x, y, true))
          | _, _ => p1
          end
        else p1 in
      let p3 :=
        if String.eqb (type e) "dom_snapshot" && truthy (d_html d)
        then setDom p2 (orEmpty (d_html d)) (d_canvasElements d)
        else p2 in
      if String.eqb (type e) "session_start" && truthy (d_url d)
      then setUrl p3 (d_url d)
      else p3
  end.

(** A timer set by a click fires: the click effect is switched off
    where it is.  Without a pending timer nothing happens. *)
Definition hide (p : Player) : Player :=
  match hideTimers p with
  | O => p
  | S n =>
      mkPlayer (page p) (fst (fst (clickEffect p)), snd (fst (clickEffect p)),
                         false) n
  end.

(** [events.filter(e => e.timestamp <= newTime && e.timestamp > prevTime)] *)
Definition currentEvents (events : list Event) (prevTime newTime : Z)
  : list Event :=
  filter (fun e => (timestamp e <=? newTime) && (prevTime <? timestamp e))
         events.

(** [checkPlaybackEnd]: the time to show, and whether it switches
    playing off. *)
Definition checkPlaybackEnd (events : list Event) (nextTime : Z)
  : Z * bool :=
  if getTotalDuration events <=? nextTime
  then (getTotalDuration events, true)
  else (nextTime, false).

(** One run of the interval callback.  The interval exists only while
    [isPlaying] holds. *)
Definition tick (events : list Event) (speed : Speed) (p : Player)
  : Player :=
  if negb (isPlaying (page p)) then p
  else
    let prevTime := currentTime (page p) in
    let nextTime := prevTime + advance speed in
    let newTime := fst (checkPlaybackEnd events nextTime) in
    let p1 :=
      if snd (checkPlaybackEnd events nextTime) then setPlaying p false
      else p in
    setTime (fold_left applyEvent (currentEvents events prevTime newTime) p1)
            newTime.

Fixpoint ticks (events : list Event) (speed : Speed) (n : nat)
         (p : Player) : Player :=
  match n with
  | O => p
  | S m => ticks events speed m (tick events speed p)
  end.

(** What the browser runs on the page while it plays: the interval
    callback, or a timer that hides the click effect.  The timers fire
    half a second after they were set, between whichever ticks that
    falls. *)
Inductive Step := Tick | Hide.

Definition step (events : list Event) (speed : Speed) (p : Player)
           (st : Step) : Player :=
  match st with
  | Tick => tick events speed p
  | Hide => hide p
  end.

Definition run (events : list Event) (speed : Speed) (sch : list Step)
           (p : Player) : Player :=
  fold_left (step events speed) sch p.

Definition isTick (st : Step) : bool :=
  match st with Tick => true | Hide => false end.

Definition ticksIn (sch : list Step) : nat :=
  List.length (filter isTick sch).

(** What is drawn apart from the click effect's visibility: the page
    state and the place of the click effect. *)
Definition screen (p : Player) : PageState * (Z * Z) :=
  (page p, fst (clickEffect p)).

(** While the click effect is shown a timer that hides it is pending. *)
Definition timed (p : Player) : Prop :=
  snd (clickEffect p) = true -> (0 < hideTimers p)%nat.

(** [handleResetPlayback] *)
Definition handleResetPlayback (events : list Event) (p : Player)
  : Player :=
  mkPlayer
    (mkPage 0 false (cursorPosition (page p))
            (match find isSnapshot events with
             | Some e =>
                 if truthy (htmlOf e) then orEmpty (htmlOf e)
                 else reconstructedDom (page p)
             | None => reconstructedDom (page p)
             end)
            (canvasSnapshots (page p)) (currentUrl (page p)))
    (clickEffect p) (hideTimers p).

(** [handleRestartPlayback] *)
Definition handleRestartPlayback (events : list Event) (p : Player)
  : Player :=
  setPlaying (handleResetPlayback events p) true.

(** [handlePlayPause] *)
Definition handlePlayPause (events : list Event) (p : Player) : Player :=
  if getTotalDuration events <=? currentTime (page p)
  then handleRestartPlayback events p
  else setPlaying p (negb (isPlaying (page p))).

(** What a run of events overwrites, field by field: [None] where the
    run leaves the field alone. *)
Record Overwrite := mkOverwrite {
  o_cursor : option (Z * Z);
  o_click : option (Z * Z * bool);
  o_dom : option string;
  o_canvas : option (list CanvasElement);
  o_url : option (option string);
  o_timers : nat
}.

Definition later {A : Type} (a b : option A) : option A :=
  match b with Some _ => b | None => a end.

Definition andThen (u v : Overwrite) : Overwrite :=
  mkOverwrite (later (o_cursor u) (o_cursor v))
              (later (o_click u) (o_click v))
              (later (o_dom u) (o_dom v))
              (later (o_canvas u) (o_canvas v))
              (later (o_url u) (o_url v))
              (o_timers v + o_timers u).

Definition nothing : Overwrite := mkOverwrite None None None None None 0.

Definition orKeep {A : Type} (o : option A) (a : A) : A :=
  match o with Some b => b | None => a end.

Definition overwrite (u : Overwrite) (p : Player) : Player :=
  mkPlayer
    (mkPage (currentTime (page p)) (isPlaying (page p))
            (orKeep (o_cursor u) (cursorPosition (page p)))
            (orKeep (o_dom u) (reconstructedDom (page p)))
            (orKeep (o_canvas u) (canvasSnapshots (page p)))
            (orKeep (o_url u) (currentUrl (page p))))
    (orKeep (o_click u) (clickEffect p))
    (o_timers u + hideTimers p).

(** What one event overwrites. *)
Definition written (e : Event) : Overwrite :=
  match data e with
  | None => nothing
  | Some d =>
      mkOverwrite
        (if String.eqb (type e) "mousemove" || String.eqb (type e) "click"
         then match d_x d, d_y d with
              | Some x, Some y => Some (x, y)
              | _, _ => None
              end
         else None)
        (if String.eqb (type e) "click"
         then match d_x d, d_y d with
              | Some x, Some y => Some (x, y, true)
              | _, _ => None
              end
         else None)
        (if String.eqb (type e) "dom_snapshot" && truthy (d_html d)
         then Some (orEmpty (d_html d)) else None)
        (if String.eqb (type e) "dom_snapshot" && truthy (d_html d)
         then d_canvasElements d else None)
        (if String.eqb (type e) "session_start" && truthy (d_url d)
         then Some (d_url d) else None)
        (if String.eqb (type e) "click"
         then match d_x d, d_y d with
              | Some x, Some y => 1%nat
              | _, _ => 0%nat
              end
         else 0%nat)
  end.

Definition writtenBy (l : list Event) : Overwrite :=
  fold_left (fun u e => andThen u (written e)) l nothing.

(** *** Concrete data *)

(** Wall-clock strings of the form [T..], read as their length; other
    strings do not parse. *)
Definition lengthTime (s : string) : option Z :=
  match s with
  | String "T" _ => Some (Z.of_nat (String.length s))
  | _ => None
  end.

Definition stamped (ty stamp : string) : Ingest.JsonEvent :=
  Some (mkEvent ty 0 (Some (mkData (Some stamp) None None None None None))).

(** Two chunk rows whose events arrive out of order, with a [null] and
    an event without [data] among them. *)
Definition mixedChunks : list Ingest.ChunkRow :=
  [Ingest.mkChunk "s1" [stamped "click" "TTTT"; None;
                        stamped "session_start" "TT"] "h1" "c1";
   Ingest.mkChunk "s1" [Some (mkEvent "scroll" 7 None);
                        stamped "mousemove" "TTT"] "h2" "c2"].

End Playback.

(** ** The scale the session page hands to the replay view *)

Module PageScale.
Import Replay.

Local Open Scope Z_scope.

(** [handleResize] for a window of [innerWidth] by [innerHeight] pixels:
    the new value of [scale], which stays as it is while the recorded
    viewport has a zero side.  The arithmetic is double arithmetic:
    [0.66] is the double nearest to 66/100, the product and the
    quotients are rounded, the difference of the two integers is
    exact. *)
Definition handleResize (innerWidth innerHeight : Z)
           (viewportWidth viewportHeight scale : Q) : Q :=
  let containerWidth :=
    Float64.fl (inject_Z innerWidth * Float64.fl (66 # 100))%Q in
  let containerHeight := inject_Z (innerHeight - 200) in
  if negb (Qeq_bool viewportWidth 0) && negb (Qeq_bool viewportHeight 0)
  then
    Qmin (Qmin (Float64.fl (containerWidth / viewportWidth))
               (Float64.fl (containerHeight / viewportHeight))) 1
  else scale.

End PageScale.

(** ** What sanitizing leaves of a markup *)

Module Sanitized.
Import Replay.

Local Open Scope list_scope.

(** [l1] is [l2] with some of its characters left out. *)
Inductive subsequence : list ascii -> list ascii -> Prop :=
| sub_nil : subsequence [] []
| sub_skip : forall (c : ascii) (l1 l2 : list ascii),
    subsequence l1 l2 -> subsequence l1 (c :: l2)
| sub_take : forall (c : ascii) (l1 l2 : list ascii),
    subsequence l1 l2 -> subsequence (c :: l1) (c :: l2).

(** A markup with neither a script element nor the letters of a handler
    attribute. *)
Definition plainMarkup : string := "<p>Hi there</p>".

End Sanitized.

(** ** The in-page recorder ([SessionRecorder]) *)

Module LocalRecorder.
Import Model.

Local Open Scope string_scope.
Local Open Scope list_scope.
Local Open Scope Z_scope.

(** The fields of a [SessionRecorder]; [listening] says whether the
    document listeners are installed. *)
Record SessionRecorder := mkRecorder {
  events : list Event;
  startTime : Z;
  isRecording : bool;
  listening : bool
}.

(** The constructor, run at time [now]. *)
Definition create (now : Z) : SessionRecorder :=
  mkRecorder [] now false false.

(** [startRecording] *)
Definition startRecording (now : Z) (r : SessionRecorder)
  : SessionRecorder :=
  if isRecording r then r
  else mkRecorder (events r) now true true.

(** [recordEvent] *)
Definition recordEvent (ty : string) (d : EventData) (now : Z)
           (r : SessionRecorder) : SessionRecorder :=
  if negb (isRecording r) then r
  else
    mkRecorder (events r ++ [mkEvent ty (now - startTime r) (Some d)])
               (startTime r) (isRecording r) (listening r).

(** What [getSessionData] returns. *)
Record SessionData := mkSessionData {
  duration : Z;
  sd_events : list Event;
  sd_startTime : Z;
  endTime : Z
}.

(** [getSessionData]; the clock is read twice, first for [duration]
    and then for [endTime]. *)
Definition getSessionData (now1 now2 : Z) (r : SessionRecorder)
  : SessionData :=
  mkSessionData (now1 - startTime r) (events r) (startTime r) now2.

(** [stopRecording]: the instance afterwards and the data returned. *)
Definition stopRecording (now1 now2 : Z) (r : SessionRecorder)
  : SessionRecorder * SessionData :=
  let r' := mkRecorder (events r) (startTime r) false false in
  (r', getSessionData now1 now2 r').

(** What is done to an instance. *)
Inductive Op :=
| Start (now : Z)
| Stop (now1 now2 : Z)
| Record_ (ty : string) (d : EventData) (now : Z).

Definition perform (o : Op) (r : SessionRecorder) : SessionRecorder :=
  match o with
  | Start now => startRecording now r
  | Stop now1 now2 => fst (stopRecording now1 now2 r)
  | Record_ ty d now => recordEvent ty d now r
  end.

Fixpoint performAll (ops : list Op) (r : SessionRecorder)
  : SessionRecorder :=
  match ops with
  | [] => r
  | o :: rest => performAll rest (perform o r)
  end.

(** The inputs of one recording: a type, the data and the clock. *)
Definition Input := (string * EventData * Z)%type.

Definition recordAll (inputs : list Input) (r : SessionRecorder)
  : SessionRecorder :=
  fold_left (fun r i => recordEvent (fst (fst i)) (snd (fst i)) (snd i) r)
            inputs r.

(** The clocks of the inputs do not run backwards and start at [t] or
    later. *)
Fixpoint clocksFrom (t : Z) (inputs : list Input) : Prop :=
  match inputs with
  | [] => True
  | i :: rest => t <= snd i /\ clocksFrom (snd i) rest
  end.

(** The clock of the last input, or [t] when there is none. *)
Definition lastClock (t : Z) (inputs : list Input) : Z :=
  last (map snd inputs) t.

End LocalRecorder.

(** * Properties *)

(** ** The chunk endpoint *)

Module IngestFacts.
Import Model Ingest.

Local Open Scope string_scope.
Local Open Scope list_scope.

(** *** Fingerprints *)

Lemma last_cons_default :
  forall (A : Type) (l : list A) (x d : A), last (x :: l) d = last l x.
Proof.
  induction l as [|y l IH]; intros x d; [reflexivity|].
  change (last (x :: y :: l) d) with (last (y :: l) d).
  rewrite (IH y d), (IH y x). reflexivity.
Qed.

Lemma last_of_objects :
  forall (l : list Event) (e : Event) (d : JsonEvent),
    last (map Some (e :: l)) d = Some (last l e).
Proof.
  induction l as [|x l IH]; intros e d; [reflexivity|].
  change (last (map Some (e :: x :: l)) d)
    with (last (map Some (x :: l)) d).
  rewrite IH, last_cons_default. reflexivity.
Qed.

(** On event objects the fingerprint is the template string: the
    random fallback is not reached. *)
Lemma hash_of_objects :
  forall (rand sid : string) (e : Event) (l : list Event),
    generateChunkHash rand sid (map Some (e :: l)) =
    (sid ++ "-" ++ showNat (S (List.length l)) ++ "-" ++ type e ++ "-"
         ++ type (last l e) ++ "-"
         ++ match data e with
            | Some d => orEmpty (d_timestamp d)
            | None => ""
            end)%string.
Proof.
  intros rand sid e l. unfold generateChunkHash.
  rewrite last_of_objects. cbn [map]. rewrite length_cons, length_map.
  reflexivity.
Qed.

Lemma hash_deterministic :
  forall (r1 r2 sid : string) (evs : list Event),
    generateChunkHash r1 sid (map Some evs) =
    generateChunkHash r2 sid (map Some evs).
Proof.
  intros r1 r2 sid [|e l]; [reflexivity|].
  rewrite !hash_of_objects. reflexivity.
Qed.

(** *** Lookups in a store with unique fingerprints *)

Lemma filter_hash_absent :
  forall (h : string) (rows : list ChunkRow),
    filter (fun r => String.eqb (hash r) h) rows = [] ->
    ~ In h (map hash rows).
Proof.
  induction rows as [|r rows IH]; simpl; intros Hf; [tauto|].
  destruct (String.eqb_spec (hash r) h) as [Heq|Hne]; [discriminate|].
  intros [Hin|Hin]; [contradiction|]. exact (IH Hf Hin).
Qed.

Lemma filter_hash_absent_inv :
  forall (h : string) (rows : list ChunkRow),
    ~ In h (map hash rows) ->
    filter (fun r => String.eqb (hash r) h) rows = [].
Proof.
  induction rows as [|r rows IH]; simpl; intros Hn; [reflexivity|].
  destruct (String.eqb_spec (hash r) h) as [Heq|Hne].
  - exfalso. apply Hn. left. exact Heq.
  - apply IH. intros Hin. apply Hn. right. exact Hin.
Qed.

Lemma unique_rows_short :
  forall (h : string) (rows : list ChunkRow),
    NoDup (map hash rows) ->
    (List.length (filter (fun r => String.eqb (hash r) h) rows) <= 1)%nat.
Proof.
  induction rows as [|r rows IH]; simpl; intros Hnd; [lia|].
  inversion Hnd as [|x xs Hnotin Hnd']; subst.
  destruct (String.eqb_spec (hash r) h) as [Heq|Hne].
  - subst h. rewrite (filter_hash_absent_inv _ _ Hnotin). simpl. lia.
  - apply IH. exact Hnd'.
Qed.

Lemma single_none_unique :
  forall (db : Db) (h : string),
    hashesUnique db ->
    single (chunkRows db h) = None ->
    chunkRows db h = [].
Proof.
  intros db h Hu Hs. pose proof (unique_rows_short h _ Hu) as Hlen.
  unfold chunkRows in *.
  destruct (filter _ (session_chunks db)) as [|r [|r' rest]];
    [reflexivity | discriminate | simpl in Hlen; lia].
Qed.

Lemma chunkRows_insert :
  forall (db : Db) (row : ChunkRow),
    chunkRows (insertChunk db row) (hash row) =
    chunkRows db (hash row) ++ [row].
Proof.
  intros db row. unfold chunkRows, insertChunk. simpl.
  rewrite filter_app. simpl. rewrite String.eqb_refl. reflexivity.
Qed.

Lemma chunkRows_insertSession :
  forall (db : Db) (row : SessionRow) (h : string),
    chunkRows (insertSession db row) h = chunkRows db h.
Proof. reflexivity. Qed.

(** *** The duplicate check *)

(** After an accepted [storeChunk] the fingerprint is stored once. *)
Lemma storeChunk_accepted :
  forall (env : Env) (sid : string) (evs : list JsonEvent)
         (db db1 : Db) (r : Response),
    hashesUnique db ->
    storeChunk env sid evs db = (r, db1) ->
    accepted r ->
    exists row,
      chunkRows db1 (generateChunkHash (random env) sid evs) = [row]
      /\ api_keys db1 = api_keys db /\ sessions db1 = sessions db
      /\ (db1 = db \/
          db1 = insertChunk db
                  (mkChunk sid evs
                     (generateChunkHash (random env) sid evs) (now env))).
Proof.
  intros env sid evs db db1 r Hu Hs [m Hm]. unfold storeChunk in Hs.
  destruct (single (chunkRows db (generateChunkHash (random env) sid evs)))
    as [row|] eqn:Hsingle.
  - inversion Hs; subst. unfold single in Hsingle.
    destruct (chunkRows db1 _) as [|r0 [|r1 rest]]; try discriminate.
    exists r0. auto.
  - destruct (insertError env).
    + inversion Hs; subst. discriminate.
    + inversion Hs; subst.
      exists (mkChunk sid evs (generateChunkHash (random env) sid evs)
                      (now env)).
      pose proof (chunkRows_insert db
                    (mkChunk sid evs
                       (generateChunkHash (random env) sid evs) (now env)))
        as Hins.
      simpl in Hins. rewrite Hins.
      rewrite (single_none_unique _ _ Hu Hsingle). auto.
Qed.

(** A chunk whose fingerprint is stored once is answered as a
    duplicate, and the store is left as it is. *)
Lemma storeChunk_duplicate :
  forall (env : Env) (sid : string) (evs : list JsonEvent) (db : Db)
         (row : ChunkRow),
    chunkRows db (generateChunkHash (random env) sid evs) = [row] ->
    storeChunk env sid evs db =
    (mkResponse 200 (P_success (Some "Duplicate chunk skipped")), db).
Proof.
  intros env sid evs db row Hrows. unfold storeChunk.
  rewrite Hrows. reflexivity.
Qed.

Lemma storeChunk_keeps_unique :
  forall (env : Env) (sid : string) (evs : list JsonEvent) (db : Db),
    hashesUnique db ->
    hashesUnique (snd (storeChunk env sid evs db)).
Proof.
  intros env sid evs db Hu. unfold storeChunk.
  destruct (single (chunkRows db (generateChunkHash (random env) sid evs)))
    eqn:Hsingle; [exact Hu|].
  destruct (insertError env); [exact Hu|].
  unfold hashesUnique, insertChunk. simpl.
  rewrite map_app. simpl.
  apply NoDup_app.
  - exact Hu.
  - constructor; [intros []|constructor].
  - intros h Hin [Heq|[]]. subst h.
    revert Hin. apply filter_hash_absent.
    exact (single_none_unique _ _ Hu Hsingle).
Qed.

Section Handler.

Variable hostAndPort : string -> option string.

(** The conditions under which [POST] gets to the duplicate check
    without touching the store. *)
Record ready (db : Db) (k sid u : string) : Prop := mkReady {
  ready_key : String.eqb k "" = false;
  ready_sid : String.eqb sid "" = false;
  ready_row : exists kd,
      single (keyRows db k) = Some kd
      /\ String.eqb (normalizeUrl hostAndPort (allowed_url kd))
                    (normalizeUrl hostAndPort u) = true;
  ready_session : exists s, single (sessionRows db sid) = Some s
}.

Lemma POST_ready :
  forall (env : Env) (k sid u : string) (e : Event) (l : list Event)
         (db : Db),
    ready db k sid u ->
    POST hostAndPort env (chunkRequest k sid u (e :: l)) db =
    storeChunk env sid (map Some (e :: l)) db.
Proof.
  intros env k sid u e l db [Hk Hsid [kd [Hrow Hurl]] [s Hs]].
  unfold POST, chunkRequest. cbn [apiKey body events sessionId url].
  rewrite Hk, Hsid. cbn [map List.length Nat.eqb].
  rewrite Hrow, Hurl. cbn [negb]. rewrite Hs. reflexivity.
Qed.

Lemma ready_same_tables :
  forall (db db' : Db) (k sid u : string),
    api_keys db' = api_keys db ->
    sessions db' = sessions db ->
    ready db k sid u -> ready db' k sid u.
Proof.
  intros db db' k sid u Hk Hs [H1 H2 H3 H4].
  constructor; auto; unfold keyRows, sessionRows in *.
  - rewrite Hk. exact H3.
  - rewrite Hs. exact H4.
Qed.

Lemma sessionRows_fresh :
  forall (db : Db) (row : SessionRow),
    existsb (fun r => String.eqb (id r) (id row)) (sessions db) = false ->
    sessionRows (insertSession db row) (id row) = [row].
Proof.
  intros db row Hex. unfold sessionRows, insertSession. simpl.
  rewrite filter_app. simpl. rewrite String.eqb_refl.
  assert (Hnil : filter (fun r => String.eqb (id r) (id row))
                        (sessions db) = []).
  { induction (sessions db) as [|r rows IH]; [reflexivity|].
    simpl in *. apply orb_false_iff in Hex. destruct Hex as [Hr Hrest].
    rewrite Hr. exact (IH Hrest). }
  rewrite Hnil. reflexivity.
Qed.

(** An accepted chunk request went through [storeChunk] on a store
    that is ready for it: the given one, or the given one with the
    session row added. *)
Lemma POST_accepted_inv :
  forall (env : Env) (k sid u : string) (evs : list Event)
         (db db1 : Db) (r : Response),
    POST hostAndPort env (chunkRequest k sid u evs) db = (r, db1) ->
    accepted r ->
    exists (e : Event) (l : list Event) (dbs : Db),
      evs = e :: l
      /\ ready dbs k sid u
      /\ session_chunks dbs = session_chunks db
      /\ storeChunk env sid (map Some evs) dbs = (r, db1).
Proof.
  intros env k sid u evs db db1 r HP [m Hm].
  unfold POST, chunkRequest in HP.
  cbn [apiKey body events sessionId url] in HP.
  destruct (String.eqb k "") eqn:Hk;
    [inversion HP; subst; discriminate|].
  destruct (String.eqb sid "") eqn:Hsid;
    [inversion HP; subst; discriminate|].
  destruct evs as [|e l];
    [cbn in HP; inversion HP; subst; discriminate|].
  cbn [map List.length Nat.eqb] in HP.
  destruct (single (keyRows db k)) as [kd|] eqn:Hrow;
    [|inversion HP; subst; discriminate].
  destruct (String.eqb (normalizeUrl hostAndPort (allowed_url kd))
                       (normalizeUrl hostAndPort u)) eqn:Hurl;
    cbn [negb] in HP; [|inversion HP; subst; discriminate].
  destruct (single (sessionRows db sid)) as [s|] eqn:Hs.
  - exists e, l, db. repeat split; eauto.
  - destruct (createSessionError env); cbn [orb] in HP;
      [inversion HP; subst; discriminate|].
    destruct (existsb (fun r0 => String.eqb (id r0) sid) (sessions db))
      eqn:Hex; [inversion HP; subst; discriminate|].
    exists e, l, (insertSession db (mkSession sid u (now env))).
    repeat split; eauto.
    exists (mkSession sid u (now env)).
    pose proof (sessionRows_fresh db (mkSession sid u (now env)) Hex)
      as Hfresh.
    simpl in Hfresh. rewrite Hfresh. reflexivity.
Qed.

(** Two chunks of event objects with one fingerprint: once the first
    is accepted, the second is answered as a duplicate and changes
    nothing, and the fingerprint is stored exactly once. *)
Lemma second_chunk_skipped :
  forall (env1 env2 : Env) (k sid u : string) (evs1 evs2 : list Event)
         (db db1 : Db) (r1 : Response),
    hashesUnique db ->
    evs2 <> [] ->
    generateChunkHash (random env1) sid (map Some evs1) =
    generateChunkHash (random env2) sid (map Some evs2) ->
    POST hostAndPort env1 (chunkRequest k sid u evs1) db = (r1, db1) ->
    accepted r1 ->
    POST hostAndPort env2 (chunkRequest k sid u evs2) db1 =
    (mkResponse 200 (P_success (Some "Duplicate chunk skipped")), db1)
    /\ List.length
         (chunkRows db1
            (generateChunkHash (random env2) sid (map Some evs2))) = 1%nat
    /\ (forall row, In row (session_chunks db1) ->
                    In row (session_chunks db)
                    \/ c_events row = map Some evs1).
Proof.
  intros env1 env2 k sid u evs1 evs2 db db1 r1 Hu Hne Hhash HP Hacc.
  destruct (POST_accepted_inv _ _ _ _ _ _ _ _ HP Hacc)
    as (e & l & dbs & Hevs & Hready & Hchunks & Hstore).
  assert (Hus : hashesUnique dbs)
    by (unfold hashesUnique; rewrite Hchunks; exact Hu).
  destruct (storeChunk_accepted _ _ _ _ _ _ Hus Hstore Hacc)
    as (row & Hrows & Hkeys & Hsess & Hdb1).
  assert (Hready1 : ready db1 k sid u)
    by (apply (ready_same_tables _ _ _ _ _ Hkeys Hsess Hready)).
  rewrite Hhash in Hrows.
  destruct evs2 as [|e2 l2]; [contradiction|].
  split; [|split].
  - rewrite (POST_ready env2 _ _ _ e2 l2 _ Hready1).
    exact (storeChunk_duplicate _ _ _ _ _ Hrows).
  - rewrite Hrows. reflexivity.
  - intros row' Hin. destruct Hdb1 as [Hsame|Hins].
    + left. rewrite Hsame, Hchunks in Hin. exact Hin.
    + rewrite Hins in Hin. unfold insertChunk in Hin. simpl in Hin.
      apply in_app_or in Hin. destruct Hin as [Hin|[Heq|[]]].
      * left. rewrite <- Hchunks. exact Hin.
      * right. subst row'. reflexivity.
Qed.

(** Every call of [POST] keeps fingerprints unique. *)
Lemma POST_keeps_unique :
  forall (env : Env) (req : Request) (db : Db),
    hashesUnique db ->
    hashesUnique (snd (POST hostAndPort env req db)).
Proof.
  intros env req db Hu. unfold POST.
  repeat match goal with
         | |- hashesUnique (snd (_, db)) => exact Hu
         | |- hashesUnique (snd (storeChunk _ _ _ _)) =>
             apply storeChunk_keeps_unique; exact Hu
         | |- hashesUnique (snd (match ?x with _ => _ end)) => destruct x
         | |- hashesUnique (snd (if ?x then _ else _)) => destruct x
         end.
Qed.

(** However two calls of [POST] end, a fingerprint is stored at most
    once afterwards. *)
Lemma at_most_one_chunk_per_fingerprint :
  forall (env1 env2 : Env) (req1 req2 : Request) (db : Db) (h : string),
    hashesUnique db ->
    (List.length
       (chunkRows
          (snd (POST hostAndPort env2 req2
                     (snd (POST hostAndPort env1 req1 db)))) h) <= 1)%nat.
Proof.
  intros env1 env2 req1 req2 db h Hu.
  apply unique_rows_short. apply POST_keeps_unique, POST_keeps_unique.
  exact Hu.
Qed.

(** Fingerprints are unique in every store the endpoint can build. *)
Lemma reachable_unique :
  forall db : Db, reachable hostAndPort db -> hashesUnique db.
Proof.
  intros db Hr. induction Hr as [keys|env req db Hr IH].
  - constructor.
  - apply POST_keeps_unique. exact IH.
Qed.

(** A request with a known key for the page's host, a session id and
    at least one event is accepted when the store raises no error. *)
Lemma first_submission_accepted :
  forall (env : Env) (k sid u : string) (e : Event) (l : list Event)
         (db : Db) (kd : ApiKeyRow),
    String.eqb k "" = false ->
    String.eqb sid "" = false ->
    single (keyRows db k) = Some kd ->
    normalizeUrl hostAndPort (allowed_url kd) =
    normalizeUrl hostAndPort u ->
    createSessionError env = false ->
    insertError env = false ->
    NoDup (map id (sessions db)) ->
    accepted (fst (POST hostAndPort env (chunkRequest k sid u (e :: l)) db)).
Proof.
  intros env k sid u e l db kd Hk Hsid Hrow Hurl Hcs Hie Hnd.
  unfold POST, chunkRequest. cbn [apiKey body events sessionId url].
  rewrite Hk, Hsid. cbn [map List.length Nat.eqb].
  rewrite Hrow, Hurl, String.eqb_refl. cbn [negb].
  assert (Hstore : forall dbs,
             accepted (fst (storeChunk env sid (Some e :: map Some l) dbs))).
  { intros dbs. unfold storeChunk.
    destruct (single (chunkRows dbs _)); [eexists; reflexivity|].
    rewrite Hie. eexists; reflexivity. }
  destruct (single (sessionRows db sid)) eqn:Hs; [apply Hstore|].
  rewrite Hcs. cbn [orb].
  destruct (existsb (fun r => String.eqb (id r) sid) (sessions db))
    eqn:Hex; [|apply Hstore].
  exfalso. unfold sessionRows in Hs. clear - Hs Hex Hnd.
  induction (sessions db) as [|r rows IH]; [discriminate|].
  simpl in *. inversion Hnd as [|x xs Hnotin Hnd']; subst.
  destruct (String.eqb_spec (id r) sid) as [Heq|Hne].
  - assert (Hnil : filter (fun r0 => String.eqb (id r0) sid) rows = []).
    { clear - Hnotin Heq. subst sid.
      induction rows as [|r' rows IH]; [reflexivity|].
      simpl in *. destruct (String.eqb_spec (id r') (id r)) as [He|Hn].
      - exfalso. apply Hnotin. left. exact He.
      - apply IH. intros Hin. apply Hnotin. right. exact Hin. }
    rewrite Hnil in Hs. discriminate.
  - simpl in Hex. exact (IH Hnd' Hs Hex).
Qed.

(** Every call of [POST] keeps the stored chunks fingerprinted. *)
Lemma POST_keeps_fingerprinted :
  forall (env : Env) (req : Request) (db : Db),
    fingerprinted db ->
    fingerprinted (snd (POST hostAndPort env req db)).
Proof.
  intros env req db Hf.
  assert (Hstore : forall sid evs dbs,
             session_chunks dbs = session_chunks db ->
             fingerprinted (snd (storeChunk env sid evs dbs))).
  { intros sid evs dbs Hc. unfold storeChunk.
    assert (Hfs : fingerprinted dbs)
      by (unfold fingerprinted; rewrite Hc; exact Hf).
    destruct (single (chunkRows dbs _)); [exact Hfs|].
    destruct (insertError env); [exact Hfs|].
    cbn [snd]. intros row evs' Hin Hev.
    unfold insertChunk in Hin. cbn [session_chunks] in Hin.
    apply in_app_or in Hin. destruct Hin as [Hin|[<-|[]]].
    - exact (Hfs row evs' Hin Hev).
    - cbn [c_events] in Hev. cbn [hash session_id]. rewrite Hev.
      apply hash_deterministic. }
  unfold POST.
  repeat match goal with
         | |- fingerprinted (snd (_, db)) => exact Hf
         | |- fingerprinted (snd (storeChunk _ _ _ _)) =>
             apply Hstore; reflexivity
         | |- fingerprinted (snd (match ?x with _ => _ end)) => destruct x
         | |- fingerprinted (snd (if ?x then _ else _)) => destruct x
         end.
Qed.

Lemma reachable_fingerprinted :
  forall db : Db, reachable hostAndPort db -> fingerprinted db.
Proof.
  intros db Hr. induction Hr as [keys|env req db Hr IH].
  - intros row evs [].
  - apply POST_keeps_fingerprinted. exact IH.
Qed.



(** C4. The fingerprint is not injective on chunk contents: two
    different event lists of one session (another payload in the
    first event, other events in the middle, another relative time)
    have the same fingerprint, and once the first is stored the
    second is answered with [success: true] as a duplicate while
    none of it is stored. *)
Theorem fingerprint_collision_drops_chunk :
  exists (sid : string) (evs1 evs2 : list Event),
    evs1 <> evs2
    /\ (forall r1 r2 : string,
           generateChunkHash r1 sid (map Some evs1) =
           generateChunkHash r2 sid (map Some evs2))
    /\ forall (env1 env2 : Env) (k u : string) (db db1 : Db)
              (r1 : Response),
        hashesUnique db ->
        ~ In (map Some evs2) (map c_events (session_chunks db)) ->
        POST hostAndPort env1 (chunkRequest k sid u evs1) db = (r1, db1) ->
        accepted r1 ->
        POST hostAndPort env2 (chunkRequest k sid u evs2) db1 =
        (mkResponse 200 (P_success (Some "Duplicate chunk skipped")), db1)
        /\ ~ In (map Some evs2) (map c_events (session_chunks db1)).
Proof.
  exists "s1", collidingA, collidingB.
  split; [discriminate|]. split; [reflexivity|].
  intros env1 env2 k u db db1 r1 Hu Hnot HP Hacc.
  assert (Hne : collidingB <> []) by discriminate.
  assert (Hhash : generateChunkHash (random env1) "s1"
                    (map Some collidingA) =
                  generateChunkHash (random env2) "s1"
                    (map Some collidingB)) by reflexivity.
  destruct (second_chunk_skipped env1 env2 k "s1" u collidingA collidingB
              _ _ _ Hu Hne Hhash HP Hacc) as (Hdup & _ & Hrows).
  split; [exact Hdup|].
  intros Hin. apply in_map_iff in Hin.
  destruct Hin as (row & Hev & Hin).
  destruct (Hrows row Hin) as [Hold|Hnew].
  - apply Hnot. apply in_map_iff. exists row. split; assumption.
  - rewrite Hnew in Hev. discriminate.
Qed.

(** C10. A chunk whose [events] array is empty is answered with
    status 200 and [No events to save] and nothing is stored, for
    any session id and any non-empty [x-api-key] header, whatever
    the key table and the URL are: the answer is given before the
    key and the host are looked at.  A chunk with events under a key
    that the table does not hold is refused with status 401. *)
Theorem empty_chunk_skips_credential_check :
  forall (env : Env) (k sid u : string) (db : Db),
    k <> "" ->
    sid <> "" ->
    POST hostAndPort env
         (mkRequest (Some k) (Some (mkBody sid (Some []) u))) db =
    (mkResponse 200 (P_message "No events to save"), db)
    /\ forall (e : Event) (l : list Event),
        keyRows db k = [] ->
        POST hostAndPort env (chunkRequest k sid u (e :: l)) db =
        (mkResponse 401 (P_error "Invalid API key"), db).
Proof.
  intros env k sid u db Hk Hsid.
  apply String.eqb_neq in Hk. apply String.eqb_neq in Hsid.
  split.
  - unfold POST. cbn [apiKey body events sessionId url].
    rewrite Hk, Hsid. reflexivity.
  - intros e l Hrows. unfold POST, chunkRequest.
    cbn [apiKey body events sessionId url].
    rewrite Hk, Hsid. cbn [map List.length Nat.eqb].
    rewrite Hrows. reflexivity.
Qed.

End Handler.

(** *** Runs of the handler on a concrete store *)



Lemma empty_chunk_skips_credential_check_witness :
  "bogus" <> "" /\ "s1" <> ""
  /\ POST plainHostAndPort envA
         (mkRequest (Some "bogus")
            (Some (mkBody "s1" (Some []) "http://evil.test/"))) shopDb =
     (mkResponse 200 (P_message "No events to save"), shopDb).
Proof.
  assert (Hk : "bogus" <> "") by discriminate.
  assert (Hs : "s1" <> "") by discriminate.
  split; [exact Hk|]. split; [exact Hs|].
  exact (proj1 (empty_chunk_skips_credential_check plainHostAndPort envA
                  "bogus" "s1" "http://evil.test/" shopDb Hk Hs)).
Defined.

(** The two colliding chunks submitted one after the other: both are
    answered with [success: true], and the store ends with the first
    chunk only. *)
Example collision_run :
  let req evs := chunkRequest "k-live" "s1" "http://shop.test/cart" evs in
  let (r1, db1) := POST plainHostAndPort envA (req collidingA) shopDb in
  let (r2, db2) := POST plainHostAndPort envB (req collidingB) db1 in
  payload r1 = P_success None
  /\ payload r2 = P_success (Some "Duplicate chunk skipped")
  /\ map c_events (session_chunks db2) = [map Some collidingA].
Proof. vm_compute. auto. Qed.

(** The same payload with a [null] element is stored twice: its
    fingerprint is the random fallback, drawn anew by each call. *)
Example null_element_run :
  let req := mkRequest (Some "k-live")
               (Some (mkBody "s1" (Some [None]) "http://shop.test/cart")) in
  let (r1, db1) := POST plainHostAndPort envA req shopDb in
  let (r2, db2) := POST plainHostAndPort envB req db1 in
  List.length (session_chunks db2) = 2%nat.
Proof. vm_compute. reflexivity. Qed.

End IngestFacts.

(** ** The instrumentation script *)

Module RecorderFacts.
Import Model Recorder.

Local Open Scope string_scope.
Local Open Scope list_scope.
Local Open Scope Z_scope.

(** *** Recording and flushing *)

Lemma recordEvent_stopped :
  forall (ty : string) (d : EventData) (h : Host) (st : State),
    isRecording st = false -> recordEvent ty d h st = st.
Proof. intros ty d h st Hr. unfold recordEvent. rewrite Hr. reflexivity. Qed.

Lemma capture_stopped :
  forall (h : Host) (st : State),
    isRecording st = false -> captureFullDomSnapshot h st = st.
Proof.
  intros h st Hr. unfold captureFullDomSnapshot. rewrite Hr. reflexivity.
Qed.

Lemma pending_saveChunk :
  forall st : State, pending (saveChunk st) = pending st.
Proof.
  intros st. unfold saveChunk, pending.
  destruct (events st) as [|e l] eqn:He; [rewrite He; reflexivity|].
  simpl. rewrite concat_app. simpl. rewrite !app_nil_r. reflexivity.
Qed.

Lemma pending_recordEvent :
  forall (ty : string) (d : EventData) (h : Host) (st : State),
    isRecording st = true ->
    pending (recordEvent ty d h st) =
    pending st ++ [mkEvent ty (clock h - startTime st) (Some d)].
Proof.
  intros ty d h st Hr. unfold recordEvent. rewrite Hr. cbn [negb].
  match goal with
  | |- pending (if ?c then _ else _) = _ => destruct c
  end.
  - rewrite pending_saveChunk. unfold pending. simpl.
    rewrite app_assoc. reflexivity.
  - unfold pending. simpl. rewrite app_assoc. reflexivity.
Qed.


(** C1. [stop] leaves the event log as it found it: the flag is cleared
    before [recordEvent] and [captureFullDomSnapshot] are called, and
    both return at once when the flag is clear.  After [stop] the log
    of a started instance therefore holds no [session_end] event, and
    no snapshot beyond those taken before. *)
Theorem stop_records_nothing :
  (forall (h : Host) (st : State),
      events (stop h st) = events st
      /\ inflight (stop h st) = inflight st
      /\ isRecording (stop h st) = false)
  /\ (let st := stop pageB (start pageA (create 990)) in
      existsb (hasType "session_end") (pending st) = false
      /\ List.length (filter (hasType "dom_snapshot") (pending st)) = 1%nat
      /\ filter (hasType "dom_snapshot") (pending st) =
         filter (hasType "dom_snapshot") (pending (start pageA (create 990)))).
Proof.
  split; [|vm_compute; auto].
  intros h st. unfold stop.
  destruct (isRecording st) eqn:Hr; cbn [negb]; [|auto].
  rewrite recordEvent_stopped by reflexivity.
  rewrite capture_stopped by reflexivity.
  auto.
Qed.

(** C6 as stated fails: the event that brings the buffer to 10 events
    triggers no flush (nothing is handed to the transport and the 10
    events stay buffered); and after a flush of 11 events has failed
    the buffer holds 11 events again. *)
Lemma ten_buffered_events_not_flushed :
  let st := recordEvent "click" noData pageA (buffered 9) in
  (List.length (events st) = 10%nat /\ inflight st = [])
  /\ (let st' :=
        settle 0 (mkOutcome Rejects Rejects false)
               (recordEvent "click" noData pageA st) in
      List.length (events st') = 11%nat /\ inflight st' = []).
Proof. vm_compute. auto. Qed.

(** C6, amended. The buffer is flushed once it exceeds 10 events: the
    event that brings a recording instance's buffer above 10 hands the
    whole buffer, that event included, to a flush, and an event that
    leaves it at 10 or fewer is only buffered; so right after an event
    has been recorded the buffer holds at most 10 events, whatever the
    timers do. *)
Theorem buffer_flushes_above_ten :
  forall (ty : string) (d : EventData) (h : Host) (st : State),
    isRecording st = true ->
    let ev := mkEvent ty (clock h - startTime st) (Some d) in
    let st' := recordEvent ty d h st in
    ((10 <= List.length (events st))%nat ->
       events st' = [] /\ inflight st' = inflight st ++ [events st ++ [ev]])
    /\ ((List.length (events st) < 10)%nat ->
          events st' = events st ++ [ev] /\ inflight st' = inflight st)
    /\ (List.length (events st') <= 10)%nat.
Proof.
  intros ty d h st Hr ev st'. subst st'. unfold recordEvent.
  rewrite Hr. cbn [negb]. cbn [events setEvents].
  rewrite length_app. cbn [List.length].
  destruct (10 <? Z.of_nat (List.length (events st) + 1)) eqn:Hc.
  - apply Z.ltb_lt in Hc.
    assert (Hsave : saveChunk (setEvents st (events st ++ [ev])) =
                    setInflight (setEvents st [])
                      (inflight st ++ [events st ++ [ev]])).
    { unfold saveChunk. cbn [events setEvents].
      destruct (events st ++ [ev]) eqn:Happ;
        [destruct (events st); discriminate|reflexivity]. }
    fold ev. rewrite Hsave. simpl. repeat split; intros; try lia; auto.
  - apply Z.ltb_ge in Hc. fold ev. cbn [events setEvents inflight].
    rewrite length_app. cbn [List.length].
    repeat split; intros; try lia; auto.
Qed.

Lemma buffer_flushes_above_ten_witness :
  isRecording (buffered 10) = true
  /\ (List.length (events (recordEvent "click" noData pageA (buffered 10)))
      <= 10)%nat.
Proof.
  split; [reflexivity|].
  exact (proj2 (proj2 (buffer_flushes_above_ten "click" noData pageA
                         (buffered 10) eq_refl))).
Defined.

(** *** Settling a flush *)

Lemma ok_not_401 : forall s : Z, ok s = true -> (s =? 401) = false.
Proof.
  intros s Hok. unfold ok in Hok. apply andb_true_iff in Hok.
  destruct Hok as [_ Hle]. apply Z.leb_le in Hle. apply Z.eqb_neq. lia.
Qed.

Lemma settle_failed :
  forall (o : Outcome) (chunk : list Event) (st : State),
    failed o -> saveChunk_settle o chunk st = requeue chunk st.
Proof.
  intros o chunk st Hf. unfold saveChunk_settle.
  destruct Hf as [Hs|[(s & Hs & Hok & Hne)|(s & Hs & Hok & Hc)]];
    rewrite Hs; [reflexivity| |].
  - apply Z.eqb_neq in Hne. rewrite Hne, Hok. reflexivity.
  - rewrite (ok_not_401 s Hok), Hok. cbn [negb].
    destruct Hc as [Hc|[(c & Hc & Hokc & Hnec)|(c & Hc & Hokc & Hj)]];
      rewrite Hc; [reflexivity| |].
    + apply Z.eqb_neq in Hnec. rewrite Hnec, Hokc. reflexivity.
    + rewrite (ok_not_401 c Hokc), Hokc, Hj. reflexivity.
Qed.

Lemma settle_rejected :
  forall (o : Outcome) (chunk : list Event) (st : State),
    rejected o -> saveChunk_settle o chunk st = disable st.
Proof.
  intros o chunk st Hr. unfold saveChunk_settle.
  destruct Hr as [Hs|(s & Hs & Hok & Hc)]; rewrite Hs; [reflexivity|].
  rewrite (ok_not_401 s Hok), Hok, Hc. reflexivity.
Qed.

Lemma settle_delivered :
  forall (o : Outcome) (chunk : list Event) (st : State),
    delivered o -> saveChunk_settle o chunk st = st.
Proof.
  intros o chunk st (s & c & Hs & Hok & Hc & Hokc & Hj).
  unfold saveChunk_settle.
  rewrite Hs, (ok_not_401 s Hok), Hok, Hc, (ok_not_401 c Hokc), Hokc, Hj.
  reflexivity.
Qed.

(** Every outcome is a failure, a rejection or a delivery. *)
Lemma outcome_cases :
  forall o : Outcome, failed o \/ rejected o \/ delivered o.
Proof.
  intros [sr cr j]. unfold failed, rejected, delivered. simpl.
  destruct sr as [|s]; [left; left; reflexivity|].
  destruct (Z.eq_dec s 401) as [->|Hs]; [right; left; left; reflexivity|].
  destruct (ok s) eqn:Hok; [|left; right; left; exists s; auto].
  destruct cr as [|c]; [left; right; right; exists s; auto|].
  destruct (Z.eq_dec c 401) as [->|Hc];
    [right; left; right; exists s; auto|].
  destruct (ok c) eqn:Hokc.
  - destruct j.
    + right; right. exists s, c. auto.
    + left; right; right. exists s. repeat split; auto.
      right; right. exists c. auto.
  - left; right; right. exists s. repeat split; auto.
    right; left. exists c. auto.
Qed.

Lemma concat_dropNth :
  forall (l : list (list Event)) (j : nat) (chunk : list Event),
    nth_error l j = Some chunk ->
    Permutation (chunk ++ List.concat (dropNth j l)) (List.concat l).
Proof.
  induction l as [|c l IH]; intros j chunk Hn.
  - destruct j; discriminate.
  - destruct j as [|j]; simpl in Hn.
    + inversion Hn; subst. reflexivity.
    + simpl. rewrite app_assoc.
      rewrite (Permutation_app_comm chunk c). rewrite <- app_assoc.
      apply Permutation_app_head. exact (IH j chunk Hn).
Qed.

(** C7. A flush of a non-empty buffer takes the whole buffer as its
    chunk and leaves an empty buffer behind: the events held by the
    instance are the same list as before, and an event recorded while
    the flush is pending starts the fresh buffer.  When the pending
    flush settles on a later state: if the transport threw or answered
    outside 200..299 with something other than 401, the chunk is put
    back in front of the live buffer, recording goes on and the events
    held are those held before, rearranged; if a request was answered
    with 401, recording is switched off, the chunk is not put back,
    and later events are not recorded; if both requests succeeded, the
    chunk is not put back and the buffer is left alone. *)
Theorem flush_swaps_requeues_and_stops :
  forall (st later : State) (j : nat) (chunk : list Event) (o : Outcome),
    events st <> [] ->
    nth_error (inflight later) j = Some chunk ->
    (events (saveChunk st) = []
     /\ inflight (saveChunk st) = inflight st ++ [events st]
     /\ nth_error (inflight (saveChunk st)) (List.length (inflight st)) =
        Some (events st)
     /\ pending (saveChunk st) = pending st
     /\ forall (ty : string) (d : EventData) (h : Host),
         isRecording st = true ->
         events (recordEvent ty d h (saveChunk st)) =
         [mkEvent ty (clock h - startTime st) (Some d)]
         /\ inflight (recordEvent ty d h (saveChunk st)) =
            inflight (saveChunk st))
    /\ (failed o ->
        events (settle j o later) = chunk ++ events later
        /\ inflight (settle j o later) = dropNth j (inflight later)
        /\ isRecording (settle j o later) = isRecording later
        /\ Permutation (pending (settle j o later)) (pending later))
    /\ (rejected o ->
        isRecording (settle j o later) = false
        /\ events (settle j o later) = events later
        /\ inflight (settle j o later) = dropNth j (inflight later)
        /\ forall (ty : string) (d : EventData) (h : Host),
            recordEvent ty d h (settle j o later) = settle j o later)
    /\ (delivered o ->
        events (settle j o later) = events later
        /\ inflight (settle j o later) = dropNth j (inflight later)
        /\ isRecording (settle j o later) = isRecording later).
Proof.
  intros st later j chunk o Hne Hn. split; [|split; [|split]].
  - assert (Hsave : saveChunk st =
                    setInflight (setEvents st [])
                                (inflight st ++ [events st])).
    { unfold saveChunk. destruct (events st); [contradiction|reflexivity]. }
    split; [rewrite Hsave; reflexivity|].
    split; [rewrite Hsave; reflexivity|].
    split.
    { rewrite Hsave. cbn [inflight setInflight].
      rewrite nth_error_app2 by lia. rewrite Nat.sub_diag. reflexivity. }
    split; [apply pending_saveChunk|].
    intros ty d h Hr. rewrite Hsave. unfold recordEvent. simpl.
    rewrite Hr. simpl. auto.
  - intros Hf. unfold settle. rewrite Hn.
    rewrite (settle_failed o chunk _ Hf). unfold requeue.
    cbn [events setEvents setInflight inflight isRecording].
    repeat split.
    unfold pending. cbn [events setEvents setInflight inflight].
    rewrite app_assoc.
    rewrite (Permutation_app_comm (List.concat (dropNth j (inflight later)))
                                  chunk).
    apply Permutation_app_tail. exact (concat_dropNth _ _ _ Hn).
  - intros Hrej. unfold settle. rewrite Hn.
    rewrite (settle_rejected o chunk _ Hrej). unfold disable.
    cbn [events setRecording setInflight inflight isRecording].
    split; [reflexivity|]. split; [reflexivity|]. split; [reflexivity|].
    intros ty d h. apply recordEvent_stopped. reflexivity.
  - intros Hd. unfold settle. rewrite Hn.
    rewrite (settle_delivered o chunk _ Hd). auto.
Qed.

(** A run of the contract: 3 buffered events are flushed, a click is
    recorded meanwhile, and the flush fails with status 503. *)
Lemma flush_swaps_requeues_and_stops_witness :
  events (buffered 3) <> []
  /\ nth_error
       (inflight (recordEvent "click" noData pageA (saveChunk (buffered 3))))
       0 = Some (events (buffered 3))
  /\ events (settle 0 (mkOutcome (Resolves 503) Rejects false)
               (recordEvent "click" noData pageA (saveChunk (buffered 3)))) =
     events (buffered 3)
     ++ events (recordEvent "click" noData pageA (saveChunk (buffered 3))).
Proof.
  assert (Hne : events (buffered 3) <> []) by discriminate.
  assert (Hn : nth_error
                 (inflight (recordEvent "click" noData pageA
                                        (saveChunk (buffered 3)))) 0 =
               Some (events (buffered 3))) by reflexivity.
  assert (Hf : failed (mkOutcome (Resolves 503) Rejects false)).
  { right. left. exists 503. repeat split. discriminate. }
  split; [exact Hne|]. split; [exact Hn|].
  exact (proj1 (proj1 (proj2
    (flush_swaps_requeues_and_stops (buffered 3)
       (recordEvent "click" noData pageA (saveChunk (buffered 3)))
       0 (events (buffered 3)) (mkOutcome (Resolves 503) Rejects false)
       Hne Hn)) Hf)).
Defined.

(** The same flush answered with 401 on the chunk request: recording
    is off, the three events are gone, a later event is dropped. *)
Example rejected_run :
  let st :=
    settle 0 (mkOutcome (Resolves 200) (Resolves 401) true)
           (recordEvent "click" noData pageA (saveChunk (buffered 3))) in
  isRecording st = false
  /\ List.length (events st) = 1%nat
  /\ inflight st = []
  /\ recordEvent "scroll" noData pageB st = st.
Proof. vm_compute. auto. Qed.

(** *** Significance scoring *)





Lemma snapshotData_next :
  forall h : Host, snapshotData (next h) = snapshotData h.
Proof. intros h. unfold next. destruct (reads h); reflexivity. Qed.

Lemma isoTime_next : forall h : Host, isoTime (next h) = isoTime h.
Proof. intros h. unfold next. destruct (reads h); reflexivity. Qed.

Lemma canvases_next : forall h : Host, canvases (next h) = canvases h.
Proof. intros h. unfold next. destruct (reads h); reflexivity. Qed.

Lemma snapshotData_later :
  forall (k : nat) (h : Host), snapshotData (later k h) = snapshotData h.
Proof.
  induction k as [|k IH]; intros h; [reflexivity|].
  change (later (S k) h) with (next (later k h)).
  rewrite snapshotData_next. apply IH.
Qed.

Lemma capture_recording :
  forall (h : Host) (st : State),
    isRecording st = true ->
    pending (captureFullDomSnapshot h st) =
    pending st
    ++ [mkEvent "dom_snapshot" (clock h - startTime st)
                (Some (snapshotData h))]
    /\ lastDomSnapshotTime (captureFullDomSnapshot h st) = clock (next h).
Proof.
  intros h st Hr. unfold captureFullDomSnapshot. rewrite Hr. cbn [negb].
  split; [|reflexivity].
  rewrite <- (pending_recordEvent "dom_snapshot" (snapshotData h) h st Hr).
  reflexivity.
Qed.

(** What [start] makes of a fresh instance. *)
Lemma start_fresh :
  forall (h : Host) (t0 : Z),
    start h (create t0) =
    if inventoryThrows h
    then
      mkState [] (clock h) true 0 false true true
        [[mkEvent "session_start" (clock (later 1 h) - clock h)
                  (Some (sessionData h))]]
    else
      mkState [] (clock h) true 0 true true true
        [[mkEvent "initial_dom_state" (clock (later 1 h) - clock h)
                  (Some (mkData (Some (isoTime h)) None None None
                                (Some (href h)) (Some (canvases h))));
          mkEvent "dom_snapshot" (clock (later 2 h) - clock h)
                  (Some (snapshotData h));
          mkEvent "session_start" (clock (later 3 h) - clock h)
                  (Some (sessionData h))]].
Proof.
  intros h t0. unfold start, create, captureInitialDomState.
  cbn [isRecording events lastDomSnapshotTime snapshotInterval observing
       inflight].
  assert (Hthrows : inventoryThrows (next h) = inventoryThrows h)
    by (unfold next; destruct (reads h); reflexivity).
  assert (Hhref : href (next h) = href h)
    by (unfold next; destruct (reads h); reflexivity).
  rewrite Hthrows. destruct (inventoryThrows h).
  - cbv -[Z.sub clock next isoTime href outerHTML canvases]. reflexivity.
  - rewrite ?isoTime_next, ?Hhref, ?canvases_next, ?snapshotData_next.
    cbv -[Z.sub clock next isoTime href outerHTML canvases]. reflexivity.
Qed.







(** The boundary on concrete batches: two added nodes and a [class]
    change score 5, two added nodes score 4, ten text changes score 5;
    the stamp is 0 and the clock 5000 or 4999. *)
Example significance_boundary_run :
  let at5000 := Observer.still 5000 in
  let at4999 := Observer.still 4999 in
  let five := [added 2; attrChange "class"] in
  let four := [added 2; attrChange "title"] in
  (significanceScore five == 5)%Q
  /\ (significanceScore four == 4)%Q
  /\ (significanceScore (repeat textChange 10) == 5)%Q
  /\ map type (pending (checkForSignificantChanges at5000 (buffered 0) five))
     = ["dom_snapshot"]
  /\ pending (checkForSignificantChanges at5000 (buffered 0) four) = []
  /\ pending (checkForSignificantChanges at4999 (buffered 0) five) = [].
Proof. vm_compute. repeat split. Qed.

End RecorderFacts.

(** ** Double arithmetic *)

Module Float64Facts.
Import Float64.
Local Open Scope Z_scope.


Lemma rne_cases :
  forall m : Q,
    (rne m = Qfloor m /\ (m - inject_Z (Qfloor m) <= 1 # 2)%Q)
    \/ (rne m = Qfloor m + 1 /\ (1 # 2 <= m - inject_Z (Qfloor m))%Q).
Proof.
  intros m. unfold rne.
  destruct (Qcompare_spec (m - inject_Z (Qfloor m)) (1 # 2)) as [H|H|H].
  - destruct (Z.even (Qfloor m)); [left|right]; split; try reflexivity;
      rewrite H; apply Qle_refl.
  - left. split; [reflexivity|apply Qlt_le_weak; exact H].
  - right. split; [reflexivity|apply Qlt_le_weak; exact H].
Qed.


Lemma rne_Z : forall n : Z, rne (inject_Z n) = n.
Proof.
  intros n. unfold rne. rewrite Qfloor_Z.
  assert (H : ((inject_Z n - inject_Z n) ?= (1 # 2))%Q = Lt).
  { apply Qlt_alt.
    setoid_replace (inject_Z n - inject_Z n)%Q with 0%Q by ring.
    reflexivity. }
  rewrite H. reflexivity.
Qed.

Lemma rne_mono : forall a b : Q, (a <= b)%Q -> rne a <= rne b.
Proof.
  intros a b Hab. pose proof (Qfloor_resp_le a b Hab) as Hfl.
  destruct (Z.eq_dec (Qfloor a) (Qfloor b)) as [Heq|Hne].
  - unfold rne. rewrite Heq.
    destruct (Qcompare_spec (a - inject_Z (Qfloor b)) (1 # 2)) as [Ha|Ha|Ha];
      destruct (Qcompare_spec (b - inject_Z (Qfloor b)) (1 # 2)) as [Hb|Hb|Hb];
      try lia; try (destruct (Z.even (Qfloor b)); lia); exfalso; lra.
  - assert (Hlt : Qfloor a + 1 <= Qfloor b) by lia.
    destruct (rne_cases a) as [[-> _]|[-> _]];
      destruct (rne_cases b) as [[-> _]|[-> _]]; lia.
Qed.

Lemma pow2_pos : forall k : Z, (0 < 2 ^ k)%Q.
Proof. intros k. apply Qpower_0_lt. reflexivity. Qed.

Lemma pow2_Z : forall k : Z, 0 <= k -> (inject_Z (2 ^ k) == 2 ^ k)%Q.
Proof. intros k Hk. rewrite Zpower_Qpower by exact Hk. reflexivity. Qed.

Lemma pow2_plus : forall a b : Z, (2 ^ (a + b) == 2 ^ a * 2 ^ b)%Q.
Proof. intros a b. apply Qpower_plus. discriminate. Qed.

Lemma pow2_le : forall a b : Z, a <= b -> (2 ^ a <= 2 ^ b)%Q.
Proof. intros a b H. apply Qpower_le_compat_l; [exact H|discriminate]. Qed.

Lemma ilog2_spec :
  forall x : Q, (0 < x)%Q -> (2 ^ ilog2 x <= x)%Q /\ (x < 2 ^ (ilog2 x + 1))%Q.
Proof.
  intros x Hx. unfold ilog2. destruct (Qle_bool 1 x) eqn:H1.
  - apply Qle_bool_iff in H1.
    assert (Hf : 1 <= Qfloor x).
    { change 1 with (Qfloor 1). apply Qfloor_resp_le. exact H1. }
    destruct (Z.log2_spec (Qfloor x)) as [Hlo Hhi]; [lia|].
    pose proof (Z.log2_nonneg (Qfloor x)) as Hk.
    pose proof (Qfloor_le x) as Hfl. pose proof (Qlt_floor x) as Hfu.
    split.
    + rewrite <- pow2_Z by exact Hk.
      apply Qle_trans with (inject_Z (Qfloor x)); [|exact Hfl].
      rewrite <- Zle_Qle. exact Hlo.
    + rewrite <- pow2_Z by lia.
      apply Qlt_le_trans with (inject_Z (Qfloor x + 1)); [exact Hfu|].
      rewrite <- Zle_Qle. replace (Z.log2 (Qfloor x) + 1) with (Z.succ (Z.log2 (Qfloor x))) by lia. lia.
  - assert (Hlt : (x < 1)%Q).
    { apply Qnot_le_lt. intros Hc. apply Qle_bool_iff in Hc. congruence. }
    assert (Hinv : (1 < / x)%Q).
    { apply Qlt_shift_inv_l; [exact Hx|]. lra. }
    pose proof (Qle_ceiling (/ x)) as Hcl. pose proof (Qceiling_lt (/ x)) as Hcu.
    assert (Hc : 1 < Qceiling (/ x)).
    { apply Z.lt_le_trans with (Qceiling (/ x - 0)%Q + 0); [|].
      2:{ rewrite Z.add_0_r. apply Z.eq_le_incl. apply Qceiling_comp. ring. }
      rewrite Z.add_0_r.
      assert (H : (inject_Z 1 < inject_Z (Qceiling (/ x - 0)))%Q).
      { change (inject_Z 1) with 1%Q.
        apply Qlt_le_trans with (/ x - 0)%Q; [lra|apply Qle_ceiling]. }
      rewrite <- Zlt_Qlt in H. exact H. }
    destruct (Z.log2_up_spec (Qceiling (/ x)) Hc) as [Hlo Hhi].
    pose proof (Z.log2_up_pos (Qceiling (/ x)) Hc) as Hk.
    set (k := Z.log2_up (Qceiling (/ x))) in *.
    split.
    + rewrite Qpower_opp.
      apply Qle_shift_inv_r; [apply pow2_pos|].
      assert (H : (/ x <= 2 ^ k)%Q).
      { rewrite <- pow2_Z by lia.
        apply Qle_trans with (inject_Z (Qceiling (/ x))); [exact Hcl|].
        rewrite <- Zle_Qle. exact Hhi. }
      apply (Qmult_le_l _ _ x Hx) in H.
      rewrite Qmult_inv_r in H by lra. exact H.
    + replace (- k + 1) with (- (k - 1)) by lia. rewrite Qpower_opp.
      apply Qlt_shift_inv_l; [apply pow2_pos|].
      assert (H : (2 ^ (k - 1) < / x)%Q).
      { rewrite <- pow2_Z by lia.
        replace (k - 1) with (Z.pred k) by lia.
        assert (H' : 2 ^ Z.pred k <= Qceiling (/ x) - 1) by lia.
        rewrite Zle_Qle in H'. unfold Z.sub in H'.
        rewrite inject_Z_plus in H'. change (inject_Z (-1)) with (-1)%Q in H'.
        unfold Z.sub in Hcu. rewrite inject_Z_plus in Hcu. change (inject_Z (-1)) with (-1)%Q in Hcu. lra. }
      apply (Qmult_lt_l _ _ x Hx) in H.
      rewrite Qmult_inv_r in H by lra. exact H.
Qed.

Lemma ilog2_mono :
  forall x y : Q, (0 < x)%Q -> (x <= y)%Q -> ilog2 x <= ilog2 y.
Proof.
  intros x y Hx Hxy.
  destruct (ilog2_spec x Hx) as [Hlo _].
  destruct (ilog2_spec y) as [_ Hhi]; [lra|].
  assert (H : (2 ^ ilog2 x < 2 ^ (ilog2 y + 1))%Q) by lra.
  apply Qpower_lt_compat_l_inv in H; [lia|reflexivity].
Qed.

Lemma ulp_pos : forall x : Q, (0 < ulp x)%Q.
Proof. intros x. apply pow2_pos. Qed.

(** The significand of a positive [x], between [2 ^ 52] and [2 ^ 53]. *)
Lemma significand_range :
  forall x : Q,
    (0 < x)%Q ->
    (inject_Z (2 ^ 52) <= x / ulp x)%Q /\ (x / ulp x <= inject_Z (2 ^ 53))%Q.
Proof.
  intros x Hx. destruct (ilog2_spec x Hx) as [Hlo Hhi].
  pose proof (ulp_pos x) as Hu.
  rewrite !pow2_Z by lia.
  assert (H52 : (2 ^ 52 * ulp x == 2 ^ ilog2 x)%Q).
  { unfold ulp. rewrite <- pow2_plus. apply Qpower_comp; [reflexivity|lia]. }
  assert (H53 : (2 ^ 53 * ulp x == 2 ^ (ilog2 x + 1))%Q).
  { unfold ulp. rewrite <- pow2_plus. apply Qpower_comp; [reflexivity|lia]. }
  split.
  - apply Qle_shift_div_l; [exact Hu|]. rewrite H52. exact Hlo.
  - apply Qle_shift_div_r; [exact Hu|]. rewrite H53.
    apply Qlt_le_weak. exact Hhi.
Qed.

Lemma flPos_range :
  forall x : Q,
    (0 < x)%Q ->
    (2 ^ ilog2 x <= flPos x)%Q /\ (flPos x <= 2 ^ (ilog2 x + 1))%Q.
Proof.
  intros x Hx. destruct (significand_range x Hx) as [Hlo Hhi].
  pose proof (ulp_pos x) as Hu.
  apply rne_mono in Hlo. apply rne_mono in Hhi. rewrite rne_Z in Hlo, Hhi.
  rewrite Zle_Qle in Hlo, Hhi. rewrite pow2_Z in Hlo, Hhi by lia.
  assert (H52 : (2 ^ 52 * ulp x == 2 ^ ilog2 x)%Q).
  { unfold ulp. rewrite <- pow2_plus. apply Qpower_comp; [reflexivity|lia]. }
  assert (H53 : (2 ^ 53 * ulp x == 2 ^ (ilog2 x + 1))%Q).
  { unfold ulp. rewrite <- pow2_plus. apply Qpower_comp; [reflexivity|lia]. }
  unfold flPos. rewrite <- H52, <- H53. split.
  - apply Qmult_le_compat_r; [exact Hlo|apply Qlt_le_weak; exact Hu].
  - apply Qmult_le_compat_r; [exact Hhi|apply Qlt_le_weak; exact Hu].
Qed.

Lemma flPos_pos : forall x : Q, (0 < x)%Q -> (0 < flPos x)%Q.
Proof.
  intros x Hx. destruct (flPos_range x Hx) as [Hlo _].
  pose proof (pow2_pos (ilog2 x)). lra.
Qed.

Lemma flPos_mono :
  forall x y : Q, (0 < x)%Q -> (x <= y)%Q -> (flPos x <= flPos y)%Q.
Proof.
  intros x y Hx Hxy. assert (Hy : (0 < y)%Q) by lra.
  pose proof (ilog2_mono x y Hx Hxy) as He.
  destruct (Z.eq_dec (ilog2 x) (ilog2 y)) as [Heq|Hne].
  - unfold flPos, ulp. rewrite Heq.
    pose proof (pow2_pos (ilog2 y - 52)) as Hu.
    apply Qmult_le_compat_r; [|apply Qlt_le_weak; exact Hu].
    rewrite <- Zle_Qle. apply rne_mono.
    apply Qmult_le_compat_r; [exact Hxy|].
    apply Qlt_le_weak. apply Qinv_lt_0_compat. exact Hu.
  - destruct (flPos_range x Hx) as [_ Hhi].
    destruct (flPos_range y Hy) as [Hlo _].
    assert (Hp : (2 ^ (ilog2 x + 1) <= 2 ^ ilog2 y)%Q) by (apply pow2_le; lia).
    lra.
Qed.

Lemma fl_0 : fl 0 = 0%Q.
Proof. reflexivity. Qed.

Lemma fl_of_pos : forall x : Q, (0 < x)%Q -> fl x = flPos x.
Proof.
  intros x Hx. unfold fl.
  destruct (Qcompare_spec x 0) as [H|H|H]; [lra|lra|reflexivity].
Qed.

Lemma fl_of_neg : forall x : Q, (x < 0)%Q -> fl x = (- flPos (- x))%Q.
Proof.
  intros x Hx. unfold fl.
  destruct (Qcompare_spec x 0) as [H|H|H]; [lra|reflexivity|lra].
Qed.

Lemma fl_of_zero : forall x : Q, (x == 0)%Q -> fl x = 0%Q.
Proof.
  intros x Hx. unfold fl.
  destruct (Qcompare_spec x 0) as [H|H|H]; [reflexivity|lra|lra].
Qed.

(** Rounding keeps the order. *)
Lemma fl_mono : forall x y : Q, (x <= y)%Q -> (fl x <= fl y)%Q.
Proof.
  intros x y Hxy.
  destruct (Q_dec x 0) as [[Hx|Hx]|Hx], (Q_dec y 0) as [[Hy|Hy]|Hy];
    try (exfalso; lra).
  - rewrite (fl_of_neg x Hx), (fl_of_neg y Hy).
    assert (H : (flPos (- y) <= flPos (- x))%Q)
      by (apply flPos_mono; lra).
    lra.
  - rewrite (fl_of_neg x Hx), (fl_of_pos y Hy).
    pose proof (flPos_pos (- x)). pose proof (flPos_pos y Hy). lra.
  - rewrite (fl_of_neg x Hx), (fl_of_zero y Hy).
    pose proof (flPos_pos (- x)). lra.
  - rewrite (fl_of_pos x Hx), (fl_of_pos y Hy).
    apply flPos_mono; assumption.
  - rewrite (fl_of_zero x Hx), (fl_of_pos y Hy).
    pose proof (flPos_pos y Hy). lra.
  - rewrite (fl_of_zero x Hx), (fl_of_zero y Hy). apply Qle_refl.
Qed.

Lemma fl_comp : forall x y : Q, (x == y)%Q -> (fl x == fl y)%Q.
Proof.
  intros x y H. apply Qle_antisym; apply fl_mono; rewrite H; apply Qle_refl.
Qed.

Lemma fl_nonneg : forall x : Q, (0 <= x)%Q -> (0 <= fl x)%Q.
Proof. intros x H. apply (fl_mono 0 x H). Qed.


(** Rounding keeps the sign. *)
Lemma fl_negative : forall x : Q, (fl x < 0)%Q <-> (x < 0)%Q.
Proof.
  intros x. split.
  - intros H. apply Qnot_le_lt. intros Hx.
    pose proof (fl_nonneg x Hx). lra.
  - intros H. rewrite (fl_of_neg x H).
    pose proof (flPos_pos (- x)) as Hp.
    assert (H' : (0 < flPos (- x))%Q) by (apply Hp; lra). lra.
Qed.



(** The doubles nearest to 1/10, to 66/100 and to 1/3, and a tie
    ([2 ^ 53 + 1], halfway between two doubles) going to the even
    significand. *)
Example rounding_run :
  (fl (1 # 10) == 3602879701896397 # 36028797018963968)%Q
  /\ (fl (66 # 100) == 5944751508129055 # 9007199254740992)%Q
  /\ (fl (1 # 3) == 6004799503160661 # 18014398509481984)%Q
  /\ (fl (inject_Z (2 ^ 53 + 1)) == inject_Z (2 ^ 53))%Q
  /\ (fl (inject_Z (2 ^ 53 + 3)) == inject_Z (2 ^ 53 + 4))%Q
  /\ (fl (- (1 # 10)) == - (3602879701896397 # 36028797018963968))%Q.
Proof. vm_compute. repeat split. Qed.

End Float64Facts.

(** ** Replay *)

Module ReplayFacts.
Import Model Replay.

Local Open Scope string_scope.
Local Open Scope list_scope.
Local Open Scope Z_scope.

(** *** Seeking *)

Lemma hd_insertDesc :
  forall (e : Event) (l : list Event),
    hd_error (insertDesc e l) =
    match hd_error l with
    | Some x => if timestamp x <=? timestamp e then Some e else Some x
    | None => Some e
    end.
Proof.
  intros e [|x tl]; [reflexivity|]. simpl.
  destruct (timestamp x <=? timestamp e); reflexivity.
Qed.

(** The head of the sorted list is an element of greatest timestamp,
    and the earliest of those in the order of the list. *)
Lemma sortDesc_head :
  forall (l : list Event) (e : Event),
    hd_error (sortDesc l) = Some e ->
    (forall e', In e' l -> timestamp e' <= timestamp e)
    /\ exists l1 l2,
        l = l1 ++ e :: l2
        /\ forall e', In e' l1 -> timestamp e' < timestamp e.
Proof.
  induction l as [|x l IH]; intros e Hhd; [discriminate|].
  cbn [sortDesc] in Hhd. rewrite hd_insertDesc in Hhd.
  destruct (hd_error (sortDesc l)) as [b|] eqn:Hb.
  - destruct (IH b eq_refl) as (Hmax & l1 & l2 & Hl & Hbefore).
    destruct (timestamp b <=? timestamp x) eqn:Hc.
    + inversion Hhd; subst e. apply Z.leb_le in Hc. split.
      * intros e' [Heq|Hin]; [subst; lia|]. specialize (Hmax e' Hin). lia.
      * exists [], l. split; [reflexivity|intros e' []].
    + inversion Hhd; subst e. apply Z.leb_gt in Hc. split.
      * intros e' [Heq|Hin]; [subst; lia|]. exact (Hmax e' Hin).
      * exists (x :: l1), l2. split; [rewrite Hl; reflexivity|].
        intros e' [Heq|Hin]; [subst; exact Hc|]. exact (Hbefore e' Hin).
  - inversion Hhd; subst e.
    assert (Hnil : l = []).
    { destruct l as [|y l']; [reflexivity|]. exfalso.
      cbn [sortDesc] in Hb. rewrite hd_insertDesc in Hb.
      destruct (hd_error (sortDesc l')) as [z|];
        [destruct (timestamp z <=? timestamp y)|]; discriminate. }
    subst l. split.
    + intros e' [Heq|[]]. subst. lia.
    + exists [], []. split; [reflexivity|intros e' []].
Qed.

Lemma sortDesc_head_exists :
  forall l : list Event,
    l <> [] -> exists e, hd_error (sortDesc l) = Some e.
Proof.
  intros [|x l] Hne; [contradiction|].
  cbn [sortDesc]. rewrite hd_insertDesc.
  destruct (hd_error (sortDesc l)) as [b|];
    [destruct (timestamp b <=? timestamp x)|]; eauto.
Qed.

Lemma dom_of_handleTimelineChange :
  forall (events : list Event) (newTime : Z) (st : PageState),
    reconstructedDom (handleTimelineChange events newTime st) =
    match lastDomSnapshot events newTime with
    | Some e =>
        if truthy (htmlOf e) then orEmpty (htmlOf e)
        else reconstructedDom st
    | None => reconstructedDom st
    end.
Proof.
  intros events newTime st. unfold handleTimelineChange.
  set (st1 := mkPage newTime _ _ _ _ _).
  assert (Hcur : reconstructedDom (updateCursor events newTime st1) =
                 reconstructedDom st).
  { unfold updateCursor.
    destruct (lastEventBeforeTime events newTime) as [e|]; [|reflexivity].
    destruct (data e) as [d|]; [|reflexivity].
    destruct (d_x d), (d_y d); reflexivity. }
  assert (Hurl : forall s, reconstructedDom (updateUrl events newTime s) =
                           reconstructedDom s).
  { intros s0. unfold updateUrl.
    destruct (lastUrlChange events newTime) as [e|]; [|reflexivity].
    destruct (truthy (urlOf e)); reflexivity. }
  rewrite Hurl. unfold updateDom.
  destruct (lastDomSnapshot events newTime) as [e|]; [|exact Hcur].
  destruct (truthy (htmlOf e)); [reflexivity|exact Hcur].
Qed.

(** C2 as stated fails: in a session whose first snapshot is 4 ms
    after the first event, seeking to 3500 and then back to 0 finds no
    snapshot at or before 0 and leaves the markup of the snapshot at
    3000 on display, not that of the session's first snapshot.  And when
    the snapshot with the greatest timestamp at or before the target
    carries no markup, it is not adopted: after seeking to 500 and then
    to 2500 the snapshot of time 0 stays on display. *)
Lemma seek_before_first_snapshot_keeps_dom :
  (let st := handleTimelineChange lateSnapshot 3500
                                  (loaded shopUrl lateSnapshot) in
   filter (fun e => isSnapshot e && (timestamp e <=? 0)) lateSnapshot = []
   /\ option_map htmlOf (find isSnapshot lateSnapshot) =
      Some (Some "<html>A</html>")
   /\ reconstructedDom st = "<html>B</html>"
   /\ reconstructedDom (handleTimelineChange lateSnapshot 0 st) =
      "<html>B</html>")
  /\ (let st := handleTimelineChange bareSnapshot 500
                                     (loaded shopUrl bareSnapshot) in
      option_map timestamp (lastDomSnapshot bareSnapshot 2500) = Some 2000
      /\ reconstructedDom (handleTimelineChange bareSnapshot 2500 st) =
         "<html>A</html>").
Proof. vm_compute. repeat split. Qed.

(** C2, amended. Seeking to [newTime] in any event list: when some
    [dom_snapshot] has a timestamp at or before [newTime], the one
    chosen has the greatest such timestamp (the earliest in the list
    among equals) and its markup, when it has one, becomes the
    baseline; when none has, the baseline is left as it was, which
    right after loading is the markup of the session's first snapshot.
    In the end-to-end session, seeking to 2000 shows [A] with the
    cursor at (50, 80) and seeking to 3500 shows [B]. *)
Theorem seek_adopts_latest_snapshot :
  forall (events : list Event) (newTime : Z) (st : PageState),
    let qualifies e := isSnapshot e && (timestamp e <=? newTime) in
    let st' := handleTimelineChange events newTime st in
    (filter qualifies events <> [] ->
     exists e before after,
       lastDomSnapshot events newTime = Some e
       /\ filter qualifies events = before ++ e :: after
       /\ In e events /\ isSnapshot e = true /\ timestamp e <= newTime
       /\ (forall e', In e' events -> qualifies e' = true ->
                      timestamp e' <= timestamp e)
       /\ (forall e', In e' before -> timestamp e' < timestamp e)
       /\ reconstructedDom st' =
          if truthy (htmlOf e) then orEmpty (htmlOf e)
          else reconstructedDom st)
    /\ (filter qualifies events = [] ->
        reconstructedDom st' = reconstructedDom st
        /\ forall sessionUrl,
           reconstructedDom
             (handleTimelineChange events newTime (loaded sessionUrl events)) =
           match initialDomSnapshot events with
           | Some e => orEmpty (htmlOf e)
           | None => ""
           end)
    /\ (forall A B : string,
           A <> "" -> B <> "" ->
           let s2000 := handleTimelineChange (endToEnd A B) 2000 st in
           let s3500 := handleTimelineChange (endToEnd A B) 3500 st in
           reconstructedDom s2000 = A
           /\ cursorPosition s2000 = (50, 80)
           /\ reconstructedDom s3500 = B).
Proof.
  intros events newTime st qualifies st'. subst st'.
  split; [|split].
  - intros Hne.
    destruct (sortDesc_head_exists _ Hne) as [e He].
    destruct (sortDesc_head _ _ He) as (Hmax & l1 & l2 & Hl & Hbefore).
    assert (Hin : In e (filter qualifies events)).
    { rewrite Hl. apply in_or_app. right. left. reflexivity. }
    apply filter_In in Hin. destruct Hin as [Hin Hq].
    unfold qualifies in Hq. apply andb_true_iff in Hq.
    destruct Hq as [Hsnap Ht]. apply Z.leb_le in Ht.
    exists e, l1, l2. repeat split; try assumption.
    + intros e' Hin' Hq'. apply Hmax. apply filter_In. split; assumption.
    + rewrite dom_of_handleTimelineChange.
      unfold lastDomSnapshot. fold qualifies. rewrite He. reflexivity.
  - intros Hnil.
    assert (Hnone : lastDomSnapshot events newTime = None).
    { unfold lastDomSnapshot. fold qualifies. rewrite Hnil. reflexivity. }
    rewrite dom_of_handleTimelineChange, Hnone. split; [reflexivity|].
    intros sessionUrl. rewrite dom_of_handleTimelineChange, Hnone.
    unfold loaded. destruct (initialDomSnapshot events); reflexivity.
  - intros A B HA HB. apply String.eqb_neq in HA. apply String.eqb_neq in HB.
    cbv zeta. rewrite !dom_of_handleTimelineChange.
    unfold lastDomSnapshot, endToEnd, snapshotAt, clickAt, plain.
    cbn. rewrite HA, HB. cbn. auto.
Qed.

Lemma seek_adopts_latest_snapshot_witness :
  let s2000 :=
    handleTimelineChange (endToEnd "<html>A</html>" "<html>B</html>") 2000
                         (loaded shopUrl (endToEnd "<html>A</html>"
                                                   "<html>B</html>")) in
  let s3500 :=
    handleTimelineChange (endToEnd "<html>A</html>" "<html>B</html>") 3500
                         (loaded shopUrl (endToEnd "<html>A</html>"
                                                   "<html>B</html>")) in
  reconstructedDom s2000 = "<html>A</html>"
  /\ cursorPosition s2000 = (50, 80)
  /\ reconstructedDom s3500 = "<html>B</html>".
Proof.
  refine (proj2 (proj2
    (seek_adopts_latest_snapshot
       (endToEnd "<html>A</html>" "<html>B</html>") 0
       (loaded shopUrl (endToEnd "<html>A</html>" "<html>B</html>"))))
    "<html>A</html>" "<html>B</html>" _ _); discriminate.
Defined.

(** *** Sanitizing *)

(** C8. [sanitizeHtml] lets an event handler through when its value
    is not quoted: the markup comes back unchanged and still carries
    the [onclick] attribute, while the same markup with the value in
    quotes loses it.  A script element whose end tag has a space
    before the closing bracket is not cut out of the string either. *)
Theorem unquoted_handler_survives_sanitizing :
  sanitizeHtml unquotedHandler = unquotedHandler
  /\ mentions "onclick=" (sanitizeHtml unquotedHandler) = true
  /\ (50 <= Z.of_nat (String.length (sanitizeHtml unquotedHandler)))
  /\ mentions "onclick=" (sanitizeHtml quotedHandler) = false
  /\ sanitizeHtml spacedEndTag = spacedEndTag.
Proof. vm_compute. repeat split; discriminate. Qed.

(** *** The coordinate transform *)







(** Rounding shows in the offsets: for a container of 724 by 372 and a
    recording of 1200 by 720 the scale is the double nearest to 31/60,
    the scaled width comes out just above 620, and the left offset is
    51, where exact arithmetic gives 52. *)
Example rounded_offset_run :
  option_map contentPosition (updateScaleAndPosition 724 372 1200 720 1)
  = Some (51, 0)
  /\ Qfloor ((724 - 1200 * (31 # 60)) / 2)%Q = 52
  /\ updateScaleAndPosition 724 372 0 720 1 = None.
Proof. vm_compute. repeat split. Qed.

End ReplayFacts.

(** ** The rate limiter *)

Module RateLimitFacts.
Import RateLimit.

Local Open Scope string_scope.
Local Open Scope list_scope.
Local Open Scope Z_scope.

Lemma put_same :
  forall (s : Store) (k : string) (e : Entry), put s k e k = Some e.
Proof. intros s k e. unfold put. rewrite String.eqb_refl. reflexivity. Qed.

Lemma put_other :
  forall (s : Store) (k k' : string) (e : Entry),
    k' <> k -> put s k e k' = s k'.
Proof.
  intros s k k' e Hne. unfold put.
  apply String.eqb_neq in Hne. rewrite Hne. reflexivity.
Qed.

Lemma rateLimit_inherited :
  forall (key : string) (limit windowMs now : Z) (s : Store),
    inherited key = true ->
    rateLimit key limit windowMs now s = (mkResult true limit None None, s).
Proof.
  intros key limit windowMs now s Hin. unfold rateLimit. rewrite Hin.
  reflexivity.
Qed.

Lemma rateLimit_eq :
  forall (key : string) (limit windowMs now : Z) (s : Store),
    inherited key = false ->
    let e := current s key windowMs now in
    fst (rateLimit key limit windowMs now s) =
    mkResult (negb (limit <? count e + 1)) limit
             (Some (Z.max 0 (limit - (count e + 1)))) (Some (resetTime e))
    /\ snd (rateLimit key limit windowMs now s) key =
       Some (mkEntry (count e + 1) (resetTime e))
    /\ forall k, k <> key ->
                 snd (rateLimit key limit windowMs now s) k = s k.
Proof.
  intros key limit windowMs now s Hown e. subst e.
  unfold rateLimit, current. rewrite Hown.
  destruct (s key) as [e|] eqn:Hs.
  - destruct (resetTime e <? now) eqn:Hexp.
    + rewrite put_same. cbn [fst snd count resetTime].
      split; [reflexivity|]. split; [apply put_same|].
      intros k Hk. rewrite !put_other by exact Hk. reflexivity.
    + rewrite Hs. cbn [fst snd count resetTime].
      split; [reflexivity|]. split; [apply put_same|].
      intros k Hk. rewrite put_other by exact Hk. reflexivity.
  - rewrite put_same. cbn [fst snd count resetTime].
    split; [reflexivity|]. split; [apply put_same|].
    intros k Hk. rewrite !put_other by exact Hk. reflexivity.
Qed.

(** Under a name of [Object.prototype] every call is let through and
    the store stays as it is. *)
Lemma calls_inherited :
  forall (reqs : list (Z * Z)) (key : string) (windowMs : Z) (s : Store),
    inherited key = true ->
    calls key windowMs reqs s =
    (map (fun q => mkResult true (fst q) None None) reqs, s).
Proof.
  induction reqs as [|[lim t] rest IH]; intros key windowMs s Hin.
  - reflexivity.
  - cbn [calls]. rewrite (rateLimit_inherited key lim windowMs t s Hin).
    rewrite (IH key windowMs s Hin). reflexivity.
Qed.

Lemma calls_same_entry :
  forall (reqs : list (Z * Z)) (key : string) (windowMs : Z) (s s' : Store),
    s key = s' key ->
    fst (calls key windowMs reqs s) = fst (calls key windowMs reqs s')
    /\ snd (calls key windowMs reqs s) key =
       snd (calls key windowMs reqs s') key.
Proof.
  intros reqs key windowMs s s' Hs.
  destruct (inherited key) eqn:Hown.
  { rewrite !(calls_inherited reqs key windowMs _ Hown). cbn [fst snd].
    auto. }
  revert s s' Hs.
  induction reqs as [|[lim t] rest IH]; intros s s' Hs.
  - simpl. auto.
  - cbn [calls].
    destruct (rateLimit_eq key lim windowMs t s Hown) as (Hr & He & _).
    destruct (rateLimit_eq key lim windowMs t s' Hown) as (Hr' & He' & _).
    assert (Hcur : current s key windowMs t = current s' key windowMs t)
      by (unfold current; rewrite Hs; reflexivity).
    rewrite Hcur in Hr, He.
    destruct (rateLimit key lim windowMs t s) as [r s1].
    destruct (rateLimit key lim windowMs t s') as [r' s1'].
    cbn [fst snd] in *.
    assert (Hs1 : s1 key = s1' key) by (rewrite He, He'; reflexivity).
    destruct (IH s1 s1' Hs1) as [Hf Hsn].
    destruct (calls key windowMs rest s1) as [rs s2].
    destruct (calls key windowMs rest s1') as [rs' s2'].
    cbn [fst snd] in *. subst. auto.
Qed.

(** Inside an open window the calls are counted on from the stored
    count, whatever limits they come with. *)
Lemma calls_open :
  forall (reqs : list (Z * Z)) (key : string) (windowMs c R : Z) (s : Store),
    inherited key = false ->
    s key = Some (mkEntry c R) ->
    Forall (fun q => snd q <= R) reqs ->
    forall (i : nat) (lim t : Z),
      nth_error reqs i = Some (lim, t) ->
      nth_error (fst (calls key windowMs reqs s)) i =
      Some (mkResult (c + Z.of_nat i + 1 <=? lim) lim
                     (Some (Z.max 0 (lim - (c + Z.of_nat i + 1)))) (Some R)).
Proof.
  induction reqs as [|[lim0 t0] rest IH];
    intros key windowMs c R s Hown Hs Hall i lim t Hn.
  - destruct i; discriminate.
  - inversion Hall as [|q qs Ht Hrest]; subst. cbn [snd] in Ht.
    cbn [calls].
    destruct (rateLimit_eq key lim0 windowMs t0 s Hown) as (Hr & He & _).
    assert (Hcur : current s key windowMs t0 = mkEntry c R).
    { unfold current. rewrite Hs. cbn [resetTime].
      destruct (R <? t0) eqn:Hlt; [apply Z.ltb_lt in Hlt; lia|reflexivity]. }
    rewrite Hcur in Hr, He. cbn [count resetTime] in Hr, He.
    destruct (rateLimit key lim0 windowMs t0 s) as [r s1].
    cbn [fst snd] in Hr, He.
    specialize (IH key windowMs (c + 1) R s1 Hown He Hrest).
    destruct (calls key windowMs rest s1) as [rs s2].
    cbn [fst] in IH |- *.
    destruct i as [|i]; cbn [nth_error] in Hn |- *.
    + inversion Hn; subst. cbn [Z.of_nat]. rewrite Z.add_0_r.
      rewrite <- Z.leb_antisym. reflexivity.
    + rewrite (IH i lim t Hn).
      replace (c + 1 + Z.of_nat i + 1) with (c + Z.of_nat (S i) + 1) by lia.
      reflexivity.
Qed.

(** X1. For an identity that is not a name of [Object.prototype]: from
    the first call of a new window on (no entry, or the old window is
    over), the calls of the identity that arrive before the window ends
    are counted together, whatever routes they go to: the call number
    [i + 1] is let through exactly when [i + 1] does not exceed the
    limit it comes with, reports [max 0 (limit - (i + 1))] remaining,
    and all report the same reset time, the first call's clock plus the
    window.  For an identity that is such a name the limiter counts
    nothing: every call is let through, reports neither a remaining
    number nor a reset time, and leaves the store as it was. *)
Theorem window_counts_calls :
  forall (reqs : list (Z * Z)) (key : string) (windowMs lim1 t1 : Z)
         (s : Store),
    (inherited key = false ->
     openWindow s key t1 = false ->
     Forall (fun q => snd q <= t1 + windowMs) reqs ->
     forall (i : nat) (lim t : Z),
       nth_error ((lim1, t1) :: reqs) i = Some (lim, t) ->
       nth_error (fst (calls key windowMs ((lim1, t1) :: reqs) s)) i =
       Some (mkResult (Z.of_nat i + 1 <=? lim) lim
                      (Some (Z.max 0 (lim - (Z.of_nat i + 1))))
                      (Some (t1 + windowMs))))
    /\ (inherited key = true ->
        calls key windowMs reqs s =
        (map (fun q => mkResult true (fst q) None None) reqs, s)).
Proof.
  intros reqs key windowMs lim1 t1 s.
  split; [|apply calls_inherited].
  intros Hown Hopen Hall i lim t Hn.
  cbn [calls].
  destruct (rateLimit_eq key lim1 windowMs t1 s Hown) as (Hr & He & _).
  assert (Hcur : current s key windowMs t1 = mkEntry 0 (t1 + windowMs)).
  { unfold current. unfold openWindow in Hopen.
    destruct (s key) as [e|]; [|reflexivity].
    apply negb_false_iff in Hopen. rewrite Hopen. reflexivity. }
  rewrite Hcur in Hr, He. cbn [count resetTime] in Hr, He.
  destruct (rateLimit key lim1 windowMs t1 s) as [r s1].
  cbn [fst snd] in Hr, He.
  pose proof (calls_open reqs key windowMs (0 + 1) (t1 + windowMs) s1
                Hown He Hall) as Hrest.
  destruct (calls key windowMs reqs s1) as [rs s2]. cbn [fst] in Hrest |- *.
  destruct i as [|i]; cbn [nth_error] in Hn |- *.
  - inversion Hn; subst. cbn [Z.of_nat]. rewrite <- Z.leb_antisym.
    reflexivity.
  - rewrite (Hrest i lim t Hn).
    replace (0 + 1 + Z.of_nat i + 1) with (Z.of_nat (S i) + 1) by lia.
    reflexivity.
Qed.

Lemma window_counts_calls_witness :
  (inherited "203.0.113.7" = false
   /\ openWindow emptyStore "203.0.113.7" 1000 = false
   /\ nth_error
        (fst (calls "203.0.113.7" 60000 [(2, 1000); (2, 1500); (2, 61000)]
                    emptyStore)) 2 =
      Some (mkResult false 2 (Some 0) (Some 61000)))
  /\ (inherited "constructor" = true
      /\ fst (calls "constructor" 60000 [(0, 1000); (0, 1001)] emptyStore) =
         [mkResult true 0 None None; mkResult true 0 None None]).
Proof.
  split.
  - split; [reflexivity|]. split; [reflexivity|].
    refine (proj1 (window_counts_calls [(2, 1500); (2, 61000)] "203.0.113.7"
                     60000 2 1000 emptyStore)
                  eq_refl eq_refl _ 2%nat 2 61000 eq_refl).
    repeat constructor; cbn; lia.
  - split; [reflexivity|].
    rewrite (proj2 (window_counts_calls [(0, 1000); (0, 1001)] "constructor"
                      60000 0 0 emptyStore) eq_refl).
    reflexivity.
Defined.

(** X2. A refused identity stays refused until its window ends and is
    let through again by the first call after it: a refused call
    reports a reset time; every later call with the same limit whose
    clock is not past it is refused too, and a call past it is let
    through (for a limit of at least 1) and opens a new window. *)
Theorem refusal_lasts_until_reset :
  forall (key : string) (lim windowMs now : Z) (s : Store),
    success (fst (rateLimit key lim windowMs now s)) = false ->
    let r := fst (rateLimit key lim windowMs now s) in
    let s' := snd (rateLimit key lim windowMs now s) in
    exists R : Z,
      reset r = Some R
      /\ (forall later, later <= R ->
            success (fst (rateLimit key lim windowMs later s')) = false)
      /\ (forall later, R < later -> 1 <= lim ->
            fst (rateLimit key lim windowMs later s') =
            mkResult true lim (Some (lim - 1)) (Some (later + windowMs))).
Proof.
  intros key lim windowMs now s Hrefused r s'. subst r s'.
  destruct (inherited key) eqn:Hown.
  { rewrite (rateLimit_inherited key lim windowMs now s Hown) in Hrefused.
    discriminate Hrefused. }
  destruct (rateLimit_eq key lim windowMs now s Hown) as (Hr & He & _).
  set (e := current s key windowMs now) in *.
  rewrite Hr in Hrefused. cbn [success] in Hrefused.
  apply negb_false_iff, Z.ltb_lt in Hrefused.
  rewrite Hr. cbn [reset]. exists (resetTime e).
  split; [reflexivity|]. split.
  - intros later Hlater.
    destruct (rateLimit_eq key lim windowMs later
                (snd (rateLimit key lim windowMs now s)) Hown) as (Hr2 & _).
    rewrite Hr2. cbn [success]. unfold current. rewrite He.
    cbn [resetTime count].
    destruct (resetTime e <? later) eqn:Hlt;
      [apply Z.ltb_lt in Hlt; lia|].
    cbn [count]. apply negb_false_iff, Z.ltb_lt. lia.
  - intros later Hlater Hlim.
    destruct (rateLimit_eq key lim windowMs later
                (snd (rateLimit key lim windowMs now s)) Hown) as (Hr2 & _).
    rewrite Hr2. unfold current. rewrite He. cbn [resetTime count].
    apply Z.ltb_lt in Hlater. rewrite Hlater. cbn [count resetTime].
    f_equal.
    + apply negb_true_iff, Z.ltb_ge. lia.
    + f_equal. lia.
Qed.

(** Two calls of a limit of 2 have used up the window opened at 1000;
    the third, at 1002, is refused. *)
Lemma refusal_lasts_until_reset_witness :
  let s := snd (calls "k" 60000 [(2, 1000); (2, 1001)] emptyStore) in
  let s' := snd (rateLimit "k" 2 60000 1002 s) in
  fst (rateLimit "k" 2 60000 1002 s) = mkResult false 2 (Some 0) (Some 61000)
  /\ success (fst (rateLimit "k" 2 60000 61000 s')) = false
  /\ fst (rateLimit "k" 2 60000 61001 s') =
     mkResult true 2 (Some 1) (Some 121001).
Proof.
  cbn zeta.
  set (s := snd (calls "k" 60000 [(2, 1000); (2, 1001)] emptyStore)).
  destruct (refusal_lasts_until_reset "k" 2 60000 1002 s eq_refl)
    as (R & HR & Hkept & Hfreed).
  assert (HR' : R = 61000) by (vm_compute in HR; congruence).
  subst R.
  split; [reflexivity|]. split.
  - apply Hkept. lia.
  - exact (Hfreed 61001 ltac:(lia) ltac:(lia)).
Defined.

Lemma current_cleanup :
  forall (s : Store) (key : string) (windowMs before now : Z),
    before <= now ->
    current (cleanup before s) key windowMs now = current s key windowMs now.
Proof.
  intros s key windowMs before now Hle. unfold current, cleanup.
  destruct (s key) as [e|]; [|reflexivity].
  destruct (resetTime e <? before) eqn:Hb; [|reflexivity].
  apply Z.ltb_lt in Hb.
  assert (Hn : (resetTime e <? now) = true) by (apply Z.ltb_lt; lia).
  rewrite Hn. reflexivity.
Qed.

(** X3. The periodic [cleanup] is invisible to callers: a run of calls
    whose clocks are not before the clean-up gets the same answers with
    and without it. *)
Theorem cleanup_is_invisible :
  forall (reqs : list (Z * Z)) (key : string) (windowMs before : Z)
         (s : Store),
    Forall (fun q => before <= snd q) reqs ->
    fst (calls key windowMs reqs (cleanup before s)) =
    fst (calls key windowMs reqs s).
Proof.
  intros reqs key windowMs before s Hall.
  destruct (inherited key) eqn:Hown.
  { rewrite !(calls_inherited reqs key windowMs _ Hown). reflexivity. }
  destruct reqs as [|[lim t] rest]; [reflexivity|].
  inversion Hall as [|q qs Ht _]; subst. cbn [snd] in Ht. cbn [calls].
  destruct (rateLimit_eq key lim windowMs t (cleanup before s) Hown)
    as (Hr & He & _).
  destruct (rateLimit_eq key lim windowMs t s Hown) as (Hr' & He' & _).
  rewrite (current_cleanup s key windowMs before t Ht) in Hr, He.
  destruct (rateLimit key lim windowMs t (cleanup before s)) as [r s1].
  destruct (rateLimit key lim windowMs t s) as [r' s1'].
  cbn [fst snd] in *.
  assert (Hs1 : s1 key = s1' key) by (rewrite He, He'; reflexivity).
  destruct (calls_same_entry rest key windowMs s1 s1' Hs1) as [Hf _].
  destruct (calls key windowMs rest s1) as [rs s2].
  destruct (calls key windowMs rest s1') as [rs' s2'].
  cbn [fst] in *. subst. reflexivity.
Qed.

Lemma cleanup_is_invisible_witness :
  fst (calls "k" 60000 [(1, 70000); (1, 70001)]
             (cleanup 65000 (snd (rateLimit "k" 1 60000 1000 emptyStore)))) =
  fst (calls "k" 60000 [(1, 70000); (1, 70001)]
             (snd (rateLimit "k" 1 60000 1000 emptyStore))).
Proof.
  refine (cleanup_is_invisible [(1, 70000); (1, 70001)] "k" 60000 65000
            (snd (rateLimit "k" 1 60000 1000 emptyStore)) _).
  repeat constructor; cbn; lia.
Defined.

Lemma calls_other_key :
  forall (reqs : list (Z * Z)) (key other : string) (windowMs : Z)
         (s : Store),
    other <> key -> snd (calls key windowMs reqs s) other = s other.
Proof.
  intros reqs key other windowMs s Hne.
  destruct (inherited key) eqn:Hown.
  { rewrite (calls_inherited reqs key windowMs s Hown). reflexivity. }
  revert s.
  induction reqs as [|[lim t] rest IH]; intros s.
  - reflexivity.
  - cbn [calls].
    destruct (rateLimit_eq key lim windowMs t s Hown) as (_ & _ & Hframe).
    destruct (rateLimit key lim windowMs t s) as [r s1]. cbn [snd] in Hframe.
    specialize (IH s1).
    destruct (calls key windowMs rest s1) as [rs s2]. cbn [snd] in *.
    rewrite IH. apply Hframe. exact Hne.
Qed.

(** X4. Identities do not share a budget: whatever another identity
    sent before, in any windows, the answers to this identity's calls
    are the same. *)
Theorem identities_are_independent :
  forall (mine theirs : list (Z * Z)) (key other : string)
         (windowMs windowMs' : Z) (s : Store),
    other <> key ->
    fst (calls key windowMs mine (snd (calls other windowMs' theirs s))) =
    fst (calls key windowMs mine s).
Proof.
  intros mine theirs key other windowMs windowMs' s Hne.
  apply calls_same_entry. apply calls_other_key.
  intros Heq. apply Hne. symmetry. exact Heq.
Qed.

Lemma identities_are_independent_witness :
  "203.0.113.9" <> "203.0.113.7"
  /\ fst (calls "203.0.113.7" 60000 [(1, 2000)]
               (snd (calls "203.0.113.9" 60000 [(1, 1000); (1, 1001)]
                           emptyStore))) =
     fst (calls "203.0.113.7" 60000 [(1, 2000)] emptyStore).
Proof.
  assert (Hne : "203.0.113.9" <> "203.0.113.7") by discriminate.
  split; [exact Hne|].
  exact (identities_are_independent [(1, 2000)] [(1, 1000); (1, 1001)]
           "203.0.113.7" "203.0.113.9" 60000 60000 emptyStore Hne).
Defined.

(** The two answers of a wrapped route: a refused call is answered 429
    with the seconds left of the window, rounded up, and the handler is
    not run; a call that is let through gets the handler's response. *)
Lemma withRateLimit_cases :
  forall (A W : Type) (lim windowMs : Z) (msg : string)
         (handler : W -> A * W) (key : string) (now later : Z) (s : Store)
         (w : W),
    let r := fst (rateLimit key lim windowMs now s) in
    let out := withRateLimit lim windowMs msg handler key now later s w in
    snd (fst out) = snd (rateLimit key lim windowMs now s)
    /\ (success r = false ->
        fst (fst out) =
        TooMany msg
                (option_map (fun R => ceilSeconds (R - later)) (reset r))
                (limit r, remaining r, reset r)
        /\ snd out = w)
    /\ (success r = true ->
        fst (fst out) =
        Handled (fst (handler w)) (limit r, remaining r, reset r)
        /\ snd out = snd (handler w)).
Proof.
  intros A W lim windowMs msg handler key now later s w r out. subst r out.
  unfold withRateLimit.
  destruct (rateLimit key lim windowMs now s) as [r s1] eqn:Hrl.
  cbn [fst snd].
  destruct (success r) eqn:Hsuc; cbn [negb].
  - destruct (handler w) as [a w'] eqn:Hh. cbn [fst snd].
    split; [reflexivity|]. split; [discriminate|].
    intros _. auto.
  - cbn [fst snd]. split; [reflexivity|].
    split; [|discriminate]. intros _. split; reflexivity.
Qed.

End RateLimitFacts.

(** ** Reading chunks back *)

Module ChunkReadsFacts.
Import Model Ingest ChunkReads.

Local Open Scope string_scope.
Local Open Scope list_scope.

Lemma insertByCreated_perm :
  forall (r : ChunkRow) (l : list ChunkRow),
    Permutation (insertByCreated r l) (r :: l).
Proof.
  induction l as [|x tl IH]; simpl; [reflexivity|].
  destruct (String.leb (created_at r) (created_at x)); [reflexivity|].
  rewrite IH. apply perm_swap.
Qed.

Lemma orderByCreated_perm :
  forall l : list ChunkRow, Permutation (orderByCreated l) l.
Proof.
  induction l as [|r tl IH]; simpl; [reflexivity|].
  rewrite insertByCreated_perm. apply perm_skip. exact IH.
Qed.

Lemma ascii_compare_eq :
  forall a b : ascii, Ascii.compare a b = Eq -> a = b.
Proof.
  intros a b H. unfold Ascii.compare in H. apply N.compare_eq in H.
  rewrite <- (ascii_N_embedding a), <- (ascii_N_embedding b), H.
  reflexivity.
Qed.

Lemma compare_lt_trans :
  forall a b c : string,
    String.compare a b = Lt -> String.compare b c = Lt ->
    String.compare a c = Lt.
Proof.
  induction a as [|x a IH]; intros [|y b] [|z c] Hab Hbc;
    simpl in *; try discriminate; try reflexivity.
  destruct (Ascii.compare x y) eqn:Cxy; try discriminate;
    destruct (Ascii.compare y z) eqn:Cyz; try discriminate.
  - apply ascii_compare_eq in Cxy, Cyz. subst.
    assert (Hzz : Ascii.compare z z = Eq)
      by (unfold Ascii.compare; apply N.compare_refl).
    rewrite Hzz. exact (IH b c Hab Hbc).
  - apply ascii_compare_eq in Cxy. subst. rewrite Cyz. reflexivity.
  - apply ascii_compare_eq in Cyz. subst. rewrite Cxy. reflexivity.
  - unfold Ascii.compare in *.
    rewrite N.compare_lt_iff in *.
    assert (Hxz : (N_of_ascii x < N_of_ascii z)%N) by lia.
    apply N.compare_lt_iff in Hxz. rewrite Hxz. reflexivity.
Qed.

Lemma leb_trans :
  forall a b c : string,
    String.leb a b = true -> String.leb b c = true -> String.leb a c = true.
Proof.
  intros a b c Hab Hbc. unfold String.leb in *.
  destruct (String.compare a b) eqn:Cab; try discriminate;
    destruct (String.compare b c) eqn:Cbc; try discriminate.
  - apply String.compare_eq_iff in Cab. subst. rewrite Cbc. reflexivity.
  - apply String.compare_eq_iff in Cab. subst. rewrite Cbc. reflexivity.
  - apply String.compare_eq_iff in Cbc. subst. rewrite Cab. reflexivity.
  - rewrite (compare_lt_trans _ _ _ Cab Cbc). reflexivity.
Qed.

Lemma insertByCreated_sorted :
  forall (r : ChunkRow) (l : list ChunkRow),
    ascending l -> ascending (insertByCreated r l).
Proof.
  unfold ascending. induction l as [|x tl IH]; intros Hs; simpl.
  - constructor; constructor.
  - inversion Hs as [|y ys Htl Hall]; subst.
    destruct (String.leb (created_at r) (created_at x)) eqn:Hle.
    + constructor; [exact Hs|]. constructor; [exact Hle|].
      eapply Forall_impl; [|exact Hall].
      intros z Hz. exact (leb_trans _ _ _ Hle Hz).
    + constructor; [apply IH; exact Htl|].
      assert (Hxr : String.leb (created_at x) (created_at r) = true).
      { destruct (String.leb_total (created_at x) (created_at r))
          as [H|H]; [exact H|congruence]. }
      eapply Permutation_Forall;
        [symmetry; apply insertByCreated_perm|].
      constructor; assumption.
Qed.

Lemma orderByCreated_sorted :
  forall l : list ChunkRow, ascending (orderByCreated l).
Proof.
  induction l as [|r tl IH]; simpl; [constructor|].
  apply insertByCreated_sorted. exact IH.
Qed.

(** X5. A successful [GET] lists exactly the stored chunks of the
    session asked for, each as often as it is stored, in ascending
    order of creation; without a session id the answer is 400 and with
    a failing query 500. *)
Theorem GET_lists_the_session :
  forall (db : Db) (sid : string),
    sid <> "" ->
    exists rows,
      GET false (Some sid) db = G_rows rows
      /\ Permutation rows
           (filter (fun r => String.eqb (session_id r) sid)
                   (session_chunks db))
      /\ ascending rows
      /\ (forall r, In r rows <->
                    In r (session_chunks db) /\ session_id r = sid)
      /\ GET true (Some sid) db = G_error 500 "Failed to fetch chunks"
      /\ GET false None db = G_error 400 "Session ID is required"
      /\ GET false (Some "") db = G_error 400 "Session ID is required".
Proof.
  intros db sid Hsid. apply String.eqb_neq in Hsid.
  eexists. unfold GET. rewrite Hsid.
  split; [reflexivity|]. split; [apply orderByCreated_perm|].
  split; [apply orderByCreated_sorted|]. split; [|auto].
  intros r. split.
  - intros Hin.
    apply (Permutation_in _ (orderByCreated_perm _)) in Hin.
    apply filter_In in Hin. destruct Hin as [Hin Heq].
    apply String.eqb_eq in Heq. auto.
  - intros [Hin Heq].
    apply (Permutation_in _ (Permutation_sym (orderByCreated_perm _))).
    apply filter_In. split; [exact Hin|]. apply String.eqb_eq. exact Heq.
Qed.

Lemma GET_lists_the_session_witness :
  "s1" <> ""
  /\ exists rows,
      GET false (Some "s1")
          (snd (POST plainHostAndPort envA
                     (chunkRequest "k-live" "s1" "http://shop.test/cart"
                                   collidingA) shopDb)) = G_rows rows
      /\ ascending rows.
Proof.
  assert (Hs : "s1" <> "") by discriminate.
  split; [exact Hs|].
  destruct (GET_lists_the_session
              (snd (POST plainHostAndPort envA
                         (chunkRequest "k-live" "s1" "http://shop.test/cart"
                                       collidingA) shopDb)) "s1" Hs)
    as (rows & Hget & _ & Hasc & _).
  exists rows. split; assumption.
Defined.

Section Handler.

Variable hostAndPort : string -> option string.

(** The two ways a call of [POST] can go: it answers with an error or
    with [No events to save] and leaves the store alone, or it gets to
    the duplicate check, on the given store or on the given store with
    the session row added. *)
Lemma POST_cases :
  forall (env : Env) (req : Request) (db : Db),
    (snd (POST hostAndPort env req db) = db
     /\ (payload (fst (POST hostAndPort env req db)) =
         P_message "No events to save"
         \/ exists e, payload (fst (POST hostAndPort env req db)) = P_error e))
    \/ exists b evs dbs,
        body req = Some b /\ events b = Some evs
        /\ (dbs = db
            \/ (dbs = insertSession db
                        (mkSession (sessionId b) (url b) (now env))
                /\ existsb (fun r => String.eqb (id r) (sessionId b))
                           (sessions db) = false))
        /\ (exists s, In s (sessions dbs) /\ id s = sessionId b)
        /\ POST hostAndPort env req db = storeChunk env (sessionId b) evs dbs.
Proof.
  intros env req db. unfold POST.
  destruct (apiKey req) as [k|]; [|left; split; [reflexivity|right; eexists; reflexivity]].
  destruct (String.eqb k ""); [left; split; [reflexivity|right; eexists; reflexivity]|].
  destruct (body req) as [b|] eqn:Hb; [|left; split; [reflexivity|right; eexists; reflexivity]].
  destruct (events b) as [evs|] eqn:Hev;
    [|left; split; [reflexivity|right; eexists; reflexivity]].
  destruct (String.eqb (sessionId b) "");
    [left; split; [reflexivity|right; eexists; reflexivity]|].
  destruct (Nat.eqb (List.length evs) 0);
    [left; split; [reflexivity|left; reflexivity]|].
  destruct (single (keyRows db k)) as [kd|];
    [|left; split; [reflexivity|right; eexists; reflexivity]].
  destruct (negb _); [left; split; [reflexivity|right; eexists; reflexivity]|].
  destruct (single (sessionRows db (sessionId b))) as [srow|] eqn:Hs.
  - right. exists b, evs, db. repeat split; auto.
    exists srow. unfold single, sessionRows in Hs.
    destruct (filter _ (sessions db)) as [|x [|y rest]] eqn:Hf;
      try discriminate.
    inversion Hs; subst x.
    assert (Hin : In srow (filter (fun r => String.eqb (id r) (sessionId b))
                                  (sessions db)))
      by (rewrite Hf; left; reflexivity).
    apply filter_In in Hin. destruct Hin as [Hin Heq].
    apply String.eqb_eq in Heq. auto.
  - destruct (createSessionError env); cbn [orb];
      [left; split; [reflexivity|right; eexists; reflexivity]|].
    destruct (existsb _ (sessions db)) eqn:Hex;
      [left; split; [reflexivity|right; eexists; reflexivity]|].
    right. exists b, evs,
      (insertSession db (mkSession (sessionId b) (url b) (now env))).
    repeat split; auto.
    exists (mkSession (sessionId b) (url b) (now env)).
    split; [|reflexivity]. unfold insertSession. cbn [sessions].
    apply in_or_app. right. left. reflexivity.
Qed.

Lemma storeChunk_cases :
  forall (env : Env) (sid : string) (evs : list JsonEvent) (db : Db),
    (snd (storeChunk env sid evs db) = db
     /\ (fst (storeChunk env sid evs db) =
         mkResponse 200 (P_success (Some "Duplicate chunk skipped"))
         \/ fst (storeChunk env sid evs db) =
            mkResponse 500 (P_error "Failed to save chunk")))
    \/ (storeChunk env sid evs db =
        (mkResponse 200 (P_success None),
         insertChunk db
           (mkChunk sid evs (generateChunkHash (random env) sid evs)
                    (now env)))).
Proof.
  intros env sid evs db. unfold storeChunk.
  destruct (single _); [left; auto|].
  destruct (insertError env); [left; auto|right; reflexivity].
Qed.

(** X6. [POST] only ever appends: the key table is never touched, the
    stored sessions and chunks stay as they are and in place, and a call
    adds at most one session row and at most one chunk row.  A chunk row
    is added only together with the answer [success: true] that carries
    no message, and an answer with status 400 or 401 leaves the whole
    store unchanged. *)
Theorem POST_only_appends :
  forall (env : Env) (req : Request) (db : Db),
    let r := fst (POST hostAndPort env req db) in
    let db' := snd (POST hostAndPort env req db) in
    api_keys db' = api_keys db
    /\ (exists ss cs,
          sessions db' = sessions db ++ ss
          /\ session_chunks db' = session_chunks db ++ cs
          /\ (List.length ss <= 1)%nat /\ (List.length cs <= 1)%nat
          /\ (cs <> [] -> r = mkResponse 200 (P_success None)))
    /\ (status r = 400%Z \/ status r = 401%Z -> db' = db).
Proof.
  intros env req db r db'. subst r db'.
  destruct (POST_cases env req db)
    as [[Hdb Hpay]|(b & evs & dbs & Hb & Hev & Hdbs & _ & HP)].
  - rewrite Hdb. split; [reflexivity|]. split; [|reflexivity].
    exists [], []. rewrite !app_nil_r. repeat split; auto.
    intros H. contradiction.
  - rewrite HP.
    assert (Hk : api_keys dbs = api_keys db)
      by (destruct Hdbs as [->|[-> _]]; reflexivity).
    assert (Hc : session_chunks dbs = session_chunks db)
      by (destruct Hdbs as [->|[-> _]]; reflexivity).
    assert (Hs : exists ss, sessions dbs = sessions db ++ ss
                            /\ (List.length ss <= 1)%nat).
    { destruct Hdbs as [->|[-> _]].
      - exists []. rewrite app_nil_r. auto.
      - eexists. split; [reflexivity|]. simpl. lia. }
    destruct Hs as (ss & Hss & Hlen).
    destruct (storeChunk_cases env (sessionId b) evs dbs)
      as [[Hsame Hresp]|Hins].
    + rewrite Hsame. split; [exact Hk|]. split.
      * exists ss, []. rewrite app_nil_r. repeat split; auto.
        intros H. contradiction.
      * intros [H4|H4]; destruct Hresp as [Hr|Hr]; rewrite Hr in H4;
          discriminate.
    + rewrite Hins. cbn [fst snd]. split; [exact Hk|]. split.
      * exists ss, [mkChunk (sessionId b) evs
                         (generateChunkHash (random env) (sessionId b) evs)
                         (now env)].
        unfold insertChunk. cbn [sessions session_chunks].
        rewrite Hss, Hc. repeat split; auto.
      * intros [H4|H4]; discriminate.
Qed.

(** X7. In every store the endpoint can build, no two sessions share an
    id and every stored chunk belongs to a stored session. *)
Theorem reachable_wellKeyed :
  forall db : Db, reachable hostAndPort db -> wellKeyed db.
Proof.
  intros db Hr. induction Hr as [keys|env req db Hr [Hnd Hown]].
  - split; [constructor|]. intros c [].
  - destruct (POST_cases env req db)
      as [[Hdb _]|(b & evs & dbs & Hb & Hev & Hdbs & Hsess & HP)].
    + rewrite Hdb. split; assumption.
    + rewrite HP.
      assert (Hwk : wellKeyed dbs).
      { destruct Hdbs as [->|[-> Hex]]; [split; assumption|].
        unfold wellKeyed, insertSession. cbn [sessions session_chunks].
        split.
        - rewrite map_app. cbn [map id].
          apply NoDup_app; [exact Hnd|constructor; [intros []|constructor]|].
          intros x Hin [Heq|[]]. subst x.
          apply in_map_iff in Hin. destruct Hin as (srow & Hid & Hin).
          assert (Htrue : existsb (fun r => String.eqb (id r) (sessionId b))
                                  (sessions db) = true).
          { apply existsb_exists. exists srow. split; [exact Hin|].
            apply String.eqb_eq. exact Hid. }
          congruence.
        - intros c Hin. destruct (Hown c Hin) as (srow & Hs & Hid).
          exists srow. split; [apply in_or_app; left; exact Hs|exact Hid]. }
      destruct Hwk as [Hnd' Hown'].
      destruct (storeChunk_cases env (sessionId b) evs dbs)
        as [[Hsame _]|Hins].
      * rewrite Hsame. split; assumption.
      * rewrite Hins. cbn [snd]. unfold wellKeyed, insertChunk.
        cbn [sessions session_chunks]. split; [exact Hnd'|].
        intros c Hin. apply in_app_or in Hin.
        destruct Hin as [Hin|[Heq|[]]]; [exact (Hown' c Hin)|].
        subst c. cbn [session_id]. exact Hsess.
Qed.

(** X8. What is stored can be read back: after a call of [POST] that
    is answered [success: true] without a message, the listing of the
    request's session holds a row with exactly the request's events, its
    fingerprint and the time of the call, and the listing of every other
    session is what it was. *)
Theorem stored_chunk_is_listed :
  forall (env : Env) (req : Request) (db : Db),
    fst (POST hostAndPort env req db) = mkResponse 200 (P_success None) ->
    exists b evs,
      body req = Some b /\ events b = Some evs
      /\ In (mkChunk (sessionId b) evs
                     (generateChunkHash (random env) (sessionId b) evs)
                     (now env))
            (listed (sessionId b) (snd (POST hostAndPort env req db)))
      /\ forall other,
          other <> sessionId b ->
          listed other (snd (POST hostAndPort env req db)) = listed other db.
Proof.
  intros env req db Hresp.
  destruct (POST_cases env req db)
    as [[_ Hpay]|(b & evs & dbs & Hb & Hev & Hdbs & Hsess & HP)].
  - rewrite Hresp in Hpay. cbn [payload] in Hpay.
    destruct Hpay as [H|[e H]]; discriminate.
  - rewrite HP in Hresp |- *.
    assert (Hc : session_chunks dbs = session_chunks db)
      by (destruct Hdbs as [->|[-> _]]; reflexivity).
    assert (Hsid : String.eqb (sessionId b) "" = false).
    { revert HP. unfold POST. rewrite Hb.
      destruct (apiKey req) as [k|];
        [|intros HP; rewrite <- HP in Hresp; discriminate].
      destruct (String.eqb k "");
        [intros HP; rewrite <- HP in Hresp; discriminate|].
      rewrite Hev. destruct (String.eqb (sessionId b) "");
        [intros HP; rewrite <- HP in Hresp; discriminate|reflexivity]. }
    destruct (storeChunk_cases env (sessionId b) evs dbs)
      as [[_ [Hr|Hr]]|Hins]; try (rewrite Hr in Hresp; discriminate).
    rewrite Hins. cbn [snd].
    exists b, evs. split; [exact Hb|]. split; [exact Hev|]. split.
    + unfold listed, GET. rewrite Hsid.
      apply (Permutation_in _ (Permutation_sym (orderByCreated_perm _))).
      apply filter_In. cbn [session_id]. rewrite String.eqb_refl.
      split; [|reflexivity].
      unfold insertChunk. cbn [session_chunks].
      apply in_or_app. right. left. reflexivity.
    + intros other Hother. unfold listed, GET.
      destruct (String.eqb other ""); [reflexivity|].
      unfold insertChunk. cbn [session_chunks].
      rewrite filter_app, Hc. cbn [filter session_id].
      assert (Hne : String.eqb (sessionId b) other = false).
      { apply String.eqb_neq. intros H. apply Hother. symmetry. exact H. }
      rewrite Hne, app_nil_r. reflexivity.
Qed.

End Handler.

Lemma POST_only_appends_witness :
  snd (POST plainHostAndPort envA
            (chunkRequest "bogus" "s1" "http://shop.test/cart" collidingA)
            shopDb) = shopDb.
Proof.
  refine (proj2 (proj2 (POST_only_appends plainHostAndPort envA
            (chunkRequest "bogus" "s1" "http://shop.test/cart" collidingA)
            shopDb)) _).
  right. reflexivity.
Defined.

Lemma reachable_wellKeyed_witness :
  wellKeyed
    (snd (POST plainHostAndPort envA
               (chunkRequest "k-live" "s1" "http://shop.test/cart" collidingA)
               shopDb)).
Proof.
  apply (reachable_wellKeyed plainHostAndPort).
  apply reach_POST. apply (reach_fresh plainHostAndPort).
Defined.

Lemma stored_chunk_is_listed_witness :
  exists b evs,
    body (chunkRequest "k-live" "s1" "http://shop.test/cart" collidingA) =
    Some b
    /\ events b = Some evs
    /\ In (mkChunk (sessionId b) evs
                   (generateChunkHash (random envA) (sessionId b) evs)
                   (now envA))
          (listed (sessionId b)
                  (snd (POST plainHostAndPort envA
                             (chunkRequest "k-live" "s1"
                                "http://shop.test/cart" collidingA) shopDb))).
Proof.
  destruct (stored_chunk_is_listed plainHostAndPort envA
              (chunkRequest "k-live" "s1" "http://shop.test/cart" collidingA)
              shopDb eq_refl) as (b & evs & Hb & Hev & Hin & _).
  exists b, evs. auto.
Defined.

End ChunkReadsFacts.

(** ** The sessions route *)

Module SessionsRouteFacts.
Import Model SessionsRoute.

Local Open Scope string_scope.
Local Open Scope list_scope.

(** *** Substrings *)

Lemma prefix_split :
  forall p s : string,
    String.prefix p s = true <-> exists post, s = (p ++ post)%string.
Proof.
  induction p as [|a p IH]; intros s.
  - split; [intros _; exists s; reflexivity|intros _; destruct s; reflexivity].
  - destruct s as [|c s]; simpl.
    + split; [discriminate|intros [post H]; discriminate].
    + destruct (ascii_dec a c) as [->|Hne].
      * rewrite IH. split; intros [post H]; exists post.
        -- rewrite H. reflexivity.
        -- inversion H. reflexivity.
      * split; [discriminate|].
        intros [post H]. inversion H. congruence.
Qed.

Lemma includes_split :
  forall s sub : string,
    includes s sub = true <->
    exists pre post, s = (pre ++ sub ++ post)%string.
Proof.
  induction s as [|c s IH]; intros sub.
  - cbn [includes]. rewrite orb_false_r, prefix_split. split.
    + intros [post H]. exists "", post. exact H.
    + intros (pre & post & H). destruct pre; [exists post; exact H|].
      discriminate.
  - cbn [includes]. rewrite orb_true_iff, prefix_split, IH. split.
    + intros [[post H]|(pre & post & H)].
      * exists "", post. exact H.
      * exists (String c pre), post. rewrite H. reflexivity.
    + intros (pre & post & H). destruct pre as [|a pre].
      * left. exists post. exact H.
      * right. inversion H. exists pre, post. reflexivity.
Qed.

(** *** Who may read and delete *)

(** X9. A request counts as coming from the application exactly when
    its [referer] or its [origin] header is not empty and contains, at
    any position, the [host] header, [localhost:3000] or
    [localhost:4000]: the test is on substrings, not on the origin's
    host.  A request with neither header is refused. *)
Theorem allowed_domain_is_substring_test :
  forall h : Headers,
    (isRequestFromAllowedDomain h = true <->
     exists hdr d pre post,
       (hdr = referer h \/ hdr = origin h) /\ hdr <> ""
       /\ In d (getAllowedDomains (host h))
       /\ hdr = (pre ++ d ++ post)%string)
    /\ (referer h = "" -> origin h = "" ->
        isRequestFromAllowedDomain h = false).
Proof.
  intros h.
  assert (Hside : forall hdr,
             negb (String.eqb hdr "")
             && existsb (fun domain => includes hdr domain)
                        (getAllowedDomains (host h)) = true <->
             hdr <> ""
             /\ exists d pre post,
                 In d (getAllowedDomains (host h))
                 /\ hdr = (pre ++ d ++ post)%string).
  { intros hdr. rewrite andb_true_iff, negb_true_iff, String.eqb_neq.
    rewrite existsb_exists. split.
    - intros [Hne (d & Hin & Hinc)]. split; [exact Hne|].
      apply includes_split in Hinc. destruct Hinc as (pre & post & Heq).
      exists d, pre, post. auto.
    - intros [Hne (d & pre & post & Hin & Heq)]. split; [exact Hne|].
      exists d. split; [exact Hin|]. apply includes_split. eauto. }
  split.
  - unfold isRequestFromAllowedDomain. cbv zeta.
    rewrite orb_true_iff, !Hside. split.
    + intros [[Hne (d & pre & post & Hin & Heq)]
             |[Hne (d & pre & post & Hin & Heq)]].
      * exists (referer h), d, pre, post. auto.
      * exists (origin h), d, pre, post. auto.
    + intros (hdr & d & pre & post & [Hh|Hh] & Hne & Hin & Heq); subst hdr.
      * left. split; [exact Hne|]. exists d, pre, post. auto.
      * right. split; [exact Hne|]. exists d, pre, post. auto.
  - intros Hr Ho. unfold isRequestFromAllowedDomain. rewrite Hr, Ho.
    reflexivity.
Qed.

Lemma allowed_domain_is_substring_test_witness :
  isRequestFromAllowedDomain
    (mkHeaders "" "https://localhost:3000.attacker.example"
               "replay.example") = true.
Proof.
  apply (proj1 (allowed_domain_is_substring_test
                  (mkHeaders "" "https://localhost:3000.attacker.example"
                             "replay.example"))).
  exists "https://localhost:3000.attacker.example", "localhost:3000",
    "https://", ".attacker.example".
  split; [right; reflexivity|]. split; [discriminate|].
  split; [right; left; reflexivity|reflexivity].
Defined.

(** *** Upserts *)

Lemma idRows_unique :
  forall (db : Store) (row : SessionRow),
    NoDup (map id (sessions db)) ->
    In row (sessions db) ->
    idRows db (id row) = [row].
Proof.
  intros db row. unfold idRows.
  induction (sessions db) as [|x rows IH]; intros Hnd Hin; [contradiction|].
  inversion Hnd as [|y ys Hnotin Hnd']; subst. cbn [filter].
  assert (Hnone : forall i, ~ In i (map id rows) ->
                            filter (fun r => String.eqb (id r) i) rows = []).
  { clear. intros i. induction rows as [|r rows IH]; intros Hn;
      [reflexivity|].
    cbn [filter]. destruct (String.eqb_spec (id r) i) as [Heq|Hne].
    - exfalso. apply Hn. left. exact Heq.
    - apply IH. intros H. apply Hn. right. exact H. }
  destruct Hin as [Heq|Hin].
  - subst x. rewrite String.eqb_refl, (Hnone _ Hnotin). reflexivity.
  - destruct (String.eqb_spec (id x) (id row)) as [Heq|Hne].
    + exfalso. apply Hnotin. rewrite Heq. apply in_map. exact Hin.
    + apply IH; assumption.
Qed.

Lemma map_refresh_ids :
  forall (b : Body) (ex : SessionRow) (rows : list SessionRow),
    map id (map (fun r => if String.eqb (id r) (b_id b)
                          then refresh b ex r else r) rows) =
    map id rows.
Proof.
  intros b ex rows. rewrite map_map. apply map_ext.
  intros r. destruct (String.eqb (id r) (b_id b)); reflexivity.
Qed.

Section Handlers.

Variable hostname : string -> option string.

(** The two ways an upsert can be answered with status 200. *)
Lemma createSession_cases :
  forall (env : Env) (apiKey : option string) (body : option Body)
         (db : Store),
    (snd (createSessionHandler hostname env apiKey body db) = db
     /\ exists st e,
         fst (createSessionHandler hostname env apiKey body db) =
         mkResponse st (R_error e) /\ st <> 200%Z)
    \/ exists b,
        body = Some b /\ b_id b <> "" /\ b_url b <> ""
        /\ ((exists ex,
               Ingest.single (idRows db (b_id b)) = Some ex
               /\ createSessionHandler hostname env apiKey body db =
                  (mkResponse 200 (R_row (refresh b ex ex)),
                   mkStore (api_keys db)
                     (map (fun r => if String.eqb (id r) (b_id b)
                                    then refresh b ex r else r)
                          (sessions db))
                     (session_chunks db)))
            \/ (existsb (fun r => String.eqb (id r) (b_id b))
                        (sessions db) = false
                /\ createSessionHandler hostname env apiKey body db =
                   (mkResponse 200 (R_row (created b (now env))),
                    mkStore (api_keys db)
                      (sessions db ++ [created b (now env)])
                      (session_chunks db)))).
Proof.
  intros env apiKey body db. unfold createSessionHandler.
  destruct apiKey as [k|];
    [|left; split; [reflexivity|do 2 eexists; split;
                                [reflexivity|discriminate]]].
  destruct (String.eqb k "");
    [left; split; [reflexivity|do 2 eexists; split;
                               [reflexivity|discriminate]]|].
  destruct body as [b|];
    [|left; split; [reflexivity|do 2 eexists; split;
                                [reflexivity|discriminate]]].
  destruct (String.eqb (b_id b) "") eqn:Hid; cbn [orb];
    [left; split; [reflexivity|do 2 eexists; split;
                               [reflexivity|discriminate]]|].
  destruct (String.eqb (b_url b) "") eqn:Hurl;
    [left; split; [reflexivity|do 2 eexists; split;
                               [reflexivity|discriminate]]|].
  apply String.eqb_neq in Hid, Hurl.
  destruct (Ingest.single (keyRows db k)) as [kd|];
    [|left; split; [reflexivity|do 2 eexists; split;
                                [reflexivity|discriminate]]].
  destruct (hostname (Ingest.allowed_url kd)) as [a|];
    [|left; split; [reflexivity|do 2 eexists; split;
                                [reflexivity|discriminate]]].
  destruct (hostname (b_url b)) as [u|];
    [|left; split; [reflexivity|do 2 eexists; split;
                                [reflexivity|discriminate]]].
  destruct (negb (String.eqb a u));
    [left; split; [reflexivity|do 2 eexists; split;
                               [reflexivity|discriminate]]|].
  destruct (Ingest.single (idRows db (b_id b))) as [ex|] eqn:Hex.
  - destruct (storeError env);
      [left; split; [reflexivity|do 2 eexists; split;
                                 [reflexivity|discriminate]]|].
    right. exists b. repeat split; auto. left. exists ex. auto.
  - destruct (storeError env); cbn [orb];
      [left; split; [reflexivity|do 2 eexists; split;
                                 [reflexivity|discriminate]]|].
    destruct (existsb _ (sessions db)) eqn:Hexi;
      [left; split; [reflexivity|do 2 eexists; split;
                                 [reflexivity|discriminate]]|].
    right. exists b. repeat split; auto.
Qed.

(** X10. An upsert never touches the keys, the chunks or the rows of
    other sessions, keeps session ids unique, and changes nothing at
    all unless it is answered with status 200. *)
Theorem upsert_touches_one_session :
  forall (env : Env) (apiKey : option string) (body : option Body)
         (db : Store),
    let r := fst (createSessionHandler hostname env apiKey body db) in
    let db' := snd (createSessionHandler hostname env apiKey body db) in
    api_keys db' = api_keys db
    /\ session_chunks db' = session_chunks db
    /\ (status r <> 200%Z -> db' = db)
    /\ (NoDup (map id (sessions db)) -> NoDup (map id (sessions db')))
    /\ (forall b row,
          body = Some b -> In row (sessions db) -> id row <> b_id b ->
          In row (sessions db')).
Proof.
  intros env apiKey body db r db'. subst r db'.
  destruct (createSession_cases env apiKey body db)
    as [[Hdb (st & e & Hr & Hst)]
       |(b & Hb & Hid & Hurl & [(ex & Hex & HP)|(Hnew & HP)])].
  - rewrite Hdb. repeat split; auto.
  - rewrite HP. cbn [fst snd api_keys session_chunks sessions status].
    repeat split; auto.
    + intros H. contradiction.
    + intros Hnd. rewrite map_refresh_ids. exact Hnd.
    + intros b0 row Hb0 Hin Hne. rewrite Hb in Hb0. inversion Hb0; subst b0.
      apply in_map_iff. exists row. split; [|exact Hin].
      apply String.eqb_neq in Hne. rewrite Hne. reflexivity.
  - rewrite HP. cbn [fst snd api_keys session_chunks sessions status].
    repeat split; auto.
    + intros H. contradiction.
    + intros Hnd. rewrite map_app. cbn [map created id].
      apply NoDup_app; [exact Hnd|constructor; [intros []|constructor]|].
      intros x Hin [Heq|[]]. subst x.
      apply in_map_iff in Hin. destruct Hin as (row & Hrid & Hin).
      assert (Ht : existsb (fun r => String.eqb (id r) (b_id b))
                           (sessions db) = true).
      { apply existsb_exists. exists row. split; [exact Hin|].
        apply String.eqb_eq. exact Hrid. }
      congruence.
    + intros b0 row _ Hin _. apply in_or_app. left. exact Hin.
Qed.

(** X11. The first write of a session wins: when an upsert for a stored
    session is answered with status 200, the row it returns and stores
    keeps the stored [user_agent], [screen_resolution], [referrer],
    [start_time] and [created_at], keeps [url] and [viewport_size]
    unless the stored value is unset, and takes [end_time] from the
    request when the request has one; it stands where the old row
    stood.  For a session that is not stored the row is the request's
    fields with the time of the call. *)
Theorem first_write_wins :
  forall (env : Env) (apiKey : option string) (b : Body) (db : Store),
    NoDup (map id (sessions db)) ->
    status (fst (createSessionHandler hostname env apiKey (Some b) db)) =
    200%Z ->
    let db' := snd (createSessionHandler hostname env apiKey (Some b) db) in
    (forall old,
        In old (sessions db) -> id old = b_id b ->
        exists new,
          fst (createSessionHandler hostname env apiKey (Some b) db) =
          mkResponse 200 (R_row new)
          /\ idRows db' (b_id b) = [new]
          /\ id new = id old
          /\ user_agent new = user_agent old
          /\ screen_resolution new = screen_resolution old
          /\ referrer new = referrer old
          /\ start_time new = start_time old
          /\ created_at new = created_at old
          /\ (truthy (url old) = true -> url new = url old)
          /\ (truthy (url old) = false -> url new = Some (b_url b))
          /\ (truthy (viewport_size old) = true ->
              viewport_size new = viewport_size old)
          /\ (forall t, b_end_time b = Some t -> end_time new = Some t)
          /\ (b_end_time b = None -> end_time new = end_time old))
    /\ ((forall old, In old (sessions db) -> id old <> b_id b) ->
        fst (createSessionHandler hostname env apiKey (Some b) db) =
        mkResponse 200 (R_row (created b (now env)))
        /\ idRows db' (b_id b) = [created b (now env)]).
Proof.
  intros env apiKey b db Hnd Hst db'. subst db'.
  destruct (createSession_cases env apiKey (Some b) db)
    as [[_ (st & e & Hr & Hne)]
       |(b0 & Hb & Hid & Hurl & [(ex & Hex & HP)|(Hnew & HP)])].
  - rewrite Hr in Hst. cbn [status] in Hst. contradiction.
  - inversion Hb; subst b0. rewrite HP. cbn [fst snd]. split.
    + intros old Hin Hidold.
      assert (Hrows : idRows db (b_id b) = [old])
        by (rewrite <- Hidold; apply idRows_unique; assumption).
      rewrite Hrows in Hex. inversion Hex; subst ex.
      exists (refresh b old old). split; [reflexivity|].
      split.
      { unfold idRows in *. cbn [sessions].
        clear - Hrows Hidold. revert Hrows.
        induction (sessions db) as [|x rows IH]; intros Hrows;
          [discriminate|].
        cbn [filter map] in *.
        destruct (String.eqb (id x) (b_id b)) eqn:Hx.
        - inversion Hrows as [[Hxo Hrest]]. subst x.
          cbn [refresh id]. rewrite Hx. f_equal.
          clear - Hrest. induction rows as [|y rows IH]; [reflexivity|].
          cbn [filter map] in *.
          destruct (String.eqb (id y) (b_id b)) eqn:Hy; [discriminate|].
          rewrite Hy. exact (IH Hrest).
        - rewrite Hx. exact (IH Hrows). }
      unfold refresh. cbn.
      repeat split; auto.
      * intros Ht. rewrite Ht. reflexivity.
      * intros Ht. rewrite Ht. reflexivity.
      * intros Ht. rewrite Ht. reflexivity.
      * intros t Ht. rewrite Ht. reflexivity.
      * intros Ht. rewrite Ht. reflexivity.
    + intros Hnone. exfalso.
      unfold Ingest.single, idRows in Hex.
      destruct (filter _ (sessions db)) as [|x [|y rest]] eqn:Hf;
        try discriminate.
      assert (Hin : In x (filter (fun r => String.eqb (id r) (b_id b))
                                 (sessions db)))
        by (rewrite Hf; left; reflexivity).
      apply filter_In in Hin. destruct Hin as [Hin Heq].
      apply String.eqb_eq in Heq. exact (Hnone x Hin Heq).
  - inversion Hb; subst b0. rewrite HP. cbn [fst snd]. split.
    + intros old Hin Hidold. exfalso.
      assert (Ht : existsb (fun r => String.eqb (id r) (b_id b))
                           (sessions db) = true).
      { apply existsb_exists. exists old. split; [exact Hin|].
        apply String.eqb_eq. exact Hidold. }
      congruence.
    + intros _. split; [reflexivity|].
      unfold idRows. cbn [sessions]. rewrite filter_app.
      cbn [filter created id]. rewrite String.eqb_refl.
      assert (Hnil : filter (fun r => String.eqb (id r) (b_id b))
                            (sessions db) = []).
      { clear - Hnew. induction (sessions db) as [|x rows IH];
          [reflexivity|].
        cbn [existsb filter] in *. apply orb_false_iff in Hnew.
        destruct Hnew as [Hx Hrest]. rewrite Hx. exact (IH Hrest). }
      rewrite Hnil. reflexivity.
Qed.

End Handlers.

Lemma first_write_wins_witness :
  NoDup (map id (sessions cartStore))
  /\ exists new,
      fst (createSessionHandler Ingest.plainHostAndPort calm (Some "k-live")
                                (Some laterUpsert) cartStore) =
      mkResponse 200 (R_row new)
      /\ user_agent new = Some "Mozilla/5.0"
      /\ url new = Some "http://shop.test/cart"
      /\ end_time new = Some "2024-01-01T00:00:40.000Z".
Proof.
  assert (Hnd : NoDup (map id (sessions cartStore)))
    by (repeat constructor; intros []).
  split; [exact Hnd|].
  destruct (proj1 (first_write_wins Ingest.plainHostAndPort calm
                     (Some "k-live") laterUpsert cartStore Hnd eq_refl)
                  cartRow (or_introl eq_refl) eq_refl)
    as (new & Hresp & _ & _ & Hua & _ & _ & _ & _ & Hurl & _ & _ & Hend & _).
  exists new. split; [exact Hresp|]. split; [exact Hua|].
  split; [exact (Hurl eq_refl)|exact (Hend _ eq_refl)].
Defined.

(** *** Deleting and listing *)

(** X12. A delete request from the application with a session id, on a
    store that raises no error, is answered with status 200 whether or
    not the session is stored; afterwards neither a row nor a chunk of
    that session is left, every other row and chunk is kept, and asking
    for the session by id is answered with status 500.  A request that
    does not come from the application is answered 403 and deletes
    nothing. *)
Theorem delete_removes_session_and_chunks :
  forall (env : Env) (h : Headers) (i : string) (db : Store),
    i <> "" ->
    storeError env = false ->
    let out := deleteSessionHandler env h (Some i) db in
    (isRequestFromAllowedDomain h = true ->
     fst out = mkResponse 200 R_success
     /\ api_keys (snd out) = api_keys db
     /\ (forall r, In r (sessions (snd out)) <->
                   In r (sessions db) /\ id r <> i)
     /\ (forall c, In c (session_chunks (snd out)) <->
                   In c (session_chunks db) /\ Ingest.session_id c <> i)
     /\ status (getSessionsHandler env h (Some i) (snd out)) = 500%Z)
    /\ (isRequestFromAllowedDomain h = false ->
        status (fst out) = 403%Z /\ snd out = db).
Proof.
  intros env h i db Hi Herr out. subst out.
  apply String.eqb_neq in Hi. unfold deleteSessionHandler. split.
  - intros Hallowed. rewrite Hallowed, Hi, Herr. cbn [negb fst snd].
    split; [reflexivity|]. split; [reflexivity|].
    cbn [sessions session_chunks]. split; [|split].
    + intros r. rewrite filter_In, negb_true_iff, String.eqb_neq.
      reflexivity.
    + intros c. rewrite filter_In, negb_true_iff, String.eqb_neq.
      reflexivity.
    + unfold getSessionsHandler. rewrite Hallowed, Hi. cbn [negb].
      unfold idRows. cbn [sessions].
      assert (Hnil : filter (fun r => String.eqb (id r) i)
                            (filter (fun r => negb (String.eqb (id r) i))
                                    (sessions db)) = []).
      { induction (sessions db) as [|x rows IH]; [reflexivity|].
        cbn [filter]. destruct (String.eqb (id x) i) eqn:Hx; cbn [negb].
        - exact IH.
        - cbn [filter]. rewrite Hx. exact IH. }
      rewrite Hnil. reflexivity.
  - intros Hdenied. rewrite Hdenied. cbn [negb fst snd status]. auto.
Qed.

Lemma delete_removes_session_and_chunks_witness :
  "s1" <> "" /\ storeError calm = false
  /\ snd (deleteSessionHandler calm appHeaders (Some "s1") cartStore) =
     mkStore [Ingest.mkKey "k-live" "http://shop.test/"] [] [].
Proof.
  assert (Hi : "s1" <> "") by discriminate.
  split; [exact Hi|]. split; [reflexivity|].
  destruct (proj1 (delete_removes_session_and_chunks calm appHeaders "s1"
                     cartStore Hi eq_refl) eq_refl) as (_ & _ & _ & _ & _).
  reflexivity.
Defined.

(** X13. Once an identity that is not a name of [Object.prototype]
    has used up its 20 deletions of the current window, a further
    delete request in that window is answered 429 and deletes nothing,
    whoever sends it and whatever it asks for; the answer tells the
    seconds left of the window, rounded up, and counts as one more
    call.  An identity that is a name of [Object.prototype] is never
    refused: its request reaches the handler, whatever the limiter
    holds, and the answer carries neither a remaining number nor a
    reset time. *)
Theorem exhausted_identity_deletes_nothing :
  forall (env : Env) (h : Headers) (idParam : option string)
         (identity : string) (clock later : Z) (s : RateLimit.Store)
         (db : Store),
    let out := DELETE env h idParam identity clock later s db in
    (RateLimit.inherited identity = false ->
     forall c R : Z,
       s identity = Some (RateLimit.mkEntry c R) ->
       (20 <= c)%Z -> (clock <= R)%Z ->
       fst (fst out) =
       RateLimit.TooMany
         "Rate limit exceeded for session deletion. Please try again later."
         (Some (RateLimit.ceilSeconds (R - later))) (20%Z, Some 0%Z, Some R)
       /\ snd out = db
       /\ snd (fst out) identity = Some (RateLimit.mkEntry (c + 1) R))
    /\ (RateLimit.inherited identity = true ->
        fst (fst out) =
        RateLimit.Handled (fst (deleteSessionHandler env h idParam db))
                          (20%Z, None, None)
        /\ snd out = snd (deleteSessionHandler env h idParam db)
        /\ snd (fst out) = s).
Proof.
  intros env h idParam identity clock later s db.
  cbn zeta. unfold DELETE.
  pose proof (RateLimitFacts.withRateLimit_cases
                Response Store 20 60000
                "Rate limit exceeded for session deletion. Please try again later."
                (deleteSessionHandler env h idParam) identity clock later
                s db)
    as Hroute.
  cbv zeta in Hroute. destruct Hroute as (Hstore & Hrefused & Hpassed).
  split.
  - intros Hown c R Hs Hc Hclock.
    pose proof (RateLimitFacts.rateLimit_eq identity 20 60000 clock s Hown)
      as Heq.
    assert (Hcur : RateLimit.current s identity 60000 clock
                   = RateLimit.mkEntry c R).
    { unfold RateLimit.current. rewrite Hs. cbn [RateLimit.resetTime].
      assert (Hopen : (R <? clock)%Z = false) by (apply Z.ltb_ge; lia).
      rewrite Hopen. reflexivity. }
    cbv zeta in Heq. rewrite Hcur in Heq.
    cbn [RateLimit.count RateLimit.resetTime] in Heq.
    destruct Heq as (Hr & Hs' & _).
    assert (Hsucc : RateLimit.success
                      (fst (RateLimit.rateLimit identity 20 60000 clock s)) =
                    false).
    { rewrite Hr. cbn [RateLimit.success].
      apply negb_false_iff, Z.ltb_lt. lia. }
    destruct (Hrefused Hsucc) as (Hans & Hw).
    rewrite Hans, Hw, Hstore, Hr.
    cbn [RateLimit.remaining RateLimit.reset RateLimit.limit option_map].
    rewrite Z.max_l by lia.
    repeat split. exact Hs'.
  - intros Hin.
    rewrite (RateLimitFacts.rateLimit_inherited identity 20 60000 clock s Hin)
      in Hstore, Hpassed.
    cbn [fst snd RateLimit.success RateLimit.remaining RateLimit.reset
         RateLimit.limit] in Hstore, Hpassed.
    destruct (Hpassed eq_refl) as (Hans & Hw).
    rewrite Hans, Hw, Hstore. repeat split.
Qed.

Lemma exhausted_identity_deletes_nothing_witness :
  snd (DELETE calm appHeaders (Some "s1") "203.0.113.7" 2000 2001
              (RateLimit.put RateLimit.emptyStore "203.0.113.7"
                             (RateLimit.mkEntry 20 61000))
              cartStore) = cartStore
  /\ snd (DELETE calm appHeaders (Some "s1") "toString" 2000 2001
                 RateLimit.emptyStore cartStore) =
     snd (deleteSessionHandler calm appHeaders (Some "s1") cartStore).
Proof.
  split.
  - destruct (proj1 (exhausted_identity_deletes_nothing calm appHeaders
                       (Some "s1") "203.0.113.7" 2000 2001
                       (RateLimit.put RateLimit.emptyStore "203.0.113.7"
                                      (RateLimit.mkEntry 20 61000))
                       cartStore) eq_refl 20%Z 61000%Z eq_refl)
      as (_ & Hdb & _); [lia|lia|exact Hdb].
  - destruct (proj2 (exhausted_identity_deletes_nothing calm appHeaders
                       (Some "s1") "toString" 2000 2001
                       RateLimit.emptyStore cartStore) eq_refl)
      as (_ & Hdb & _).
    exact Hdb.
Defined.

Lemma insertNewest_perm :
  forall (r : SessionRow) (l : list SessionRow),
    Permutation (insertNewest r l) (r :: l).
Proof.
  induction l as [|x tl IH]; simpl; [reflexivity|].
  destruct (String.leb (created_at x) (created_at r)); [reflexivity|].
  rewrite IH. apply perm_swap.
Qed.

Lemma newestFirst_perm :
  forall l : list SessionRow, Permutation (newestFirst l) l.
Proof.
  induction l as [|r tl IH]; simpl; [reflexivity|].
  rewrite insertNewest_perm. apply perm_skip. exact IH.
Qed.

Lemma insertNewest_sorted :
  forall (r : SessionRow) (l : list SessionRow),
    descending l -> descending (insertNewest r l).
Proof.
  unfold descending. induction l as [|x tl IH]; intros Hs; simpl.
  - constructor; constructor.
  - inversion Hs as [|y ys Htl Hall]; subst.
    destruct (String.leb (created_at x) (created_at r)) eqn:Hle.
    + constructor; [exact Hs|]. constructor; [exact Hle|].
      eapply Forall_impl; [|exact Hall].
      intros z Hz. exact (ChunkReadsFacts.leb_trans _ _ _ Hz Hle).
    + constructor; [apply IH; exact Htl|].
      assert (Hrx : String.leb (created_at r) (created_at x) = true).
      { destruct (String.leb_total (created_at r) (created_at x))
          as [H|H]; [exact H|congruence]. }
      eapply Permutation_Forall; [symmetry; apply insertNewest_perm|].
      constructor; assumption.
Qed.

(** X14. Asked without an id by the application, on a store that
    raises no error, the route lists every stored session exactly once,
    newest first. *)
Theorem listing_is_complete_and_newest_first :
  forall (env : Env) (h : Headers) (db : Store),
    isRequestFromAllowedDomain h = true ->
    storeError env = false ->
    exists rows,
      getSessionsHandler env h None db = mkResponse 200 (R_rows rows)
      /\ Permutation rows (sessions db)
      /\ descending rows.
Proof.
  intros env h db Hallowed Herr. unfold getSessionsHandler.
  rewrite Hallowed, Herr. cbn [negb]. eexists.
  split; [reflexivity|]. split; [apply newestFirst_perm|].
  induction (sessions db) as [|r tl IH]; simpl; [constructor|].
  apply insertNewest_sorted. exact IH.
Qed.

Lemma listing_is_complete_and_newest_first_witness :
  exists rows,
    getSessionsHandler calm appHeaders None cartStore =
    mkResponse 200 (R_rows rows)
    /\ Permutation rows (sessions cartStore).
Proof.
  destruct (listing_is_complete_and_newest_first calm appHeaders cartStore
              eq_refl eq_refl) as (rows & Hget & Hperm & _).
  exists rows. auto.
Defined.

End SessionsRouteFacts.

(** ** The script's input handlers *)

Module AgentFacts.
Import Model Recorder Agent.

Local Open Scope string_scope.
Local Open Scope list_scope.
Local Open Scope Z_scope.

(** *** What recording keeps *)

Lemma saveChunk_frame :
  forall st : State,
    startTime (saveChunk st) = startTime st
    /\ isRecording (saveChunk st) = isRecording st
    /\ lastDomSnapshotTime (saveChunk st) = lastDomSnapshotTime st.
Proof.
  intros st. unfold saveChunk. destruct (events st); auto.
Qed.

Lemma recordEvent_frame :
  forall (ty : string) (d : EventData) (h : Host) (st : State),
    startTime (recordEvent ty d h st) = startTime st
    /\ isRecording (recordEvent ty d h st) = isRecording st
    /\ lastDomSnapshotTime (recordEvent ty d h st) = lastDomSnapshotTime st.
Proof.
  intros ty d h st. unfold recordEvent.
  destruct (isRecording st) eqn:Hr; cbn [negb]; [|auto].
  match goal with
  | |- context [if ?c then _ else _] => destruct c
  end.
  - destruct (saveChunk_frame
                (setEvents st
                   (events st ++ [mkEvent ty (clock h - startTime st)
                                          (Some d)])))
      as (H1 & H2 & H3).
    rewrite H1, H2, H3. auto.
  - auto.
Qed.




(** *** The throttle *)








(** X16. A navigation closes the chunk: when a recording instance sees
    an address other than the one it remembers, the events buffered so
    far and a [session_start] event for the new address, in this order
    and as the last event, leave as one chunk; the buffer is empty
    afterwards, and a second look at the same address changes nothing. *)
Theorem navigation_closes_the_chunk :
  forall (h : Host) (a : Agent),
    isRecording (core a) = true ->
    currentUrl a <> href h ->
    let a' := handleUrlChange h a in
    events (core a') = []
    /\ inflight (core a') =
       inflight (core a)
       ++ [events (core a)
           ++ [mkEvent "session_start" (clock h - startTime (core a))
                       (Some (sessionData h))]]
    /\ currentUrl a' = href h
    /\ handleUrlChange h a' = a'.
Proof.
  intros h a Hr Hne. cbn zeta.
  assert (Ha' : handleUrlChange h a =
    mkAgent (saveChunk (recordEvent "session_start" (sessionData h) h
                                    (core a)))
            (lastMouseMoveTime a) (isDragging a) (href h)).
  { unfold handleUrlChange. apply String.eqb_neq in Hne. rewrite Hne.
    reflexivity. }
  rewrite Ha'. cbn [core currentUrl].
  assert (Hcore :
    events (saveChunk (recordEvent "session_start" (sessionData h) h
                                   (core a))) = []
    /\ inflight (saveChunk (recordEvent "session_start" (sessionData h) h
                                        (core a))) =
       inflight (core a)
       ++ [events (core a)
           ++ [mkEvent "session_start" (clock h - startTime (core a))
                       (Some (sessionData h))]]).
  { unfold recordEvent. rewrite Hr. cbn [negb].
    match goal with
    | |- context [if ?c then _ else _] => destruct c
    end.
    - unfold saveChunk at 2 4. cbn [events setEvents].
      destruct (events (core a) ++ _) as [|e l] eqn:He.
      + destruct (events (core a)); discriminate.
      + unfold saveChunk. cbn [events setEvents setInflight inflight].
        split; reflexivity.
    - unfold saveChunk. cbn [events setEvents].
      destruct (events (core a) ++ _) as [|e l] eqn:He.
      + destruct (events (core a)); discriminate.
      + cbn [events setEvents setInflight inflight].
        split; reflexivity. }
  destruct Hcore as [He Hi].
  repeat split; [exact He|exact Hi|].
  unfold handleUrlChange. cbn [currentUrl]. rewrite String.eqb_refl.
  reflexivity.
Qed.

Lemma navigation_closes_the_chunk_witness :
  events (core (handleUrlChange pageA landed)) = []
  /\ List.length (inflight (core (handleUrlChange pageA landed))) = 2%nat.
Proof.
  destruct (navigation_closes_the_chunk pageA landed)
    as (He & Hi & _); [reflexivity|discriminate|].
  split; [exact He|]. rewrite Hi. reflexivity.
Defined.

(** *** Flushes that fail *)

Lemma settle_failed_pending :
  forall (i : nat) (o : Outcome) (st : State),
    failed o ->
    Permutation (pending (settle i o st)) (pending st)
    /\ isRecording (settle i o st) = isRecording st
    /\ startTime (settle i o st) = startTime st.
Proof.
  intros i o st Hf. unfold settle.
  destruct (nth_error (inflight st) i) as [chunk|] eqn:Hn; [|auto].
  rewrite (RecorderFacts.settle_failed o chunk _ Hf).
  unfold requeue, pending.
  cbn [events setEvents setInflight inflight isRecording startTime].
  repeat split.
  rewrite app_assoc. apply Permutation_app_tail.
  rewrite Permutation_app_comm.
  exact (RecorderFacts.concat_dropNth (inflight st) i chunk Hn).
Qed.

(** X17. Failed flushes lose nothing: over any run of recorded events,
    flushes, and pending flushes resuming in any order, in which every
    flush that resumes has failed (the transport threw, or answered
    outside 200..299 with something other than 401, or the answer could
    not be read), a recording instance goes on recording and holds, in
    some order, exactly the events it held at the start and those
    recorded during the run, each once. *)
Theorem failed_flushes_lose_nothing :
  forall (steps : list Step) (st : State),
    isRecording st = true ->
    allFailed steps ->
    Permutation (pending (run steps st))
                (pending st ++ recorded (startTime st) steps)
    /\ isRecording (run steps st) = true.
Proof.
  induction steps as [|s rest IH]; intros st Hr Hall.
  - cbn [run recorded]. rewrite app_nil_r. split; [reflexivity|exact Hr].
  - cbn [run]. destruct s as [ty d h| |i o]; cbn [step recorded].
    + cbn [allFailed] in Hall.
      destruct (recordEvent_frame ty d h st) as (Hs & Hrec & _).
      rewrite Hr in Hrec.
      destruct (IH _ Hrec Hall) as [Hp Hr'].
      split; [|exact Hr'].
      rewrite Hp, Hs, (RecorderFacts.pending_recordEvent ty d h st Hr).
      rewrite <- app_assoc. reflexivity.
    + cbn [allFailed] in Hall.
      destruct (saveChunk_frame st) as (Hs & Hrec & _).
      rewrite Hr in Hrec.
      destruct (IH _ Hrec Hall) as [Hp Hr'].
      split; [|exact Hr'].
      rewrite Hp, Hs, RecorderFacts.pending_saveChunk. reflexivity.
    + cbn [allFailed] in Hall. destruct Hall as [Hf Hall].
      destruct (settle_failed_pending i o st Hf) as (Hperm & Hrec & Hs).
      rewrite Hr in Hrec.
      destruct (IH _ Hrec Hall) as [Hp Hr'].
      split; [|exact Hr'].
      rewrite Hp, Hs. apply Permutation_app_tail. exact Hperm.
Qed.

Lemma failed_flushes_lose_nothing_witness :
  Permutation
    (pending (run [Flush; Rec "click" noData pageA;
                   Settle 0 (mkOutcome Rejects Rejects false)]
                  (buffered 2)))
    (pending (buffered 2)
     ++ recorded (startTime (buffered 2))
          [Flush; Rec "click" noData pageA;
           Settle 0 (mkOutcome Rejects Rejects false)])
  /\ isRecording (run [Flush; Rec "click" noData pageA;
                       Settle 0 (mkOutcome Rejects Rejects false)]
                      (buffered 2)) = true.
Proof.
  apply failed_flushes_lose_nothing.
  - reflexivity.
  - cbn [allFailed]. split; [|exact I]. left. reflexivity.
Defined.

(** *** Starting *)



(** X19. The first snapshot does not arm the five-second gate: on a
    page whose clock reads 5000 or more, the first batch the observer
    hands over after [start], when the pass over it finds nothing to
    record (as for added elements that are not interactive) and it
    scores 5 or more, is answered with a second full snapshot, however
    soon after [start] it comes.  The callback reads the clock for the
    throttle of the queue, then for the gate, then for the event. *)
Theorem first_batch_after_start_is_snapshotted :
  forall (h h' : Host) (t0 : Z) (ms : list MutationRecord),
    5000 <= clock (later 1 h') ->
    Qle_bool 5 (significanceScore ms) = true ->
    let st := start h (create t0) in
    pending (Observer.core
               (Observer.onMutations h' Observer.Quiet ms
                                     (Observer.watching st))) =
    pending st
    ++ [mkEvent "dom_snapshot" (clock (later 2 h') - clock h)
                (Some (snapshotData h'))].
Proof.
  intros h h' t0 ms Hclock Hscore. cbn zeta.
  pose proof (RecorderFacts.start_fresh h t0) as Hst.
  assert (Hrec : isRecording (start h (create t0)) = true)
    by (rewrite Hst; destruct (inventoryThrows h); reflexivity).
  assert (Hstamp : lastDomSnapshotTime (start h (create t0)) = 0)
    by (rewrite Hst; destruct (inventoryThrows h); reflexivity).
  assert (Horigin : startTime (start h (create t0)) = clock h)
    by (rewrite Hst; destruct (inventoryThrows h); reflexivity).
  set (st := start h (create t0)) in *.
  assert (Hcheck :
    pending (checkForSignificantChanges (next h') st ms) =
    pending st
    ++ [mkEvent "dom_snapshot" (clock (later 2 h') - clock h)
                (Some (snapshotData h'))]).
  { unfold checkForSignificantChanges, snapshotDue. rewrite Hstamp.
    rewrite Z.sub_0_r. change (next h') with (later 1 h').
    apply Z.ltb_ge in Hclock. rewrite Hclock, Hscore.
    destruct (RecorderFacts.capture_recording (next (later 1 h')) st Hrec)
      as [Hp _].
    rewrite Hp, Horigin. unfold later. cbn [Nat.iter].
    rewrite !RecorderFacts.snapshotData_next. reflexivity. }
  destruct ms as [|m ms']; [discriminate Hscore|].
  unfold Observer.onMutations, Observer.watching.
  cbn [Observer.core Observer.pendingMutations Observer.processingMutations
       Observer.queueTimers app].
  unfold Observer.processMutationQueue.
  cbn [Observer.core Observer.pendingMutations Observer.processingMutations
       Observer.queueTimers].
  destruct (clock h' - lastDomSnapshotTime st <? 500);
    cbn [Observer.core]; exact Hcheck.
Qed.

Lemma first_batch_after_start_is_snapshotted_witness :
  List.length
    (pending (Observer.core
                (Observer.onMutations (Observer.ticking 10100 6)
                   Observer.Quiet [Recorder.added 3] Observer.opened)))
  = 4%nat.
Proof.
  unfold Observer.opened.
  rewrite (first_batch_after_start_is_snapshotted
             (Observer.ticking 10000 3) (Observer.ticking 10100 6) 9000
             [Recorder.added 3]);
    [reflexivity|vm_compute; discriminate|reflexivity].
Defined.

(** *** [hashString] *)

Lemma toInt32_shift :
  forall x k : Z, toInt32 (x + k * 2 ^ 32) = toInt32 x.
Proof.
  intros x k. unfold toInt32.
  replace (x + k * 2 ^ 32 + 2 ^ 31) with (x + 2 ^ 31 + k * 2 ^ 32) by ring.
  rewrite Z_mod_plus_full. reflexivity.
Qed.

Lemma toInt32_spec :
  forall x : Z, exists k : Z, toInt32 x = x + k * 2 ^ 32.
Proof.
  intros x. exists (- ((x + 2 ^ 31) / 2 ^ 32)). unfold toInt32.
  rewrite Z.mod_eq by lia. ring.
Qed.

Lemma toInt32_range :
  forall x : Z, - 2 ^ 31 <= toInt32 x < 2 ^ 31.
Proof.
  intros x. unfold toInt32.
  pose proof (Z.mod_pos_bound (x + 2 ^ 31) (2 ^ 32) ltac:(lia)). lia.
Qed.

Lemma toInt32_idem :
  forall x : Z, toInt32 (toInt32 x) = toInt32 x.
Proof.
  intros x. destruct (toInt32_spec x) as [k Hk].
  transitivity (toInt32 (x + k * 2 ^ 32)); [f_equal; exact Hk|].
  apply toInt32_shift.
Qed.

Lemma hashRound_poly :
  forall p c : Z, hashRound (toInt32 p) c = toInt32 (31 * p + c).
Proof.
  intros p c. unfold hashRound. rewrite toInt32_idem.
  rewrite Z.shiftl_mul_pow2 by lia.
  destruct (toInt32_spec (toInt32 p * 2 ^ 5)) as [k2 H2]. rewrite H2.
  destruct (toInt32_spec p) as [k1 H1]. rewrite H1.
  change (2 ^ 5) with 32.
  rewrite <- (toInt32_shift (31 * p + c) (31 * k1 + k2)).
  f_equal. generalize (2 ^ 32). intros M. ring.
Qed.

Lemma fold_left_step :
  forall (A B : Type) (f : A -> B -> A) (x : B) (l : list B) (a : A),
    fold_left f (x :: l) a = fold_left f l (f a x).
Proof. reflexivity. Qed.

Lemma fold_hashRound :
  forall (str : list Z) (p : Z),
    fold_left hashRound str (toInt32 p) =
    toInt32 (fold_left (fun acc c => 31 * acc + c) str p).
Proof.
  induction str as [|c str IH]; intros p; [reflexivity|].
  rewrite !fold_left_step, hashRound_poly. apply IH.
Qed.

Lemma hashCode_poly31 :
  forall str : list Z, hashCode str = toInt32 (poly31 str).
Proof.
  intros str. unfold hashCode, poly31.
  assert (H0 : toInt32 0 = 0) by (vm_compute; reflexivity).
  pose proof (fold_hashRound str 0) as H. rewrite H0 in H. exact H.
Qed.

(** X20. The number behind an element id is the polynomial hash with
    multiplier 31 of the string's code units, reduced into the signed
    32-bit range; its absolute value, which is what gets printed, is at
    most 2^31. *)
Theorem hashString_is_the_wrapped_polynomial :
  forall str : list Z,
    hashCode str = toInt32 (poly31 str)
    /\ (poly31 str - hashCode str) mod 2 ^ 32 = 0
    /\ 0 <= Z.abs (hashCode str) <= 2 ^ 31.
Proof.
  intros str. rewrite hashCode_poly31.
  pose proof (toInt32_range (poly31 str)) as Hrange.
  destruct (toInt32_spec (poly31 str)) as [k Hk].
  repeat split; [|lia|lia].
  rewrite Hk.
  replace (poly31 str - (poly31 str + k * 2 ^ 32)) with ((- k) * 2 ^ 32)
    by ring.
  apply Z_mod_mult.
Qed.

(** X21. Two strings get the same hash text as soon as their polynomial
    hashes agree modulo 2^32, or are opposite modulo 2^32: the sign is
    dropped before printing. *)
Theorem hashString_collisions :
  forall a b : list Z,
    (poly31 a - poly31 b) mod 2 ^ 32 = 0
    \/ (poly31 a + poly31 b) mod 2 ^ 32 = 0 ->
    hashString a = hashString b.
Proof.
  intros a b H. unfold hashString. f_equal.
  rewrite !hashCode_poly31.
  pose proof (toInt32_range (poly31 a)) as Ha.
  pose proof (toInt32_range (poly31 b)) as Hb.
  destruct (toInt32_spec (poly31 a)) as [ka Hka].
  destruct (toInt32_spec (poly31 b)) as [kb Hkb].
  destruct H as [H|H]; apply Z.mod_divide in H; try lia;
    destruct H as [q Hq].
  - assert (toInt32 (poly31 a) = toInt32 (poly31 b)) as -> by lia.
    reflexivity.
  - assert (toInt32 (poly31 a) + toInt32 (poly31 b) = 0
            \/ toInt32 (poly31 a) + toInt32 (poly31 b) = - 2 ^ 32)
      as [Hsum|Hsum] by lia; lia.
Qed.

Lemma hashString_collisions_witness :
  hashString unitsAa = hashString unitsBB.
Proof.
  apply hashString_collisions. left. reflexivity.
Defined.

End AgentFacts.

(** ** Loading and playing a session (the session page) *)

Module PlaybackFacts.
Import Model Replay Playback.

Local Open Scope string_scope.
Local Open Scope list_scope.
Local Open Scope Z_scope.

(** *** The loaded timeline *)

Section Loading.

Variable getTime : string -> option Z.

Lemma insertAsc_perm :
  forall (e : Event) (l : list Event),
    Permutation (insertAsc getTime e l) (e :: l).
Proof.
  intros e l. induction l as [|x tl IH]; cbn [insertAsc]; [reflexivity|].
  destruct (wallClock getTime e <=? wallClock getTime x); [reflexivity|].
  rewrite IH. apply perm_swap.
Qed.

Lemma sortAsc_perm :
  forall l : list Event, Permutation (sortAsc getTime l) l.
Proof.
  induction l as [|e tl IH]; cbn [sortAsc]; [reflexivity|].
  rewrite insertAsc_perm. apply perm_skip. exact IH.
Qed.

Lemma insertAsc_sorted :
  forall (e : Event) (l : list Event),
    StronglySorted (fun a b => wallClock getTime a <= wallClock getTime b) l ->
    StronglySorted (fun a b => wallClock getTime a <= wallClock getTime b)
                   (insertAsc getTime e l).
Proof.
  intros e l Hs. induction Hs as [|x tl Hs IH Hx]; cbn [insertAsc].
  - constructor; constructor.
  - destruct (wallClock getTime e <=? wallClock getTime x) eqn:Hle.
    + apply Z.leb_le in Hle. constructor; [constructor; assumption|].
      constructor; [exact Hle|].
      eapply Forall_impl; [|exact Hx]. intros y Hy. cbn beta in Hy. lia.
    + apply Z.leb_gt in Hle. constructor; [exact IH|].
      apply (Permutation_Forall (Permutation_sym (insertAsc_perm e tl))).
      constructor; [lia|exact Hx].
Qed.

Lemma sortAsc_sorted :
  forall l : list Event,
    StronglySorted (fun a b => wallClock getTime a <= wallClock getTime b)
                   (sortAsc getTime l).
Proof.
  induction l as [|e tl IH]; cbn [sortAsc]; [constructor|].
  apply insertAsc_sorted. exact IH.
Qed.

Lemma kept_data :
  forall j : Ingest.JsonEvent, Forall (fun e => data e <> None) (kept j).
Proof.
  intros [e|]; cbn [kept]; [|constructor].
  destruct (data e) eqn:Hd; constructor; [congruence|constructor].
Qed.

Lemma extracted_data :
  forall chunks : list Ingest.ChunkRow,
    Forall (fun e => data e <> None) (extracted chunks).
Proof.
  intros chunks. unfold extracted.
  induction chunks as [|c tl IH]; cbn [flat_map]; [constructor|].
  apply Forall_app. split; [|exact IH].
  induction (Ingest.c_events c) as [|j js IHj]; cbn [flat_map];
    [constructor|].
  apply Forall_app. split; [apply kept_data|exact IHj].
Qed.

Lemma parsed_times :
  forall l : list Event,
    parsed getTime l = true ->
    Forall (fun e => timeOf getTime e = Some (wallClock getTime e)) l.
Proof.
  intros l H. unfold parsed in H. rewrite forallb_forall in H.
  apply Forall_forall. intros e Hin. specialize (H e Hin).
  unfold wallClock. destruct (timeOf getTime e); [reflexivity|discriminate].
Qed.

Lemma unparsed_time :
  forall l : list Event,
    parsed getTime l = false ->
    exists e, In e l /\ timeOf getTime e = None.
Proof.
  induction l as [|x l IH]; intros H; [discriminate|].
  unfold parsed in H. cbn [forallb] in H.
  destruct (timeOf getTime x) eqn:Hx.
  - cbn [andb] in H. destruct (IH H) as (e & Hin & He).
    exists e. split; [right; exact Hin|exact He].
  - exists x. split; [left; reflexivity|exact Hx].
Qed.

End Loading.

Lemma sorted_le_last :
  forall (l : list Event) (d : Event),
    ascending l ->
    forall e, In e l -> timestamp e <= timestamp (last l d).
Proof.
  intros l d Hs. induction Hs as [|x tl Hs IH Hx]; intros e Hin.
  - destruct Hin.
  - destruct tl as [|y tl'].
    + destruct Hin as [->|[]]. cbn [last]. lia.
    + change (last (x :: y :: tl') d) with (last (y :: tl') d).
      destruct Hin as [->|Hin]; [|exact (IH e Hin)].
      rewrite Forall_forall in Hx.
      assert (Hy : In y (y :: tl')) by (left; reflexivity).
      pose proof (Hx y Hy) as Hxy. cbn beta in Hxy.
      pose proof (IH y Hy). lia.
Qed.

Lemma total_is_last :
  forall (e : Event) (l : list Event),
    getTotalDuration (e :: l) = timestamp (last (e :: l) e).
Proof.
  intros e l. unfold getTotalDuration. destruct l; reflexivity.
Qed.

(** X22. What the page plays is a clean timeline.  When the times of
    all kept events parse, the page gets the events of all chunk rows,
    without the [null] elements and the events that carry no [data],
    each exactly once with its type and data, in ascending order of a
    timestamp that is the wall-clock time of the event minus that of
    the earliest one: the first event is at 0, every event lies between
    0 and the total duration, and adding the earliest time to the
    timestamps gives back the wall-clock times.  The model gives no
    timeline exactly when the time of a kept event does not parse. *)
Theorem loaded_timeline_is_normalized :
  forall (getTime : string -> option Z) (chunks : list Ingest.ChunkRow),
    match normalizedEvents getTime chunks with
    | Some events =>
        ascending events
        /\ (forall e, In e events ->
                      0 <= timestamp e <= getTotalDuration events)
        /\ (forall e rest, events = e :: rest -> timestamp e = 0)
        /\ Forall (fun e => data e <> None) events
        /\ exists earliest : Z,
             Permutation
               (map (fun e => (type e, Some (earliest + timestamp e), data e))
                    events)
               (map (fun e => (type e, timeOf getTime e, data e))
                    (extracted chunks))
             /\ Forall (fun e => exists t, timeOf getTime e = Some t
                                           /\ earliest <= t)
                       (extracted chunks)
    | None =>
        exists e, In e (extracted chunks) /\ timeOf getTime e = None
    end.
Proof.
  intros getTime chunks. unfold normalizedEvents, allEvents.
  destruct (parsed getTime (extracted chunks)) eqn:Hparsed;
    [|exact (unparsed_time getTime _ Hparsed)].
  pose proof (parsed_times getTime _ Hparsed) as Htimes.
  pose proof (sortAsc_sorted getTime (extracted chunks)) as Hsorted.
  pose proof (sortAsc_perm getTime (extracted chunks)) as Hperm.
  pose proof (extracted_data chunks) as Hdata.
  apply (Permutation_Forall (Permutation_sym Hperm)) in Hdata.
  pose proof (Permutation_Forall (Permutation_sym Hperm) Htimes) as Htimes'.
  set (norm := fun first e =>
         mkEvent (type e) (wallClock getTime e - wallClock getTime first)
                 (data e)).
  destruct (sortAsc getTime (extracted chunks)) as [|f l] eqn:Hall.
  - split; [constructor|]. split; [intros e []|].
    split; [intros e rest H; discriminate|].
    split; [constructor|]. exists 0.
    apply Permutation_nil in Hperm. rewrite Hperm.
    split; constructor.
  - change (map (fun e => mkEvent (type e)
                            (wallClock getTime e - wallClock getTime f)
                            (data e)) (f :: l))
      with (map (norm f) (f :: l)).
    assert (Hasc : ascending (map (norm f) (f :: l))).
    { unfold ascending. clear Hperm Hdata Hall Htimes'.
      induction Hsorted as [|x tl Hs IH Hx]; cbn [map]; [constructor|].
      constructor; [exact IH|].
      apply Forall_map. eapply Forall_impl; [|exact Hx].
      intros y Hy. cbn beta in Hy. unfold norm. cbn [timestamp]. lia. }
    assert (Hfirst : forall e, In e (f :: l) ->
                               wallClock getTime f <= wallClock getTime e).
    { intros e [->|Hin]; [lia|].
      inversion Hsorted as [|? ? _ Hf]; subst.
      rewrite Forall_forall in Hf. exact (Hf e Hin). }
    split; [exact Hasc|]. split; [|split; [|split]].
    + intros e Hin. split.
      * apply in_map_iff in Hin. destruct Hin as (e0 & <- & Hin0).
        unfold norm. cbn [timestamp]. pose proof (Hfirst e0 Hin0). lia.
      * cbn [map] in Hin, Hasc |- *. rewrite total_is_last.
        apply sorted_le_last; assumption.
    + intros e rest H. cbn [map] in H. inversion H; subst.
      unfold norm. cbn [timestamp]. lia.
    + apply Forall_map. eapply Forall_impl; [|exact Hdata].
      intros e He. exact He.
    + exists (wallClock getTime f). split.
      * rewrite map_map.
        rewrite (map_ext_in
                   (fun e => (type (norm f e),
                              Some (wallClock getTime f
                                    + timestamp (norm f e)),
                              data (norm f e)))
                   (fun e => (type e, timeOf getTime e, data e))).
        -- apply Permutation_map. exact Hperm.
        -- intros e Hin. rewrite Forall_forall in Htimes'.
           rewrite (Htimes' e Hin). unfold norm. cbn [type timestamp data].
           do 2 f_equal. f_equal. lia.
      * apply Forall_forall. intros e Hin.
        rewrite Forall_forall in Htimes.
        exists (wallClock getTime e). split; [exact (Htimes e Hin)|].
        apply Hfirst. apply (Permutation_in e (Permutation_sym Hperm) Hin).
Qed.

(** On [mixedChunks] the loader drops the [null] and the event without
    [data] and orders the rest by their wall-clock times; a wall-clock
    string that does not parse leaves no timeline in the model. *)
Example loaded_timeline_run :
  normalizedEvents lengthTime mixedChunks =
  Some [mkEvent "session_start" 0
                (Some (mkData (Some "TT") None None None None None));
        mkEvent "mousemove" 1
                (Some (mkData (Some "TTT") None None None None None));
        mkEvent "click" 2
                (Some (mkData (Some "TTTT") None None None None None))]
  /\ normalizedEvents lengthTime
       [Ingest.mkChunk "s1" [stamped "click" "soon"] "h1" "c1"] = None.
Proof. split; reflexivity. Qed.

(** *** Events as overwrites *)

Lemma applyEvent_overwrite :
  forall (p : Player) (e : Event),
    applyEvent p e = overwrite (written e) p.
Proof.
  intros [[t pl cur dom cv url] ck n] e. unfold applyEvent, written.
  destruct (data e) as [d|]; [|reflexivity].
  destruct (String.eqb (type e) "mousemove"),
           (String.eqb (type e) "click"),
           (String.eqb (type e) "dom_snapshot"),
           (String.eqb (type e) "session_start"),
           (truthy (d_html d)), (truthy (d_url d)),
           (d_x d), (d_y d), (d_canvasElements d); reflexivity.
Qed.

Lemma applyEvent_setTime :
  forall (p : Player) (e : Event) (t : Z),
    applyEvent (setTime p t) e = setTime (applyEvent p e) t.
Proof. intros p e t. rewrite !applyEvent_overwrite. reflexivity. Qed.

Lemma applyEvent_setPlaying :
  forall (p : Player) (e : Event) (b : bool),
    applyEvent (setPlaying p b) e = setPlaying (applyEvent p e) b.
Proof. intros p e b. rewrite !applyEvent_overwrite. reflexivity. Qed.

Lemma fold_setTime :
  forall (l : list Event) (p : Player) (t : Z),
    fold_left applyEvent l (setTime p t) =
    setTime (fold_left applyEvent l p) t.
Proof.
  induction l as [|e l IH]; intros p t; [reflexivity|].
  cbn [fold_left]. rewrite applyEvent_setTime. apply IH.
Qed.

Lemma fold_setPlaying :
  forall (l : list Event) (p : Player) (b : bool),
    fold_left applyEvent l (setPlaying p b) =
    setPlaying (fold_left applyEvent l p) b.
Proof.
  induction l as [|e l IH]; intros p b; [reflexivity|].
  cbn [fold_left]. rewrite applyEvent_setPlaying. apply IH.
Qed.

Lemma fold_clock :
  forall (l : list Event) (p : Player),
    currentTime (page (fold_left applyEvent l p)) = currentTime (page p)
    /\ isPlaying (page (fold_left applyEvent l p)) = isPlaying (page p).
Proof.
  induction l as [|e l IH]; intros p; [split; reflexivity|].
  cbn [fold_left]. destruct (IH (applyEvent p e)) as [Ht Hp].
  rewrite Ht, Hp, applyEvent_overwrite. split; reflexivity.
Qed.

(** *** Windows of a timeline *)

Lemma window_empty :
  forall (l : list Event) (a b : Z),
    Forall (fun y => b < timestamp y) l -> currentEvents l a b = [].
Proof.
  intros l a b Hl. unfold currentEvents.
  induction Hl as [|y l Hy _ IH]; [reflexivity|].
  cbn [filter]. rewrite IH.
  assert (H : (timestamp y <=? b) = false) by (apply Z.leb_gt; exact Hy).
  rewrite H. reflexivity.
Qed.

Lemma window_lower :
  forall (l : list Event) (a b c : Z),
    Forall (fun y => b < timestamp y) l -> a <= b ->
    currentEvents l b c = currentEvents l a c.
Proof.
  intros l a b c Hl Hab. unfold currentEvents.
  induction Hl as [|y l Hy _ IH]; [reflexivity|].
  cbn [filter]. rewrite IH.
  assert (H1 : (b <? timestamp y) = true) by (apply Z.ltb_lt; exact Hy).
  assert (H2 : (a <? timestamp y) = true) by (apply Z.ltb_lt; lia).
  rewrite H1, H2. reflexivity.
Qed.

Lemma window_app :
  forall (l : list Event) (a b c : Z),
    ascending l -> a <= b -> b <= c ->
    currentEvents l a b ++ currentEvents l b c = currentEvents l a c.
Proof.
  intros l a b c Hs Hab Hbc.
  induction Hs as [|x l Hs IH Hx]; [reflexivity|].
  destruct (Z_le_gt_dec (timestamp x) b) as [Hxb|Hxb].
  - unfold currentEvents in *. cbn [filter].
    assert (H1 : (timestamp x <=? b) = true) by (apply Z.leb_le; lia).
    assert (H2 : (timestamp x <=? c) = true) by (apply Z.leb_le; lia).
    assert (H3 : (b <? timestamp x) = false) by (apply Z.ltb_ge; lia).
    rewrite H1, H2, H3. cbn [andb].
    destruct (a <? timestamp x); cbn [app]; rewrite IH; reflexivity.
  - assert (Hl : Forall (fun y => b < timestamp y) l).
    { eapply Forall_impl; [|exact Hx]. intros y Hy. cbn beta in Hy. lia. }
    assert (Hxl : Forall (fun y => b < timestamp y) (x :: l))
      by (constructor; [lia|exact Hl]).
    rewrite (window_empty (x :: l) a b Hxl).
    apply (window_lower (x :: l) a b c Hxl Hab).
Qed.

(** *** Ticks *)

Lemma advance_pos : forall s : Speed, 0 < advance s.
Proof. intros []; reflexivity. Qed.

Lemma tick_stopped :
  forall (events : list Event) (s : Speed) (p : Player),
    isPlaying (page p) = false -> tick events s p = p.
Proof. intros events s p H. unfold tick. rewrite H. reflexivity. Qed.

Lemma ticks_stopped :
  forall (events : list Event) (s : Speed) (n : nat) (p : Player),
    isPlaying (page p) = false -> ticks events s n p = p.
Proof.
  intros events s n. induction n as [|n IH]; intros p H; [reflexivity|].
  cbn [ticks]. rewrite tick_stopped by exact H. exact (IH p H).
Qed.

Lemma tick_going :
  forall (events : list Event) (s : Speed) (p : Player),
    isPlaying (page p) = true ->
    currentTime (page p) + advance s < getTotalDuration events ->
    tick events s p =
    setTime (fold_left applyEvent
               (currentEvents events (currentTime (page p))
                              (currentTime (page p) + advance s)) p)
            (currentTime (page p) + advance s).
Proof.
  intros events s p Hp Hlt. unfold tick, checkPlaybackEnd. rewrite Hp.
  apply Z.leb_gt in Hlt. rewrite Hlt. reflexivity.
Qed.

Lemma tick_ending :
  forall (events : list Event) (s : Speed) (p : Player),
    isPlaying (page p) = true ->
    getTotalDuration events <= currentTime (page p) + advance s ->
    tick events s p =
    setTime (fold_left applyEvent
               (currentEvents events (currentTime (page p))
                              (getTotalDuration events))
               (setPlaying p false))
            (getTotalDuration events).
Proof.
  intros events s p Hp Hle. unfold tick, checkPlaybackEnd. rewrite Hp.
  apply Z.leb_le in Hle. rewrite Hle. reflexivity.
Qed.

(** The times and the flag over a run of ticks. *)
Lemma ticks_clock :
  forall (events : list Event) (s : Speed) (n : nat) (p : Player),
    isPlaying (page p) = true ->
    (currentTime (page p) + Z.of_nat n * advance s < getTotalDuration events
     \/ n = O ->
     isPlaying (page (ticks events s n p)) = true
     /\ currentTime (page (ticks events s n p)) =
        currentTime (page p) + Z.of_nat n * advance s)
    /\ (getTotalDuration events
        <= currentTime (page p) + Z.of_nat n * advance s ->
        (1 <= n)%nat ->
        isPlaying (page (ticks events s n p)) = false
        /\ currentTime (page (ticks events s n p)) =
           getTotalDuration events).
Proof.
  intros events s n. pose proof (advance_pos s) as Hadv.
  induction n as [|n IH]; intros p Hp.
  - split; [|lia]. intros _. cbn [ticks]. split; [exact Hp|]. cbn. lia.
  - cbn [ticks].
    assert (Hsucc : Z.of_nat (S n) * advance s
                    = Z.of_nat n * advance s + advance s) by lia.
    rewrite Hsucc.
    destruct (Z_lt_le_dec (currentTime (page p) + advance s)
                          (getTotalDuration events)) as [Hlt|Hle].
    + rewrite (tick_going events s p Hp Hlt).
      set (p' := setTime _ _).
      assert (Hp' : isPlaying (page p') = true).
      { unfold p'. cbn [setTime page isPlaying].
        destruct (fold_clock
                    (currentEvents events (currentTime (page p))
                                   (currentTime (page p) + advance s)) p)
          as [_ H]. rewrite H. exact Hp. }
      assert (Ht' : currentTime (page p') = currentTime (page p) + advance s)
        by reflexivity.
      destruct (IH p' Hp') as [IH1 IH2]. rewrite Ht' in IH1, IH2.
      split.
      * intros [H|H]; [|discriminate].
        destruct IH1 as [H1 H2]; [left; lia|]. split; [exact H1|].
        rewrite H2. lia.
      * intros H _. destruct n as [|n]; [cbn in H; lia|].
        destruct IH2 as [H1 H2]; [lia|lia|]. split; assumption.
    + rewrite (tick_ending events s p Hp Hle).
      set (p' := setTime _ _).
      assert (Hp' : isPlaying (page p') = false).
      { unfold p'. cbn [setTime page isPlaying].
        destruct (fold_clock
                    (currentEvents events (currentTime (page p))
                                   (getTotalDuration events))
                    (setPlaying p false)) as [_ H].
        rewrite H. reflexivity. }
      rewrite (ticks_stopped events s n p' Hp').
      split; [intros [H|H]; [lia|discriminate]|].
      intros _ _. split; [exact Hp'|reflexivity].
Qed.

(** X23. Playback stops exactly at the end: from a playing state, once
    the ticks taken add up to the total duration or more, the page is
    paused with the clock on the total duration, and further ticks
    change nothing; before that it is still playing and the clock has
    advanced by the ticks taken. *)
Theorem playback_stops_at_the_end :
  forall (events : list Event) (s : Speed) (n : nat) (p : Player),
    isPlaying (page p) = true ->
    (1 <= n)%nat ->
    let q := ticks events s n p in
    let reached := currentTime (page p) + Z.of_nat n * advance s in
    (getTotalDuration events <= reached ->
     isPlaying (page q) = false
     /\ currentTime (page q) = getTotalDuration events
     /\ forall (s' : Speed) (m : nat), ticks events s' m q = q)
    /\ (reached < getTotalDuration events ->
        isPlaying (page q) = true /\ currentTime (page q) = reached).
Proof.
  intros events s n p Hp Hn. cbn zeta.
  destruct (ticks_clock events s n p Hp) as [Hgo Hend]. split.
  - intros Hle. destruct (Hend Hle Hn) as [H1 H2].
    repeat split; [exact H1|exact H2|].
    intros s' m. apply ticks_stopped. exact H1.
  - intros Hlt. apply Hgo. left. exact Hlt.
Qed.

Lemma playback_stops_at_the_end_witness :
  isPlaying
    (page (ticks lateSnapshot Fourfold 15
                 (setPlaying (mounted (loaded shopUrl lateSnapshot)) true)))
  = false
  /\ currentTime
       (page (ticks lateSnapshot Fourfold 15
                (setPlaying (mounted (loaded shopUrl lateSnapshot)) true)))
     = 3000.
Proof.
  destruct (playback_stops_at_the_end lateSnapshot Fourfold 15
              (setPlaying (mounted (loaded shopUrl lateSnapshot)) true))
    as [Hend _]; [reflexivity|lia|].
  destruct Hend as (H1 & H2 & _); [vm_compute; discriminate|].
  split; [exact H1|exact H2].
Defined.

(** What [d] milliseconds of playing make of a playing state. *)
Lemma ticks_elapsed :
  forall (events : list Event) (s : Speed) (n : nat) (p : Player),
    ascending events ->
    isPlaying (page p) = true ->
    (1 <= n)%nat ->
    ticks events s n p =
    if getTotalDuration events
       <=? currentTime (page p) + Z.of_nat n * advance s
    then
      setTime (fold_left applyEvent
                 (currentEvents events (currentTime (page p))
                                (getTotalDuration events))
                 (setPlaying p false))
              (getTotalDuration events)
    else
      setTime (fold_left applyEvent
                 (currentEvents events (currentTime (page p))
                    (currentTime (page p) + Z.of_nat n * advance s)) p)
              (currentTime (page p) + Z.of_nat n * advance s).
Proof.
  intros events s n p Hasc. pose proof (advance_pos s) as Hadv.
  revert p. induction n as [|n IH]; intros p Hp Hn; [lia|].
  cbn [ticks].
  destruct (Z_lt_le_dec (currentTime (page p) + advance s)
                        (getTotalDuration events)) as [Hlt|Hle].
  - rewrite (tick_going events s p Hp Hlt).
    set (W1 := currentEvents events (currentTime (page p))
                             (currentTime (page p) + advance s)).
    destruct n as [|n].
    + cbn [ticks].
      replace (currentTime (page p) + Z.of_nat 1 * advance s)
        with (currentTime (page p) + advance s) by lia.
      apply Z.leb_gt in Hlt. rewrite Hlt. reflexivity.
    + assert (Hp' : isPlaying
                      (page (setTime (fold_left applyEvent W1 p)
                                     (currentTime (page p) + advance s)))
                    = true).
      { cbn [setTime page isPlaying].
        destruct (fold_clock W1 p) as [_ H]. rewrite H. exact Hp. }
      rewrite (IH _ Hp') by lia.
      cbn [setTime page currentTime].
      replace (currentTime (page p) + advance s
               + Z.of_nat (S n) * advance s)
        with (currentTime (page p) + Z.of_nat (S (S n)) * advance s)
        by lia.
      destruct (getTotalDuration events
                <=? currentTime (page p) + Z.of_nat (S (S n)) * advance s)
        eqn:Hend.
      * rewrite fold_setPlaying, fold_setTime, fold_setPlaying.
        rewrite <- (window_app events (currentTime (page p))
                      (currentTime (page p) + advance s)
                      (getTotalDuration events) Hasc) by lia.
        rewrite fold_left_app. reflexivity.
      * apply Z.leb_gt in Hend. rewrite fold_setTime.
        rewrite <- (window_app events (currentTime (page p))
                      (currentTime (page p) + advance s)
                      (currentTime (page p)
                       + Z.of_nat (S (S n)) * advance s) Hasc) by lia.
        rewrite fold_left_app. reflexivity.
  - rewrite (tick_ending events s p Hp Hle).
    assert (Hstop : isPlaying
                      (page (setTime
                               (fold_left applyEvent
                                  (currentEvents events
                                     (currentTime (page p))
                                     (getTotalDuration events))
                                  (setPlaying p false))
                               (getTotalDuration events))) = false).
    { cbn [setTime page isPlaying].
      destruct (fold_clock
                  (currentEvents events (currentTime (page p))
                                 (getTotalDuration events))
                  (setPlaying p false)) as [_ H].
      rewrite H. reflexivity. }
    rewrite (ticks_stopped events s n _ Hstop).
    assert (H : (getTotalDuration events
                 <=? currentTime (page p) + Z.of_nat (S n) * advance s)
                = true) by (apply Z.leb_le; lia).
    rewrite H. reflexivity.
Qed.

(** Two runs of ticks that add up to the same time. *)
Lemma ticks_same_elapsed :
  forall (events : list Event) (s1 s2 : Speed) (n1 n2 : nat) (p : Player),
    ascending events ->
    Z.of_nat n1 * advance s1 = Z.of_nat n2 * advance s2 ->
    ticks events s1 n1 p = ticks events s2 n2 p.
Proof.
  intros events s1 s2 n1 n2 p Hasc Heq.
  pose proof (advance_pos s1) as H1. pose proof (advance_pos s2) as H2.
  destruct (isPlaying (page p)) eqn:Hp;
    [|rewrite !ticks_stopped by exact Hp; reflexivity].
  destruct n1 as [|n1], n2 as [|n2]; [reflexivity|nia|nia|].
  rewrite (ticks_elapsed events s1 (S n1) p Hasc Hp) by lia.
  rewrite (ticks_elapsed events s2 (S n2) p Hasc Hp) by lia.
  rewrite Heq. reflexivity.
Qed.

(** *** Replaying *)

Ltac flat :=
  unfold mounted, setPlaying, setTime, overwrite;
  cbn [page clickEffect hideTimers currentTime isPlaying cursorPosition
       reconstructedDom canvasSnapshots currentUrl].

Lemma orKeep_later :
  forall (A : Type) (a b : option A) (x : A),
    orKeep (later a b) x = orKeep b (orKeep a x).
Proof. intros A a [b|] x; reflexivity. Qed.

Lemma orKeep_idem :
  forall (A : Type) (o : option A) (x : A),
    orKeep o (orKeep o x) = orKeep o x.
Proof. intros A [b|] x; reflexivity. Qed.

Lemma overwrite_andThen :
  forall (u v : Overwrite) (p : Player),
    overwrite (andThen u v) p = overwrite v (overwrite u p).
Proof.
  intros u v p. unfold overwrite, andThen.
  cbn [o_cursor o_click o_dom o_canvas o_url o_timers page clickEffect
       hideTimers currentTime isPlaying cursorPosition reconstructedDom
       canvasSnapshots currentUrl].
  rewrite !orKeep_later, Nat.add_assoc. reflexivity.
Qed.

Lemma overwrite_nothing : forall p : Player, overwrite nothing p = p.
Proof. intros [[t pl cur dom cv url] ck n]. reflexivity. Qed.

Lemma fold_overwrite :
  forall (l : list Event) (u : Overwrite) (p : Player),
    fold_left applyEvent l (overwrite u p) =
    overwrite (fold_left (fun u e => andThen u (written e)) l u) p.
Proof.
  induction l as [|e l IH]; intros u p; [reflexivity|].
  cbn [fold_left].
  rewrite applyEvent_overwrite, <- overwrite_andThen. apply IH.
Qed.

Lemma fold_written :
  forall (l : list Event) (p : Player),
    fold_left applyEvent l p = overwrite (writtenBy l) p.
Proof.
  intros l p. unfold writtenBy. rewrite <- fold_overwrite.
  rewrite overwrite_nothing. reflexivity.
Qed.

Lemma find_first_snapshot :
  forall (events : list Event) (e : Event),
    find isSnapshot events = Some e ->
    truthy (htmlOf e) = true ->
    initialDomSnapshot events = Some e.
Proof.
  unfold initialDomSnapshot.
  induction events as [|x l IH]; intros e Hf Hh; [discriminate|].
  cbn [find] in Hf |- *. destruct (isSnapshot x) eqn:Hx.
  - inversion Hf; subst. rewrite Hh. reflexivity.
  - cbn [andb]. exact (IH e Hf Hh).
Qed.

Lemma loaded_clock :
  forall (url : option string) (events : list Event),
    currentTime (loaded url events) = 0
    /\ isPlaying (loaded url events) = false.
Proof.
  intros url events. unfold loaded.
  destruct (initialDomSnapshot events); split; reflexivity.
Qed.

(** The markup [handleResetPlayback] puts on the screen of a page that
    still shows what it showed after loading. *)
Lemma reset_dom_loaded :
  forall (url : option string) (events : list Event),
    match find isSnapshot events with
    | Some e =>
        if truthy (htmlOf e) then orEmpty (htmlOf e)
        else reconstructedDom (loaded url events)
    | None => reconstructedDom (loaded url events)
    end = reconstructedDom (loaded url events).
Proof.
  intros url events.
  destruct (find isSnapshot events) as [e|] eqn:Hf; [|reflexivity].
  destruct (truthy (htmlOf e)) eqn:Hh; [|reflexivity].
  unfold loaded. rewrite (find_first_snapshot events e Hf Hh). reflexivity.
Qed.

Lemma press_loaded :
  forall (url : option string) (events : list Event),
    handlePlayPause events (mounted (loaded url events)) =
    setPlaying (mounted (loaded url events)) true.
Proof.
  intros url events. unfold handlePlayPause.
  destruct (loaded_clock url events) as [Ht Hp].
  cbn [mounted page]. rewrite Ht, Hp.
  destruct (getTotalDuration events <=? 0); [|reflexivity].
  unfold handleRestartPlayback, handleResetPlayback, setPlaying.
  cbn [mounted page clickEffect currentTime isPlaying cursorPosition
       reconstructedDom canvasSnapshots currentUrl].
  rewrite reset_dom_loaded, Ht. reflexivity.
Qed.

(** A run of ticks that has stopped. *)
Lemma ticks_ended :
  forall (events : list Event) (s : Speed) (n : nat) (p : Player),
    ascending events ->
    isPlaying (page p) = true ->
    isPlaying (page (ticks events s n p)) = false ->
    ticks events s n p =
    setTime (overwrite (writtenBy (currentEvents events
                                     (currentTime (page p))
                                     (getTotalDuration events)))
                       (setPlaying p false))
            (getTotalDuration events).
Proof.
  intros events s n p Hasc Hp Hstop.
  destruct n as [|n]; [cbn [ticks] in Hstop; congruence|].
  rewrite (ticks_elapsed events s (S n) p Hasc Hp) in Hstop |- * by lia.
  destruct (getTotalDuration events
            <=? currentTime (page p) + Z.of_nat (S n) * advance s).
  - rewrite fold_written. reflexivity.
  - cbn [setTime page isPlaying] in Hstop.
    destruct (fold_clock
                (currentEvents events (currentTime (page p))
                   (currentTime (page p) + Z.of_nat (S n) * advance s)) p)
      as [_ H].
    rewrite H in Hstop. congruence.
Qed.

(** *** Timers *)

Lemma screen_eq :
  forall p q : Player,
    screen p = screen q <->
    page p = page q /\ fst (clickEffect p) = fst (clickEffect q).
Proof.
  intros p q. unfold screen. split.
  - intros H. inversion H. split; reflexivity || assumption.
  - intros [H1 H2]. rewrite H1, H2. reflexivity.
Qed.

Lemma overwrite_screen :
  forall (u : Overwrite) (p q : Player),
    screen p = screen q -> screen (overwrite u p) = screen (overwrite u q).
Proof.
  intros u p q H. apply screen_eq in H. destruct H as [Hpg Hck].
  apply screen_eq. unfold overwrite. cbn [page clickEffect].
  rewrite Hpg. split; [reflexivity|].
  destruct (o_click u); cbn [orKeep]; [reflexivity|exact Hck].
Qed.

Lemma setTime_screen :
  forall (p q : Player) (t : Z),
    screen p = screen q -> screen (setTime p t) = screen (setTime q t).
Proof.
  intros p q t H. apply screen_eq in H. destruct H as [Hpg Hck].
  apply screen_eq. unfold setTime. cbn [page clickEffect].
  rewrite Hpg. split; [reflexivity|exact Hck].
Qed.

Lemma setPlaying_screen :
  forall (p q : Player) (b : bool),
    screen p = screen q -> screen (setPlaying p b) = screen (setPlaying q b).
Proof.
  intros p q b H. apply screen_eq in H. destruct H as [Hpg Hck].
  apply screen_eq. unfold setPlaying. cbn [page clickEffect].
  rewrite Hpg. split; [reflexivity|exact Hck].
Qed.

Lemma tick_screen :
  forall (events : list Event) (s : Speed) (p q : Player),
    screen p = screen q ->
    screen (tick events s p) = screen (tick events s q).
Proof.
  intros events s p q H.
  assert (Hpg : page p = page q) by (apply screen_eq in H; tauto).
  unfold tick. rewrite Hpg.
  destruct (isPlaying (page q)); cbn [negb]; [|exact H].
  apply setTime_screen. rewrite !fold_written. apply overwrite_screen.
  destruct (snd (checkPlaybackEnd events (currentTime (page q) + advance s)));
    [apply setPlaying_screen|]; exact H.
Qed.

Lemma hide_screen : forall p : Player, screen (hide p) = screen p.
Proof.
  intros [pg [[x y] b] n]. unfold hide. cbn [hideTimers].
  destruct n; reflexivity.
Qed.

(** The timers do not reach what the ticks draw. *)
Lemma run_screen :
  forall (events : list Event) (s : Speed) (sch : list Step)
         (p q : Player),
    screen p = screen q ->
    screen (run events s sch p) = screen (ticks events s (ticksIn sch) q).
Proof.
  intros events s sch. unfold run, ticksIn.
  induction sch as [|[|] sch IH]; intros p q H.
  - exact H.
  - cbn [fold_left step filter isTick List.length ticks].
    apply IH. apply tick_screen. exact H.
  - cbn [fold_left step filter isTick]. apply IH.
    rewrite hide_screen. exact H.
Qed.

Lemma applyEvent_timed :
  forall (p : Player) (e : Event), timed p -> timed (applyEvent p e).
Proof.
  intros p e. rewrite applyEvent_overwrite. unfold timed, overwrite, written.
  cbn [clickEffect hideTimers].
  destruct (data e) as [d|]; cbn [o_click o_timers nothing orKeep];
    [|intros H; exact H].
  destruct (String.eqb (type e) "click"); cbn [orKeep];
    [|intros H; exact H].
  destruct (d_x d); [|intros H; exact H].
  destruct (d_y d); [|intros H; exact H].
  cbn [orKeep]. intros _ _. lia.
Qed.

Lemma fold_timed :
  forall (l : list Event) (p : Player),
    timed p -> timed (fold_left applyEvent l p).
Proof.
  induction l as [|e l IH]; intros p H; [exact H|].
  cbn [fold_left]. apply IH. apply applyEvent_timed. exact H.
Qed.

Lemma tick_timed :
  forall (events : list Event) (s : Speed) (p : Player),
    timed p -> timed (tick events s p).
Proof.
  intros events s p H. unfold tick.
  destruct (isPlaying (page p)); cbn [negb]; [|exact H].
  change (timed (fold_left applyEvent
                   (currentEvents events (currentTime (page p))
                      (fst (checkPlaybackEnd events
                              (currentTime (page p) + advance s))))
                   (if snd (checkPlaybackEnd events
                              (currentTime (page p) + advance s))
                    then setPlaying p false else p))).
  apply fold_timed.
  destruct (snd (checkPlaybackEnd events (currentTime (page p) + advance s)));
    exact H.
Qed.

Lemma hide_timed : forall p : Player, timed p -> timed (hide p).
Proof.
  intros p H. unfold hide. destruct (hideTimers p) eqn:Hn; [exact H|].
  unfold timed. cbn [clickEffect snd]. discriminate.
Qed.

Lemma run_timed :
  forall (events : list Event) (s : Speed) (sch : list Step) (p : Player),
    timed p -> timed (run events s sch p).
Proof.
  intros events s sch. unfold run.
  induction sch as [|[|] sch IH]; intros p H; [exact H| |];
    cbn [fold_left step]; apply IH;
    [apply tick_timed|apply hide_timed]; exact H.
Qed.

(** X24. What is on the screen depends on the time played, not on the
    speed, and the timers that hide the click effect do not reach it:
    on a timeline in ascending order, two runs whose ticks add up to
    the same number of milliseconds, at whatever speeds and with the
    timers firing between whichever ticks, show the same page state
    and place the click effect at the same point.  Whether the click
    effect is visible depends on the timers; it is visible only while
    a timer that will hide it is pending. *)
Theorem same_elapsed_time_same_screen :
  forall (events : list Event) (s1 s2 : Speed) (sch1 sch2 : list Step)
         (p : Player),
    ascending events ->
    Z.of_nat (ticksIn sch1) * advance s1
    = Z.of_nat (ticksIn sch2) * advance s2 ->
    screen (run events s1 sch1 p) = screen (run events s2 sch2 p)
    /\ (timed p -> timed (run events s1 sch1 p)).
Proof.
  intros events s1 s2 sch1 sch2 p Hasc Heq. split.
  - rewrite (run_screen events s1 sch1 p p eq_refl).
    rewrite (run_screen events s2 sch2 p p eq_refl).
    rewrite (ticks_same_elapsed events s1 s2 _ _ p Hasc Heq). reflexivity.
  - apply run_timed.
Qed.

(** Four ticks at 1x with the timer of the click at 1200 firing in
    between, against one tick at 4x, from 1150 on. *)
Lemma same_elapsed_time_same_screen_witness :
  let p := setTime (setPlaying (mounted (loaded shopUrl lateSnapshot)) true)
                   1150 in
  screen (run lateSnapshot Normal [Tick; Tick; Hide; Tick; Tick] p)
  = screen (run lateSnapshot Fourfold [Tick] p)
  /\ clickEffect (run lateSnapshot Normal [Tick; Tick; Hide; Tick; Tick] p)
     = (50, 80, false)
  /\ clickEffect (run lateSnapshot Fourfold [Tick] p) = (50, 80, true)
  /\ hideTimers (run lateSnapshot Fourfold [Tick] p) = 1%nat.
Proof.
  cbn zeta.
  destruct (same_elapsed_time_same_screen lateSnapshot Normal Fourfold
              [Tick; Tick; Hide; Tick; Tick] [Tick]
              (setTime (setPlaying (mounted (loaded shopUrl lateSnapshot))
                                   true) 1150))
    as [Hscreen _]; [|reflexivity|].
  - unfold ascending, lateSnapshot.
    repeat (constructor; [|repeat constructor; cbn; lia]). constructor.
  - split; [exact Hscreen|]. repeat split; reflexivity.
Defined.

Lemma handlePlayPause_screen :
  forall (events : list Event) (p q : Player),
    screen p = screen q ->
    screen (handlePlayPause events p) = screen (handlePlayPause events q).
Proof.
  intros events p q H. apply screen_eq in H. destruct H as [Hpg Hck].
  apply screen_eq. unfold handlePlayPause. rewrite Hpg.
  destruct (getTotalDuration events <=? currentTime (page q)).
  - unfold handleRestartPlayback, handleResetPlayback, setPlaying.
    cbn [page clickEffect]. rewrite Hpg. split; [reflexivity|exact Hck].
  - unfold setPlaying. cbn [page clickEffect]. rewrite Hpg.
    split; [reflexivity|exact Hck].
Qed.

(** The second replay, ticks only. *)
Lemma second_ticks_end_like_the_first :
  forall (events : list Event) (url : option string) (s1 s2 : Speed)
         (n1 n2 : nat),
    ascending events ->
    let p1 := ticks events s1 n1
                    (handlePlayPause events (mounted (loaded url events))) in
    let p2 := ticks events s2 n2 (handlePlayPause events p1) in
    isPlaying (page p1) = false ->
    isPlaying (page p2) = false ->
    screen p2 = screen p1 /\ currentTime (page p1) = getTotalDuration events.
Proof.
  intros events url s1 s2 n1 n2 Hasc. cbn zeta. rewrite press_loaded.
  destruct (loaded_clock url events) as [Ht0 Hp0].
  pose proof (reset_dom_loaded url events) as Hreset.
  destruct (loaded url events) as [t0 pl0 cur0 dom0 cv0 url0].
  cbn [currentTime isPlaying reconstructedDom] in Ht0, Hp0, Hreset.
  subst t0 pl0. intros Hstop1.
  match type of Hstop1 with
  | isPlaying (page (ticks _ _ _ ?p)) = false =>
      rewrite (ticks_ended events s1 n1 p Hasc eq_refl Hstop1)
  end.
  set (U := writtenBy (currentEvents events 0 (getTotalDuration events))).
  unfold handlePlayPause. flat. rewrite Z.leb_refl.
  unfold handleRestartPlayback, handleResetPlayback. flat.
  intros Hstop2.
  match type of Hstop2 with
  | isPlaying (page (ticks _ _ _ ?p)) = false =>
      rewrite (ticks_ended events s2 n2 p Hasc eq_refl Hstop2)
  end.
  flat. fold U. split; [|reflexivity].
  unfold screen. cbn [page clickEffect].
  rewrite !orKeep_idem. f_equal. f_equal.
  destruct (o_dom U) as [h|]; [reflexivity|].
  cbn [orKeep]. exact Hreset.
Qed.

(** X25. A second replay ends like the first: on a timeline in
    ascending order, pressing play on the freshly loaded page and
    letting it run until it stops, then pressing play again (which
    rewinds) and letting it run until it stops, at whatever speeds and
    with the timers that hide the click effect firing between whichever
    ticks, ends on the page state and the place of the click effect on
    which the first run ended, with the clock on the total duration. *)
Theorem second_replay_ends_like_the_first :
  forall (events : list Event) (url : option string) (s1 s2 : Speed)
         (sch1 sch2 : list Step),
    ascending events ->
    let p1 := run events s1 sch1
                  (handlePlayPause events (mounted (loaded url events))) in
    let p2 := run events s2 sch2 (handlePlayPause events p1) in
    isPlaying (page p1) = false ->
    isPlaying (page p2) = false ->
    screen p2 = screen p1 /\ currentTime (page p1) = getTotalDuration events.
Proof.
  intros events url s1 s2 sch1 sch2 Hasc. cbn zeta. intros Hstop1 Hstop2.
  pose proof (run_screen events s1 sch1 _ _
                (eq_refl (screen (handlePlayPause events
                                    (mounted (loaded url events))))))
    as H1.
  set (p1 := run events s1 sch1
                 (handlePlayPause events (mounted (loaded url events))))
    in *.
  set (q1 := ticks events s1 (ticksIn sch1)
                   (handlePlayPause events (mounted (loaded url events))))
    in *.
  pose proof (run_screen events s2 sch2 _ _
                (handlePlayPause_screen events p1 q1 H1)) as H2.
  set (p2 := run events s2 sch2 (handlePlayPause events p1)) in *.
  set (q2 := ticks events s2 (ticksIn sch2) (handlePlayPause events q1))
    in *.
  assert (Hpg1 : page p1 = page q1) by (apply screen_eq in H1; tauto).
  assert (Hpg2 : page p2 = page q2) by (apply screen_eq in H2; tauto).
  rewrite Hpg1 in Hstop1. rewrite Hpg2 in Hstop2.
  destruct (second_ticks_end_like_the_first events url s1 s2
              (ticksIn sch1) (ticksIn sch2) Hasc Hstop1 Hstop2)
    as [Hq Hend].
  fold q1 q2 in Hq. fold q1 in Hend.
  rewrite H2, Hq, H1, Hpg1. split; [reflexivity|exact Hend].
Qed.

Lemma second_replay_ends_like_the_first_witness :
  let first := repeat Tick 30 ++ [Hide] ++ repeat Tick 30 in
  let second := repeat Tick 20 ++ [Hide; Hide] ++ repeat Tick 10 in
  let p1 := run lateSnapshot Normal first
                (handlePlayPause lateSnapshot
                   (mounted (loaded shopUrl lateSnapshot))) in
  let p2 := run lateSnapshot Double second
                (handlePlayPause lateSnapshot p1) in
  screen p2 = screen p1
  /\ currentTime (page p1) = 3000
  /\ clickEffect p1 = (50, 80, false)
  /\ clickEffect p2 = (50, 80, false).
Proof.
  cbn zeta.
  destruct (second_replay_ends_like_the_first lateSnapshot shopUrl
              Normal Double (repeat Tick 30 ++ [Hide] ++ repeat Tick 30)
              (repeat Tick 20 ++ [Hide; Hide] ++ repeat Tick 10))
    as [Hscreen Hend].
  - unfold ascending, lateSnapshot.
    repeat (constructor; [|repeat constructor; cbn; lia]). constructor.
  - vm_compute. reflexivity.
  - vm_compute. reflexivity.
  - split; [exact Hscreen|]. split; [exact Hend|].
    split; vm_compute; reflexivity.
Defined.

End PlaybackFacts.

(** ** The scale the session page hands to the replay view *)

Module PageScaleFacts.
Import Replay PageScale.

Local Open Scope Z_scope.

Lemma ratio_sign :
  forall (c : Z) (v : Q),
    (0 < v)%Q -> ((0 <= inject_Z c / v)%Q <-> 0 <= c).
Proof.
  intros c v Hv. split.
  - intros H. apply Qmult_le_compat_r with (z := v) in H; [|lra].
    rewrite Qmult_0_l in H.
    assert (Hc : (inject_Z c / v * v == inject_Z c)%Q) by (field; lra).
    rewrite Hc in H. change 0%Q with (inject_Z 0) in H.
    rewrite <- Zle_Qle in H. exact H.
  - intros H. apply Qle_shift_div_l; [exact Hv|].
    rewrite Qmult_0_l. change 0%Q with (inject_Z 0).
    rewrite <- Zle_Qle. exact H.
Qed.

(** X26. The page never magnifies the replay, and hands down a negative
    scale in a low window: with a recorded viewport of positive width
    and height, the scale computed on a resize is at most 1, the replay
    view has a layout for it whose scale is not larger, and (for a
    window width that is not negative) the scale handed down is
    negative exactly when the window is less than 200 pixels high. *)
Theorem page_scale_shrinks_only :
  forall (innerWidth innerHeight containerWidth containerHeight : Z)
         (viewportWidth viewportHeight scale : Q),
    (0 < viewportWidth)%Q -> (0 < viewportHeight)%Q ->
    0 <= innerWidth ->
    let s := handleResize innerWidth innerHeight viewportWidth
                          viewportHeight scale in
    (s <= 1)%Q
    /\ (exists l : Layout,
          updateScaleAndPosition containerWidth containerHeight
                                 viewportWidth viewportHeight s = Some l
          /\ (computedScale l <= s)%Q)
    /\ ((s < 0)%Q <-> innerHeight < 200).
Proof.
  intros iw ih cw ch vw vh scale Hvw Hvh Hiw. cbn zeta.
  unfold handleResize.
  assert (Hw : Qeq_bool vw 0 = false).
  { destruct (Qeq_bool vw 0) eqn:E; [|reflexivity].
    apply Qeq_bool_iff in E. lra. }
  assert (Hh : Qeq_bool vh 0 = false).
  { destruct (Qeq_bool vh 0) eqn:E; [|reflexivity].
    apply Qeq_bool_iff in E. lra. }
  rewrite Hw, Hh. cbn [negb andb].
  set (sx := Float64.fl
               (Float64.fl (inject_Z iw * Float64.fl (66 # 100)) / vw)%Q).
  set (sy := Float64.fl (inject_Z (ih - 200) / vh)%Q).
  assert (Hsx : (0 <= sx)%Q).
  { unfold sx. apply Float64Facts.fl_nonneg.
    apply Qle_shift_div_l; [exact Hvw|]. rewrite Qmult_0_l.
    apply Float64Facts.fl_nonneg.
    apply Qmult_le_0_compat;
      [|apply Float64Facts.fl_nonneg; discriminate].
    change 0%Q with (inject_Z 0). rewrite <- Zle_Qle. exact Hiw. }
  pose proof (ratio_sign (ih - 200) vh Hvh) as Hratio.
  assert (Hsy : (0 <= sy)%Q <-> 0 <= ih - 200).
  { rewrite <- Hratio. unfold sy. split.
    - intros H. apply Qnot_lt_le. intros Hneg.
      apply Float64Facts.fl_negative in Hneg. lra.
    - apply Float64Facts.fl_nonneg. }
  split; [apply Q.le_min_r|]. split.
  - unfold updateScaleAndPosition. rewrite Hw, Hh. cbn [orb].
    eexists. split; [reflexivity|]. cbn [computedScale]. apply Q.le_min_r.
  - rewrite !Q.min_lt_iff. split.
    + intros [[H|H]|H]; [lra| |lra].
      destruct (Z_lt_le_dec ih 200) as [Hlt|Hge]; [exact Hlt|].
      assert (Hc : 0 <= ih - 200) by lia. apply Hsy in Hc. lra.
    + intros H. left. right. apply Qnot_le_lt. intros Hc.
      apply Hsy in Hc. lia.
Qed.

Lemma page_scale_shrinks_only_witness :
  (handleResize 1000 150 800 600 1 < 0)%Q.
Proof.
  destruct (page_scale_shrinks_only 1000 150 500 400 800 600 1)
    as (_ & _ & H); [reflexivity|reflexivity|lia|].
  apply H. lia.
Defined.

End PageScaleFacts.

(** ** What sanitizing leaves of a markup *)

Module SanitizedFacts.
Import Replay Sanitized.

Local Open Scope list_scope.

Lemma subsequence_refl : forall l : list ascii, subsequence l l.
Proof.
  induction l as [|c l IH]; [constructor|]. apply sub_take. exact IH.
Qed.

Lemma subsequence_trans :
  forall l1 l2 l3 : list ascii,
    subsequence l1 l2 -> subsequence l2 l3 -> subsequence l1 l3.
Proof.
  intros l1 l2 l3 H12 H23. revert l1 H12.
  induction H23 as [|c m2 m3 H IH|c m2 m3 H IH]; intros l1 H12.
  - exact H12.
  - apply sub_skip. exact (IH l1 H12).
  - inversion H12 as [|c' k1 k2 Hk|c' k1 k2 Hk]; subst.
    + apply sub_skip. exact (IH l1 Hk).
    + apply sub_take. exact (IH k1 Hk).
Qed.

Lemma subsequence_length :
  forall l1 l2 : list ascii,
    subsequence l1 l2 -> (List.length l1 <= List.length l2)%nat.
Proof.
  intros l1 l2 H. induction H; cbn [List.length]; lia.
Qed.

Lemma cut_subsequence :
  forall (m : list ascii -> option (list ascii)) (s : list ascii)
         (skip : nat),
    subsequence (cut m skip s) s.
Proof.
  intros m s. induction s as [|c tl IH]; intros skip.
  - destruct skip; constructor.
  - cbn [cut]. destruct skip as [|k].
    + destruct (m (c :: tl)).
      * apply sub_skip. apply IH.
      * apply sub_take. apply IH.
    + apply sub_skip. apply IH.
Qed.

Lemma chars_of_list :
  forall l : list ascii, chars (string_of_list_ascii l) = l.
Proof. intros l. apply list_ascii_of_string_of_list_ascii. Qed.

Lemma chars_length :
  forall s : string, List.length (chars s) = String.length s.
Proof.
  induction s as [|c s IH]; [reflexivity|].
  cbn [chars list_ascii_of_string List.length String.length] in *.
  f_equal. exact IH.
Qed.

(** X27. Sanitizing only deletes: what comes out is the markup that
    went in with some of its characters left out, in the same order; it
    is never longer, and nothing is inserted or rewritten. *)
Theorem sanitizing_only_deletes :
  forall html : string,
    subsequence (chars (sanitizeHtml html)) (chars html)
    /\ (String.length (sanitizeHtml html) <= String.length html)%nat.
Proof.
  intros html.
  assert (H : subsequence (chars (sanitizeHtml html)) (chars html)).
  { unfold sanitizeHtml. destruct (String.eqb html "") eqn:He.
    - apply String.eqb_eq in He. subst html. constructor.
    - rewrite chars_of_list. unfold replaceAll.
      eapply subsequence_trans; [apply cut_subsequence|].
      eapply subsequence_trans; apply cut_subsequence. }
  split; [exact H|].
  apply subsequence_length in H. rewrite !chars_length in H. exact H.
Qed.

Lemma literal_none_script :
  forall s : list ascii,
    literal (chars "<script") s = None -> matchScript s = None.
Proof. intros s H. unfold matchScript. rewrite H. reflexivity. Qed.

Lemma literal_none_handler :
  forall (q : ascii) (s : list ascii),
    literal (chars "on") s = None -> matchHandler q s = None.
Proof. intros q s H. unfold matchHandler. rewrite H. reflexivity. Qed.

Lemma cut_quiet :
  forall (p : list ascii) (m : list ascii -> option (list ascii)),
    (forall t, literal p t = None -> m t = None) ->
    forall s, behindFirst p s = None -> cut m 0 s = s.
Proof.
  intros p m Hm s. induction s as [|c tl IH]; intros Hb; [reflexivity|].
  cbn [behindFirst] in Hb.
  destruct (literal p (c :: tl)) eqn:Hl; [discriminate|].
  cbn [cut]. rewrite (Hm _ Hl). f_equal. exact (IH Hb).
Qed.

(** X28. Markup that mentions neither [<script] nor [on], in any
    mixture of upper and lower case, comes back from sanitizing
    unchanged. *)
Theorem harmless_markup_is_untouched :
  forall html : string,
    mentions "<script" html = false ->
    mentions "on" html = false ->
    sanitizeHtml html = html.
Proof.
  intros html Hs Ho. unfold mentions in Hs, Ho.
  destruct (behindFirst (chars "<script") (chars html)) eqn:Hbs;
    [discriminate|].
  destruct (behindFirst (chars "on") (chars html)) eqn:Hbo;
    [discriminate|].
  unfold sanitizeHtml. destruct (String.eqb html "") eqn:He.
  - apply String.eqb_eq in He. subst html. reflexivity.
  - unfold replaceAll.
    rewrite (cut_quiet (chars "<script") matchScript literal_none_script
                       (chars html) Hbs).
    rewrite (cut_quiet (chars "on") (matchHandler dquote)
                       (literal_none_handler dquote) (chars html) Hbo).
    rewrite (cut_quiet (chars "on") (matchHandler "'"%char)
                       (literal_none_handler "'"%char) (chars html) Hbo).
    apply string_of_list_ascii_of_string.
Qed.

Lemma harmless_markup_is_untouched_witness :
  sanitizeHtml plainMarkup = plainMarkup.
Proof.
  apply harmless_markup_is_untouched; reflexivity.
Defined.

End SanitizedFacts.

(** ** The in-page recorder ([SessionRecorder]) *)

Module LocalRecorderFacts.
Import Model LocalRecorder.

Local Open Scope string_scope.
Local Open Scope list_scope.
Local Open Scope Z_scope.

Lemma recordAll_recording :
  forall (inputs : list Input) (r : SessionRecorder),
    isRecording r = true ->
    recordAll inputs r =
    mkRecorder
      (events r
       ++ map (fun i => mkEvent (fst (fst i)) (snd i - startTime r)
                                (Some (snd (fst i)))) inputs)
      (startTime r) true (listening r).
Proof.
  unfold recordAll.
  induction inputs as [|i rest IH]; intros r Hr.
  - cbn [fold_left map]. rewrite app_nil_r. destruct r. cbn in Hr.
    subst. reflexivity.
  - cbn [fold_left map]. rewrite IH.
    + unfold recordEvent. rewrite Hr.
      cbn [negb events startTime listening]. rewrite <- app_assoc.
      reflexivity.
    + unfold recordEvent. rewrite Hr. reflexivity.
Qed.

Lemma clocks_bounds :
  forall (inputs : list Input) (t : Z),
    clocksFrom t inputs ->
    t <= lastClock t inputs
    /\ Forall (fun i => t <= snd i <= lastClock t inputs) inputs.
Proof.
  unfold lastClock.
  induction inputs as [|i rest IH]; intros t Hc.
  - cbn. split; [lia|constructor].
  - cbn [clocksFrom] in Hc. destruct Hc as [Hi Hrest].
    destruct (IH (snd i) Hrest) as [Hlast Hall].
    assert (Hl : last (map snd (i :: rest)) t = last (map snd rest) (snd i)).
    { cbn [map]. destruct (map snd rest) as [|x xs] eqn:Hm;
        [reflexivity|].
      cbn [last]. clear. revert x.
      induction xs as [|y ys IHy]; intros x; [reflexivity|].
      cbn [last] in *. apply IHy. }
    rewrite Hl. split; [lia|].
    constructor; [lia|].
    eapply Forall_impl; [|exact Hall]. intros j Hj. cbn beta in Hj. lia.
Qed.

(** X29. One recording: between [startRecording] and [stopRecording],
    with a clock that does not run backwards, the data returned holds
    the events the instance held before followed by one event per input
    in the order of arrival, each stamped with its distance from the
    start, which lies between 0 and the reported duration; the reported
    duration is at most the reported end minus the reported start; and
    after the stop nothing more is recorded. *)
Theorem one_recording_is_consistent :
  forall (r : SessionRecorder) (t0 now1 now2 : Z) (inputs : list Input),
    isRecording r = false ->
    clocksFrom t0 inputs ->
    lastClock t0 inputs <= now1 -> now1 <= now2 ->
    let out := stopRecording now1 now2
                 (recordAll inputs (startRecording t0 r)) in
    let new := map (fun i => mkEvent (fst (fst i)) (snd i - t0)
                                     (Some (snd (fst i)))) inputs in
    sd_events (snd out) = events r ++ new
    /\ Forall (fun e => 0 <= timestamp e <= duration (snd out)) new
    /\ sd_startTime (snd out) = t0
    /\ duration (snd out) <= endTime (snd out) - sd_startTime (snd out)
    /\ (forall ty d now, recordEvent ty d now (fst out) = fst out).
Proof.
  intros r t0 now1 now2 inputs Hr Hc H1 H2. cbn zeta.
  unfold startRecording. rewrite Hr.
  rewrite recordAll_recording by reflexivity.
  cbn [events startTime listening stopRecording getSessionData snd fst
       sd_events duration sd_startTime endTime].
  destruct (clocks_bounds inputs t0 Hc) as [Hlast Hall].
  repeat split; try lia.
  apply Forall_map. eapply Forall_impl; [|exact Hall].
  intros i Hi. cbn beta in Hi. cbn [timestamp]. lia.
Qed.

Lemma one_recording_is_consistent_witness :
  sd_events
    (snd (stopRecording 1500 1501
            (recordAll [("click", noData, 1100); ("scroll", noData, 1400)]
                       (startRecording 1000 (create 900)))))
  = [mkEvent "click" 100 (Some noData); mkEvent "scroll" 400 (Some noData)].
Proof.
  destruct (one_recording_is_consistent (create 900) 1000 1500 1501
              [("click", noData, 1100); ("scroll", noData, 1400)])
    as (H & _); [reflexivity|cbn; lia|cbn; lia|lia|].
  exact H.
Defined.

Lemma perform_keeps :
  forall (o : Op) (r : SessionRecorder),
    exists more : list Event, events (perform o r) = events r ++ more.
Proof.
  intros [now|now1 now2|ty d now] r; cbn [perform].
  - exists []. rewrite app_nil_r. unfold startRecording.
    destruct (isRecording r); reflexivity.
  - exists []. rewrite app_nil_r. reflexivity.
  - unfold recordEvent. destruct (isRecording r); cbn [negb].
    + eexists. reflexivity.
    + exists []. rewrite app_nil_r. reflexivity.
Qed.

(** X30. The in-page recorder never forgets: whatever is done to an
    instance (starting, stopping, recording, in any order), the events
    it held before are still there, in front and unchanged; so the data
    of a second recording begins with the events of the first, which
    keep the timestamps they got against the earlier start. *)
Theorem recorder_never_forgets :
  forall (ops : list Op) (r : SessionRecorder) (now1 now2 : Z),
    exists more : list Event,
      events (performAll ops r) = events r ++ more
      /\ sd_events (snd (stopRecording now1 now2 (performAll ops r)))
         = events r ++ more.
Proof.
  induction ops as [|o rest IH]; intros r now1 now2.
  - exists []. rewrite app_nil_r. split; reflexivity.
  - cbn [performAll].
    destruct (perform_keeps o r) as [m1 H1].
    destruct (IH (perform o r) now1 now2) as (m2 & H2 & H3).
    exists (m1 ++ m2). rewrite H2, H3, H1, app_assoc. split; reflexivity.
Qed.

End LocalRecorderFacts.
